(** * total-serialism: the broadcasting engine and the structural transformers

    A shallow embedding of [src/src/utility.ts] (the Utility functions and,
    after the separator inside that file, the Transform functions).

    JavaScript values are embedded as the inductive type [value].  A number
    (type [num]) is a rational, [NaN] or one of the two infinities; the sign
    of zero is not represented.  Module [Number] has the operations on
    numbers in exact arithmetic, module [Binary64] the same operations as the
    runtime computes them, each result rounded to the nearest binary64
    number.

    Modules [Util] and [Transform] follow the source with the exact
    operations, and with integers ([Z]) where the code takes a count, a size
    or a rotation step.  What is proved of them either involves no operation
    that binary64 rounds (comparisons, remainders, indices, small integers),
    or states the bound within which none is rounded.  Module [Float] has
    [wrap], [rotate] and [split] once more, with the operations of
    [Binary64] and with any number as a step or a size: there the rounding
    and the fractional arguments show, and there the claims on these three
    functions are settled. *)

From Stdlib Require Import ZArith QArith Qround Qreduction Qabs Qpower.
From Stdlib Require Qcanon.
From Stdlib Require Import List Bool String Ascii DecimalString Lia Lqa.
From Stdlib Require Import Permutation.
Import ListNotations.

Set Implicit Arguments.

(* ================================================================== *)
(** ** Numbers *)

Module Number.

(** A JavaScript number: a finite value, [NaN], [Infinity] or [-Infinity]. *)
Inductive num : Type :=
| Fin (q : Q)
| NaN
| PInf
| NInf.

Definition of_Z (z : Z) : num := Fin (inject_Z z).
Definition of_nat (n : nat) : num := of_Z (Z.of_nat n).

(** Sign of a number as a [comparison] with zero ([None] for [NaN]). *)
Definition sign (x : num) : option comparison :=
  match x with
  | Fin q => Some (q ?= 0)%Q
  | NaN => None
  | PInf => Some Gt
  | NInf => Some Lt
  end.

(** The infinity of a given sign; a zero sign stands for the undefined
    forms (0 * Infinity, 0 / 0). *)
Definition inf_of_sign (s : comparison) : num :=
  match s with
  | Gt => PInf
  | Lt => NInf
  | Eq => NaN
  end.

Definition sign_mul (s t : comparison) : comparison :=
  match s, t with
  | Eq, _ | _, Eq => Eq
  | Gt, Gt | Lt, Lt => Gt
  | Gt, Lt | Lt, Gt => Lt
  end.

(** [x + y]. *)
Definition add (x y : num) : num :=
  match x, y with
  | NaN, _ | _, NaN => NaN
  | Fin a, Fin b => Fin (Qred (a + b))
  | PInf, NInf | NInf, PInf => NaN
  | PInf, _ | _, PInf => PInf
  | NInf, _ | _, NInf => NInf
  end.

(** [x - y]. *)
Definition sub (x y : num) : num :=
  match x, y with
  | NaN, _ | _, NaN => NaN
  | Fin a, Fin b => Fin (Qred (a - b))
  | PInf, PInf | NInf, NInf => NaN
  | PInf, _ | _, NInf => PInf
  | NInf, _ | _, PInf => NInf
  end.

(** [x * y]. *)
Definition mul (x y : num) : num :=
  match x, y with
  | NaN, _ | _, NaN => NaN
  | Fin a, Fin b => Fin (Qred (a * b))
  | _, _ =>
      match sign x, sign y with
      | Some s, Some t => inf_of_sign (sign_mul s t)
      | _, _ => NaN
      end
  end.

(** [x / y].  A zero divisor is the positive zero: [0 / 0] is [NaN] and
    [a / 0] is the infinity of the sign of [a]. *)
Definition div (x y : num) : num :=
  match x, y with
  | NaN, _ | _, NaN => NaN
  | Fin a, Fin b =>
      if Qeq_bool b 0 then inf_of_sign (a ?= 0)%Q else Fin (Qred (a / b))
  | Fin _, _ => Fin 0
  | _, Fin b => if Qle_bool 0 b then x else sub (Fin 0) x
  | _, _ => NaN
  end.

(** Rounding towards zero on rationals. *)
Definition Qtrunc (q : Q) : Z :=
  if Qle_bool 0 q then Qfloor q else Qceiling q.

(** [Math.trunc(x)]. *)
Definition trunc (x : num) : num :=
  match x with
  | Fin q => Fin (inject_Z (Qtrunc q))
  | _ => x
  end.

(** The remainder of the rationals: it has the sign of the dividend. *)
Definition Qrem (a b : Q) : Q := (a - b * inject_Z (Qtrunc (a / b)))%Q.

(** [x % y]. *)
Definition rem (x y : num) : num :=
  match x, y with
  | NaN, _ | _, NaN => NaN
  | Fin a, Fin b => if Qeq_bool b 0 then NaN else Fin (Qred (Qrem a b))
  | Fin a, _ => x
  | _, _ => NaN
  end.

(** [x < y]; any comparison with [NaN] is false. *)
Definition ltb (x y : num) : bool :=
  match x, y with
  | NaN, _ | _, NaN => false
  | Fin a, Fin b => negb (Qle_bool b a)
  | NInf, NInf | PInf, _ | _, NInf => false
  | _, _ => true
  end.

(** [x > y]. *)
Definition gtb (x y : num) : bool := ltb y x.

(** [Math.max(x, y)] and [Math.min(x, y)] on two numbers. *)
Definition max (x y : num) : num :=
  match x, y with
  | NaN, _ | _, NaN => NaN
  | _, _ => if ltb x y then y else x
  end.

Definition min (x y : num) : num :=
  match x, y with
  | NaN, _ | _, NaN => NaN
  | _, _ => if ltb y x then y else x
  end.

(** Truthiness of a number: false for zero and [NaN]. *)
Definition truthy (x : num) : bool :=
  match x with
  | Fin q => negb (Qeq_bool q 0)
  | NaN => false
  | _ => true
  end.

(** The array index denoted by a number, when it is a non-negative integer. *)
Definition to_index (x : num) : option nat :=
  match x with
  | Fin q =>
      let r := Qred q in
      if (Pos.eqb (Qden r) 1 && (0 <=? Qnum r)%Z)%bool
      then Some (Z.to_nat (Qnum r)) else None
  | _ => None
  end.

(** [Math.floor(x)]. *)
Definition floor (x : num) : num :=
  match x with
  | Fin q => Fin (inject_Z (Qfloor q))
  | _ => x
  end.

(** The number of turns of a loop [for (k = 0; k < x; k++)]: none unless [x]
    is positive, and no end ([None]) when [x] is [Infinity]. *)
Definition turns (x : num) : option nat :=
  match x with
  | Fin q => Some (Z.to_nat (Qceiling q))
  | PInf => None
  | _ => Some 0%nat
  end.

End Number.

(* ================================================================== *)
(** ** Binary64 *)

(** The arithmetic of the runtime: the exact result of an operation is
    rounded to the nearest binary64 number, a tie going to the even
    significand; a result of magnitude [2^1024] or more is infinite.  The
    remainder [%] of two binary64 numbers is a binary64 number and is not
    rounded. *)
Module Binary64.

Import Number.

(** The binade of a positive rational: the [e] with [2^e <= q < 2^(e+1)]. *)
Definition binade (q : Q) : Z :=
  let n := Qnum q in
  let d := Zpos (Qden q) in
  let e := (Z.log2 n - Z.log2 d)%Z in
  if (n * 2 ^ Z.max 0 (- e) <? d * 2 ^ Z.max 0 e)%Z then (e - 1)%Z else e.

(** The nearest integer, the even one of the two when they are equally near. *)
Definition nearest_even (x : Q) : Z :=
  let f := Qfloor x in
  match (x - inject_Z f ?= 1 # 2)%Q with
  | Lt => f
  | Gt => (f + 1)%Z
  | Eq => if Z.even f then f else (f + 1)%Z
  end.

(** The binary64 number nearest to a rational: 53 significant bits, and no
    bit below [2^-1074]. *)
Definition round (q : Q) : num :=
  if Qeq_bool q 0 then Fin 0 else
  let a := Qabs q in
  let c := Z.max (binade a - 52) (-1074) in
  let r := (inject_Z (nearest_even (a / 2 ^ c)) * 2 ^ c)%Q in
  if Qle_bool (2 ^ 1024) r
  then (if Qle_bool 0 q then PInf else NInf)
  else Fin (Qred (if Qle_bool 0 q then r else - r)).

Definition rounded (x : num) : num :=
  match x with
  | Fin q => round q
  | _ => x
  end.

(** [x + y], [x - y], [x * y] and [x / y] as the runtime computes them. *)
Definition add (x y : num) : num := rounded (Number.add x y).
Definition sub (x y : num) : num := rounded (Number.sub x y).
Definition mul (x y : num) : num := rounded (Number.mul x y).
Definition div (x y : num) : num := rounded (Number.div x y).

(** A number that rounding leaves as it is. *)
Definition unrounded (x : num) : Prop := rounded x = x.

End Binary64.

(* ================================================================== *)
(** ** Values *)

Import Number.

(** A JavaScript value as the library handles it: [undefined], a number, a
    text label, or an array of values nested to any depth.  The induction
    principle that reaches the elements of an array is [value_ind] below. *)
#[local] Unset Elimination Schemes.
Inductive value : Type :=
| Undef
| Num (n : num)
| Str (s : string)
| Arr (items : list value).
#[local] Set Elimination Schemes.

Definition int (z : Z) : value := Num (of_Z z).

(** An array that may have empty slots, as [Array(n)] builds it: [None] is
    a slot that holds no element. *)
Definition sparse : Type := list (option value).

(** The text conversions of the JavaScript runtime that are no part of the
    repository: printing a number that is not an integer of magnitude up to
    2^53, and reading a number from a text. *)
Class Runtime : Type := {
  NumberToString_other : Q -> string;
  StringToNumber : string -> num
}.

(** A parameter declared with a default, [function f(a = d)]. *)
Definition param (v d : value) : value :=
  match v with
  | Undef => d
  | _ => v
  end.

Definition isArray (v : value) : bool :=
  match v with
  | Arr _ => true
  | _ => false
  end.

(** [a[i]] on an array: [undefined] unless [i] is an index within the array. *)
Definition index (a : list value) (i : num) : value :=
  match to_index i with
  | Some k => nth k a Undef
  | None => Undef
  end.

(** [a.slice(start, end)] with integer arguments: a negative argument counts
    from the end, both are clamped to the array. *)
Definition array_slice (A : Type) (a : list A) (start end_ : Z) : list A :=
  let len := Z.of_nat (List.length a) in
  let k := if (start <? 0)%Z then Z.max (len + start) 0 else Z.min start len in
  let final := if (end_ <? 0)%Z then Z.max (len + end_) 0 else Z.min end_ len in
  firstn (Z.to_nat (Z.max (final - k) 0)) (skipn (Z.to_nat k) a).

(** [Array(n)]: [n] empty slots, or a RangeError ([None]) when [n] is no
    valid array length. *)
Definition new_Array (n : Z) : option sparse :=
  if ((0 <=? n)%Z && (n <? 2 ^ 32)%Z)%bool
  then Some (repeat None (Z.to_nat n)) else None.

(** [a.flatMap(f)]: the callback runs on the slots that hold an element, and
    an array it returns is spliced into the result. *)
Definition flatMap (f : value -> value) (a : sparse) : list value :=
  flat_map (fun slot =>
              match slot with
              | None => []
              | Some v => match f v with
                          | Arr l => l
                          | x => [x]
                          end
              end) a.

(** [Array.from(x)] on a defined value: a copy of an array, the characters
    of a text, nothing for a number. *)
Definition Array_from (x : value) : list value :=
  match x with
  | Arr l => l
  | Str s => map (fun c => Str (String c EmptyString)) (list_ascii_of_string s)
  | _ => []
  end.

Section Conversions.
Context {rt : Runtime}.

(** Number::toString: an integer of magnitude up to [2^53] prints its
    digits; any other number is printed by the runtime. *)
Definition NumberToString (n : num) : string :=
  match n with
  | NaN => "NaN"
  | PInf => "Infinity"
  | NInf => "-Infinity"
  | Fin q =>
      let r := Qred q in
      if (Pos.eqb (Qden r) 1 && (Z.abs (Qnum r) <=? 2 ^ 53)%Z)%bool
      then NilEmpty.string_of_int (Z.to_int (Qnum r))
      else NumberToString_other q
  end%string.

(** ToString; an array prints its elements separated by commas, an
    [undefined] element printing as the empty text. *)
Fixpoint ToString (v : value) : string :=
  match v with
  | Undef => "undefined"
  | Num n => NumberToString n
  | Str s => s
  | Arr l =>
      String.concat ","
        (map (fun x => match x with
                       | Undef => EmptyString
                       | _ => ToString x
                       end) l)
  end%string.

(** ToPrimitive: an array becomes its text. *)
Definition ToPrimitive (v : value) : value :=
  match v with
  | Arr _ => Str (ToString v)
  | _ => v
  end.

(** ToNumber. *)
Definition ToNumber (v : value) : num :=
  match v with
  | Undef => NaN
  | Num n => n
  | Str s => StringToNumber s
  | Arr _ => StringToNumber (ToString v)
  end.

(** The operator [a + b]: concatenation as soon as one operand is a text
    (or an array), addition of numbers otherwise. *)
Definition js_plus (a b : value) : value :=
  match ToPrimitive a, ToPrimitive b with
  | Str s, pb => Str (s ++ ToString pb)
  | pa, Str t => Str (ToString pa ++ t)
  | pa, pb => Num (add (ToNumber pa) (ToNumber pb))
  end.

(** The operators [a - b], [a * b], [a / b] and [a % b]. *)
Definition js_minus (a b : value) : value := Num (sub (ToNumber a) (ToNumber b)).
Definition js_times (a b : value) : value := Num (mul (ToNumber a) (ToNumber b)).
Definition js_divide (a b : value) : value := Num (div (ToNumber a) (ToNumber b)).
Definition js_rem (a b : value) : value := Num (rem (ToNumber a) (ToNumber b)).

(** Truthiness, as the conditional operator tests it. *)
Definition ToBoolean (v : value) : bool :=
  match v with
  | Undef => false
  | Num n => truthy n
  | Str s => negb (String.eqb s EmptyString)
  | Arr _ => true
  end.

(** [Math.min(...args)] and [Math.max(...args)]. *)
Definition Math_min (args : list value) : num :=
  fold_left (fun acc v => Number.min acc (ToNumber v)) args PInf.

Definition Math_max (args : list value) : num :=
  fold_left (fun acc v => Number.max acc (ToNumber v)) args NInf.

(** The global [isNaN(v)]. *)
Definition isNaN (v : value) : bool :=
  match ToNumber v with
  | NaN => true
  | _ => false
  end.

(** [typeof v] on the values of the model. *)
Definition typeof (v : value) : string :=
  match v with
  | Undef => "undefined"
  | Num _ => "number"
  | Str _ => "string"
  | Arr _ => "object"
  end.

End Conversions.

(** The comparison SameValueZero of [Set] and of [Array.prototype.includes]:
    [NaN] is the same as [NaN].  An array is the same as itself only, and
    two arrays met at different places are taken to be different objects. *)
Definition SameValueZero (x y : value) : bool :=
  match x, y with
  | Undef, Undef => true
  | Num (Fin p), Num (Fin q) => Qeq_bool p q
  | Num NaN, Num NaN => true
  | Num PInf, Num PInf => true
  | Num NInf, Num NInf => true
  | Str s, Str t => String.eqb s t
  | _, _ => false
  end.

(** [l.includes(v)]. *)
Definition includes (l : list value) (v : value) : bool :=
  existsb (fun x => SameValueZero x v) l.

(** [set.add(v)] on the elements of a [Set], in the order of insertion. *)
Definition Set_add (set : list value) (v : value) : list value :=
  if includes set v then set else set ++ [v].

(** [[...new Set(l)]]: the elements in the order of their first insertion. *)
Definition Set_spread (l : list value) : list value :=
  fold_left Set_add l [].

(** [Array(x)] called with one argument: a number asks for that many empty
    slots, and is a RangeError ([None]) unless it is an integer from 0 to
    2^32 - 1; any other value becomes the only element. *)
Definition Array_1 (x : value) : option sparse :=
  match x with
  | Num (Fin q) =>
      if Qeq_bool (inject_Z (Qfloor q)) q then new_Array (Qfloor q) else None
  | Num _ => None
  | v => Some [Some v]
  end.

(* ================================================================== *)
(** ** utility.ts: the Utility functions *)

Module Util.

(** [toArray(a)]: [Array.isArray(a) ? a : [a]]. *)
Definition toArray (a : value) : list value :=
  match a with
  | Arr l => l
  | _ => [a]
  end.

(** [fromArray(a, i)]: [Array.isArray(a) ? a[i] : a]. *)
Definition fromArray (a : value) (i : num) : value :=
  match a with
  | Arr l => index l i
  | _ => a
  end.

(** [length(input)]: the length of an array, and 1 for anything else. *)
Definition length (input : value) : nat :=
  match input with
  | Arr l => List.length l
  | _ => 1
  end.

(** The declared type of the first parameter of [wrap]: [number | number[]]. *)
Inductive numbers : Type :=
| One (x : num)
| Many (xs : list num).

(** [_wrap(value, lo, hi)], in exact arithmetic. *)
Definition _wrap (value lo hi : num) : num :=
  let range := sub hi lo in
  add (rem (add (rem (sub value lo) range) range) range) lo.

(** [wrap(input, lo, hi)]. *)
Definition wrap (input : numbers) (lo hi : num) : numbers :=
  let '(lo, hi) := if gtb lo hi then (hi, lo) else (lo, hi) in
  match input with
  | One x => One (_wrap x lo hi)
  | Many xs => Many (map (fun value => _wrap value lo hi) xs)
  end.

(** [constrain(input, lo, hi)]. *)
Definition constrain (input : numbers) (lo hi : num) : numbers :=
  let '(lo, hi) := if gtb lo hi then (hi, lo) else (lo, hi) in
  match input with
  | One x => One (Number.min hi (Number.max lo x))
  | Many xs => Many (map (fun value => Number.min hi (Number.max lo value)) xs)
  end.

(** [arrayCalc(a, b, operation)].  With an array on the right the operation
    is applied to the paired elements themselves; with a scalar on the right
    and an array on the left the function maps itself over the left array. *)
Fixpoint arrayCalc (a b : value) (operation : value -> value -> value)
  {struct a} : value :=
  match b with
  | Arr right_ =>
      let left_ := toArray a in
      let length := Nat.max (List.length left_) (List.length right_) in
      Arr (map (fun i =>
                  operation
                    (fromArray (Arr left_)
                       (rem (of_nat i) (of_nat (List.length left_))))
                    (fromArray (Arr right_)
                       (rem (of_nat i) (of_nat (List.length right_)))))
             (seq 0 length))
  | _ =>
      match a with
      | Arr left_ => Arr (map (fun x => arrayCalc x b operation) left_)
      | _ => operation a b
      end
  end.

(** [Array.prototype.flat(depth)] for a finite depth. *)
Fixpoint flat (depth : nat) (a : list value) : list value :=
  flat_map (fun x =>
              match x, depth with
              | Arr l, S d => flat d l
              | _, _ => [x]
              end) a.

(** [Array.prototype.flat(Infinity)]. *)
Fixpoint flat_all (v : value) : list value :=
  match v with
  | Arr l => flat_map flat_all l
  | _ => [v]
  end.

(** [flatten(a, depth)]; [None] is the default depth, [Infinity]. *)
Definition flatten (a : value) (depth : option nat) : list value :=
  let a := param a (Arr [int 0]) in
  match depth with
  | Some d => flat d (toArray a)
  | None => flat_map flat_all (toArray a)
  end.

(** [unique(a)] on an array; [acc.concat(val)] splices an array [val] and
    appends any other value. *)
Definition unique (a : list value) : list value :=
  let a :=
    fold_left (fun acc val => acc ++ match val with
                                     | Arr l => l
                                     | _ => [val]
                                     end) a [] in
  Set_spread (toArray (Arr a)).

Section WithRuntime.
Context {rt : Runtime}.

(** [lerp(a, b, f)]. *)
Definition lerp (a b : value) (f : num) : value :=
  let a := param a (int 0) in
  let b := param b (int 0) in
  arrayCalc a b
    (fun a b => js_plus (js_times a (js_minus (int 1) (Num f)))
                        (js_times b (Num f))).

(** [add], [subtract], [multiply], [divide], [mod]. *)
Definition add (a b : value) : value :=
  arrayCalc (param a (int 0)) (param b (int 0)) (fun a b => js_plus a b).

Definition subtract (a b : value) : value :=
  arrayCalc (param a (int 0)) (param b (int 0)) (fun a b => js_minus a b).

Definition multiply (a b : value) : value :=
  arrayCalc (param a (int 0)) (param b (int 1)) (fun a b => js_times a b).

Definition divide (a b : value) : value :=
  arrayCalc (param a (int 0)) (param b (int 1)) (fun a b => js_divide a b).

Definition mod_ (a b : value) : value :=
  arrayCalc (param a (int 0)) (param b (int 12))
    (fun a b => js_rem (js_plus (js_rem a b) b) b).

(** [maximum(a)] and [minimum(a)]. *)
Definition maximum (a : value) : value :=
  let a := param a (Arr [int 0]) in
  if negb (isArray a) then a else Num (Math_max (flatten a None)).

Definition minimum (a : value) : value :=
  let a := param a (Arr [int 0]) in
  if negb (isArray a) then a else Num (Math_min (flatten a None)).

(** [normalize(a)]. *)
Definition normalize (a : value) : value :=
  let a := param a (Arr [int 0]) in
  let a := if negb (isArray a) then Arr (toArray a) else a in
  let min := minimum a in
  let range := js_minus (maximum a) min in
  let normalizedRange := if ToBoolean range then range else int 0 in
  divide (subtract a min) normalizedRange.

(** [signedNormalize(a)]. *)
Definition signedNormalize (a : value) : value :=
  let a := param a (Arr [int 0]) in
  subtract (multiply (normalize a) (int 2)) (int 1).

(** [sum(a)]: [s += isNaN(v) ? 0 : v] over the flattened array. *)
Definition sum (a : value) : value :=
  let a := param a (Arr [int 0]) in
  fold_left (fun s v => js_plus s (if isNaN v then int 0 else v))
    (flatten (Arr (toArray a)) None) (int 0).

End WithRuntime.

End Util.

(* ================================================================== *)
(** ** wrap, rotate and split on the numbers of the runtime *)

(** [wrap], [rotate] and [split], line by line from the source, with the
    arithmetic of [Binary64] and with any number as the step of [rotate]
    and as a size of [split]. *)
Module Float.

Import Util.

(** [_wrap(value, lo, hi)]. *)
Definition _wrap (value lo hi : num) : num :=
  let range := Binary64.sub hi lo in
  Binary64.add
    (rem (Binary64.add (rem (Binary64.sub value lo) range) range) range) lo.

(** [wrap(input, lo, hi)]. *)
Definition wrap (input : numbers) (lo hi : num) : numbers :=
  let '(lo, hi) := if gtb lo hi then (hi, lo) else (lo, hi) in
  match input with
  | One x => One (_wrap x lo hi)
  | Many xs => Many (map (fun value => _wrap value lo hi) xs)
  end.

(** The loop of [rotate]: [arr[i] = a[((i - r) % l + l) % l]].  A read at
    what is no index of the array gives [undefined]. *)
Definition rotate_items (A : Type) (undefined : A) (a : list A) (r : num)
  : list A :=
  let l := of_nat (List.length a) in
  map (fun i =>
         match to_index
                 (rem (Binary64.add (rem (Binary64.sub (of_nat i) r) l) l) l)
         with
         | Some k => nth k a undefined
         | None => undefined
         end)
    (seq 0 (List.length a)).

(** [rotate(a, r)]. *)
Definition rotate (a : value) (r : num) : value :=
  match param a (Arr [int 0]) with
  | Arr l => Arr (rotate_items Undef l r)
  | a => Arr [a]
  end.

(** The integer that [a.slice] makes of an argument: the number truncated,
    0 for [NaN]; an infinity is clamped to the length [len] of the array. *)
Definition slice_argument (len : nat) (x : num) : Z :=
  match x with
  | Fin q => Qtrunc q
  | NaN => 0%Z
  | PInf => Z.of_nat len
  | NInf => (- Z.of_nat len)%Z
  end.

(** [_split(a, s)], the recursive call to [split] being the first argument.
    The sizes are numbers; a size that is missing compares like [NaN]. *)
Definition _split (split : value -> list num -> option (list (list value)))
  (a : list value) (s : list num) : option (list (list value)) :=
  let next := split (Arr a) (rotate_items NaN s (of_Z (-1))) in
  match hd_error s with
  | Some s0 =>
      if gtb s0 (of_Z 0) then
        let arr := array_slice a 0 (slice_argument (List.length a) s0) in
        let res :=
          array_slice a (slice_argument (List.length a) s0)
            (Z.of_nat (List.length a)) in
        if (List.length res <? 1)%nat then Some [arr]
        else option_map (cons arr)
               (split (Arr res) (rotate_items NaN s (of_Z (-1))))
      else next
  | None => next
  end.

(** [split(a, s)]; [fuel] bounds the number of calls and [None] means it
    ran out. *)
Fixpoint split (fuel : nat) (a : value) (s : list num)
  : option (list (list value)) :=
  match fuel with
  | O => None
  | S fuel => _split (split fuel) (toArray (param a (Arr [int 0]))) s
  end.

End Float.

(* ================================================================== *)
(** ** utility.ts, second part: the Transform functions *)

Module Transform.

Import Util.

(** [duplicate(arr, duplicates)]: [None] is the RangeError of [Array(n)]. *)
Definition duplicate (arr : value) (duplicates : Z) : option value :=
  let arr := param arr (Arr [int 0]) in
  match new_Array (Z.max 1 duplicates) with
  | Some slots => Some (Arr (flatMap (fun value => Arr (Array_from arr)) slots))
  | None => None
  end.

(** [palindrome(arr, noDouble)]. *)
Definition palindrome (arr : value) (noDouble : bool) : value :=
  match arr with
  | Undef => Arr [int 0]
  | Arr l =>
      let rev := List.rev l in
      let rev :=
        if noDouble
        then array_slice rev 1 (Z.of_nat (List.length rev) - 1)
        else rev in
      Arr (l ++ rev)
  | _ => Arr [arr]
  end.

(** [reverse(a)]. *)
Definition reverse (a : value) : value :=
  match param a (Arr [int 0]) with
  | Arr l => Arr (List.rev l)
  | a => Arr [a]
  end.

(** The loop of [rotate] on the elements of an array, for an integer [r]
    and in exact arithmetic: [arr[i] = a[((i - r) % l + l) % l]].  Every
    read is inside the array ([rotate_read_in_range]), so the default of
    [nth] is never returned. *)
Definition rotate_items (A : Type) (a : list A) (r : Z) : list A :=
  match a with
  | [] => []
  | d :: _ =>
      let l := Z.of_nat (List.length a) in
      map (fun i =>
             nth (Z.to_nat (Z.rem (Z.rem (Z.of_nat i - r) l + l) l)) a d)
        (seq 0 (List.length a))
  end.

(** [rotate(a, r)]. *)
Definition rotate (a : value) (r : Z) : value :=
  match param a (Arr [int 0]) with
  | Arr l => Arr (rotate_items l r)
  | a => Arr [a]
  end.

(** One turn of the loop of [slice]: the chunks pushed so far and the
    running start [_s]. *)
Definition slice_step (a : list value) (st : list (list value) * Z) (si : Z)
  : list (list value) * Z :=
  let '(arr, _s) := st in
  if (0 <? si)%Z
  then let _t := (_s + si)%Z in (arr ++ [array_slice a _s _t], _t)
  else st.

(** [slice(a, s, r)], [s] being the array of sizes. *)
Definition slice (a : value) (s : list Z) (r : bool) : list (list value) :=
  let a := toArray (param a (Arr [int 0])) in
  let '(arr, _s) := fold_left (slice_step a) s ([], 0%Z) in
  if r then
    let rest := array_slice a _s (Z.of_nat (List.length a)) in
    if (0 <? List.length rest)%nat then arr ++ [rest] else arr
  else arr.

(** [_split(a, s)] on integer sizes, the recursive call to [split] being
    the first argument. *)
Definition _split (split : value -> list Z -> option (list (list value)))
  (a : list value) (s : list Z) : option (list (list value)) :=
  let next := split (Arr a) (rotate_items s (-1)) in
  match hd_error s with
  | Some s0 =>
      if (0 <? s0)%Z then
        let arr := array_slice a 0 s0 in
        let res := array_slice a s0 (Z.of_nat (List.length a)) in
        if (List.length res <? 1)%nat then Some [arr]
        else option_map (cons arr) (split (Arr res) (rotate_items s (-1)))
      else next
  | None => next
  end.

(** [split(a, s)]; the recursion of the source is not structural, [fuel]
    bounds the number of calls and [None] means it ran out. *)
Fixpoint split (fuel : nat) (a : value) (s : list Z)
  : option (list (list value)) :=
  match fuel with
  | O => None
  | S fuel => _split (split fuel) (toArray (param a (Arr [int 0]))) s
  end.

(** The length of the longest array, as the first loop of [lace] and of
    [merge] computes it. *)
Definition longest (arrs : list (list value)) : nat :=
  fold_left (fun l a => Nat.max (List.length a) l) arrs 0%nat.

(** [lace(...arrs)]. *)
Definition lace (arrs : list value) : value :=
  if (List.length arrs =? 0)%nat then Arr [int 0] else
  let arrs := map toArray arrs in
  let l := longest arrs in
  Arr (flat_map (fun i =>
                   flat_map (fun a =>
                               match nth i a Undef with
                               | Undef => []
                               | v => [v]
                               end) arrs)
         (seq 0 l)).

(** [merge(...arrs)]. *)
Definition merge (arrs : list value) : value :=
  if (List.length arrs =? 0)%nat then Arr [int 0] else
  let arrs := map toArray arrs in
  let l := longest arrs in
  Arr (map (fun i =>
              Arr (flat_map (fun a =>
                               match nth i a Undef with
                               | Undef => []
                               | Arr v => v
                               | v => [v]
                               end) arrs))
         (seq 0 l)).

(** [Array.prototype.fill(v)]: every slot, empty or not, holds [v]. *)
Definition fill (slots : sparse) (v : value) : list value :=
  map (fun _ => v) slots.

(** [padding(a, length, pad, shift)] on an array [a]; [None] is the
    RangeError of [Array(length - a.length)]. *)
Definition padding (a : list value) (length : Z) (pad : value) (shift : num)
  : option value :=
  match new_Array (length - Z.of_nat (List.length a)) with
  | Some slots => Some (Float.rotate (Arr (a ++ fill slots pad)) shift)
  | None => None
  end.

(** [every(a, bars, div, pad, shift)]: the two products are rounded before
    [Math.floor]; with a length that is [NaN] or infinite,
    [Array(length - a.length)] is a RangeError. *)
Definition every (a : list value) (bars div : num) (pad : value) (shift : num)
  : option value :=
  let len := Number.floor (Binary64.mul bars div) in
  let sft := Number.floor (Binary64.mul shift div) in
  match len with
  | Fin len => padding a (Qfloor len) pad sft
  | _ => None
  end.

(** [array.findIndex(p)]; [None] is the result -1. *)
Fixpoint findIndex (p : value -> bool) (a : list value) : option nat :=
  match a with
  | [] => None
  | x :: rest => if p x then Some 0%nat else option_map S (findIndex p rest)
  end.

(** What [array.splice(index, 1)] leaves in the array. *)
Definition splice1 (a : list value) (index : nat) : list value :=
  firstn index a ++ skipn (S index) a.

(** The [while] loop of [filterType] for one type, on the pair of the
    working copy and the result; [fuel] bounds the number of turns. *)
Fixpoint take_type (fuel : nat) (type : string)
  (st : list value * list value) : option (list value * list value) :=
  let '(array, filteredArray) := st in
  match findIndex (fun value => String.eqb (typeof value) type) array with
  | None => Some st
  | Some index =>
      match fuel with
      | O => None
      | S fuel =>
          take_type fuel type
            (splice1 array index, filteredArray ++ [nth index array Undef])
      end
  end.

(** [filterType(a, t)], [t] being the array of type names. *)
Definition filterType (fuel : nat) (a : value) (t : list string)
  : option value :=
  let array := toArray (param a (Arr [int 0])) in
  option_map (fun st => Arr (snd st))
    (fold_left (fun st type =>
                  match st with
                  | Some st => take_type fuel type st
                  | None => None
                  end) t (Some (array, []))).

(** [filter(a, f)], [f] being an array. *)
Definition filter (a : value) (f : list value) : list value :=
  let a := param a (Arr []) in
  let arr := if isArray a then toArray a else [a] in
  List.filter (fun value => negb (includes f value)) arr.

(** The exceptions that [clone] throws. *)
Inductive thrown : Type := RangeError | TypeError.

(** Modelled from the spec: the type [InterpolationMode], which the source
    imports and no file of the sources declares; its four modes are the ones
    that the spec and the documentation of [stretch] name. *)
Inductive InterpolationMode : Type := none | linear | cosine | cubic.

(** A call that passes one more argument than the three parameters the
    function declares: the surplus argument is never read. *)
Definition call3_surplus (A B C D E : Type) (f : A -> B -> C -> D)
  (a : A) (b : B) (c : C) (surplus : E) : D := f a b c.

Section WithRuntime.
Context {rt : Runtime}.

(** [stretch(a, len, mode)]. *)
Definition stretch (a : value) (len : num) (mode : InterpolationMode) : value :=
  let a := toArray (param a (Arr [int 0])) in
  if Number.ltb len (of_Z 2) then Arr a else
  let len := length (Num len) in
  let l := List.length a in
  Arr (map (fun i =>
              let val :=
                Number.mul
                  (Number.div (of_nat i) (Number.sub (of_nat len) (of_Z 1)))
                  (Number.sub (of_nat l) (of_Z 1)) in
              let a0 := index a (Number.max (Number.trunc val) (of_Z 0)) in
              let a1 :=
                index a
                  (Number.rem
                     (Number.min (Number.add (Number.trunc val) (of_Z 1))
                                 (Number.sub (of_nat l) (of_Z 1)))
                     (of_nat (List.length a))) in
              call3_surplus lerp a0 a1 (Number.rem val (of_Z 1)) mode)
         (seq 0 len)).

(** The upper bound of [invert] when [lo] is given: [lo] again when no [hi]
    is given. *)
Definition invert_hi (lo hi : value) : value :=
  match hi with
  | Undef => lo
  | _ => hi
  end.

(** [invert(a, lo, hi)] when [lo] is given, as it is in every recursive
    call; the first case is an array, the second a scalar or the default
    [[0]], whose single element is no array. *)
Fixpoint invert_from (a lo hi : value) {struct a} : value :=
  let hi := invert_hi lo hi in
  match a with
  | Arr items =>
      Arr (map (fun v =>
                  match v with
                  | Arr _ => invert_from v lo hi
                  | _ => js_plus (js_minus hi v) lo
                  end) items)
  | _ =>
      let items := toArray (param a (Arr [int 0])) in
      Arr (map (fun v => js_plus (js_minus hi v) lo) items)
  end.

(** [invert(a, lo, hi)].  With no [lo] the function calls [maximum] and
    [minimum]: the Transform part of the file imports the two names from
    the Utility part, which declares both functions without exporting them,
    so that no function is there to call and the call throws a
    TypeError. *)
Definition invert (a lo hi : value) : thrown + value :=
  match lo with
  | Undef => inl TypeError
  | _ => inr (invert_from a lo hi)
  end.

(** [lookup(idx, arr)]; the first case is an array of indices, the second a
    scalar or the default [[0]]. *)
Fixpoint lookup (idx arr : value) {struct idx} : value :=
  let arr := toArray (param arr (Arr [int 0])) in
  let len := of_nat (List.length arr) in
  let item := fun v =>
    if negb (isNaN v) then
      let look :=
        Number.rem (Number.add (Number.rem (Number.floor (ToNumber v)) len) len)
          len in
      [index arr look]
    else [] in
  match idx with
  | Arr items =>
      Arr (flat_map (fun v =>
                       match v with
                       | Arr _ => [lookup v (Arr arr)]
                       | _ => item v
                       end) items)
  | _ => Arr (flat_map item (toArray (param idx (Arr [int 0]))))
  end.

(** [repeat(arr, rep)]; [None] when a count is [Infinity] and the inner loop
    has no end. *)
Definition repeat (arr rep : value) : option value :=
  let arr := toArray (param arr (Arr [int 0])) in
  let rep := toArray (param rep (int 1)) in
  option_map Arr
    (fold_left
       (fun a i =>
          let r := index rep (Number.rem (of_nat i) (of_nat (List.length rep))) in
          let r := if (isNaN r || Number.ltb (ToNumber r) (of_Z 0))%bool
                   then int 0 else r in
          match a, turns (ToNumber r) with
          | Some a, Some n => Some (a ++ List.repeat (nth i arr Undef) n)
          | _, _ => None
          end)
       (seq 0 (List.length arr)) (Some [])).

(** [spray(values, beats)]: the result starts as a copy of [beats], and turn
    [i] of the loop writes position [i] only; [c] counts the values used. *)
Definition spray (values beats : value) : value :=
  let values := toArray (param values (Arr [int 0])) in
  let beats := toArray (param beats (Arr [int 0])) in
  Arr (fst (fold_left
              (fun '(arr, c) b =>
                 if Number.gtb (ToNumber b) (of_Z 0)
                 then (arr ++ [index values
                                 (Number.rem (of_nat c)
                                    (of_nat (List.length values)))], S c)
                 else (arr ++ [b], c))
              beats ([], 0%nat))).

(** [clone(a, ...clones)] on an array [a].  [Array(offset)] throws the
    RangeError; [values.map] throws the TypeError when [values] is no array,
    as it has no method [map] then. *)
Definition clone (a : list value) (clones : list value)
  : thrown + list value :=
  let offsetArray :=
    fold_left (fun acc offset =>
                 match acc, Array_1 offset with
                 | Some acc, Some slots =>
                     Some (acc ++ flat 1 (fill slots (Arr a)))
                 | _, _ => None
                 end) (toArray (Arr clones)) (Some []) in
  match offsetArray with
  | None => inl RangeError
  | Some offsetArray =>
      fold_left
        (fun acc values =>
           match acc, values with
           | inr acc, Arr values =>
               inr (acc ++
                    map (fun '(value, index_) =>
                           let c := index clones (of_nat index_) in
                           if String.eqb (typeof c) "string"
                           then Str (ToString value ++ ToString c)
                           else add value c)
                        (combine values (seq 0 (List.length values))))
           | inr _, _ => inl TypeError
           | inl e, _ => inl e
           end) (Arr a :: offsetArray) (inr [])
  end.

End WithRuntime.

End Transform.

(* ================================================================== *)
(** ** Reference definitions *)

(** The chunking that cycles through the sizes: a chunk of the next size is
    cut as long as that many elements remain, the sizes being taken
    cyclically from position [i]; a shorter tail is kept as a last chunk
    when [keepRest] is set. *)
Fixpoint cut_cyclic (fuel : nat) (a : list value) (i : nat) (sizes : list Z)
  (keepRest : bool) : list (list value) :=
  match fuel, a with
  | O, _ | _, [] => []
  | S fuel, _ =>
      let n := Z.to_nat (nth (i mod List.length sizes) sizes 0%Z) in
      if (n <=? List.length a)%nat
      then firstn n a :: cut_cyclic fuel (skipn n a) (S i) sizes keepRest
      else if keepRest then [a] else []
  end.

Definition slice_cycling (a : value) (sizes : list Z) (keepRest : bool)
  : list (list value) :=
  let a := Util.toArray a in
  cut_cyclic (S (List.length a)) a 0 sizes keepRest.

(** The chunks cut from [a] one after the other from position [start], one
    for each size of the list. *)
Fixpoint segments (a : list value) (start : Z) (sizes : list Z)
  : list (list value) :=
  match sizes with
  | [] => []
  | n :: rest => array_slice a start (start + n) :: segments a (start + n) rest
  end.

(** The non-negative remainder of [y] by a positive [r]. *)
Definition Qemod (y r : Q) : Q := (y - r * inject_Z (Qfloor (y / r)))%Q.


(** [f] applied to every number of a nested array. *)
Fixpoint map_numbers (f : num -> num) (v : value) : value :=
  match v with
  | Num n => Num (f n)
  | Arr l => Arr (map (map_numbers f) l)
  | _ => v
  end.

(** The finite numbers among a list of values. *)
Definition finite_leaf (v : value) : Prop := exists q : Q, v = Num (Fin q).

(** A flat array of numbers. *)
Definition nums (xs : list num) : value := Arr (map Num xs).

(** A number with its fraction in lowest terms, the form in which the
    arithmetic of the model returns every finite number. *)
Definition reduce (n : num) : num :=
  match n with
  | Fin q => Fin (Qred q)
  | _ => n
  end.

(** A nested array all of whose numbers are in lowest terms. *)
Definition in_lowest_terms (v : value) : Prop := map_numbers reduce v = v.

(** The sum of the finite numbers of a list of values. *)
Definition finite_total (vs : list value) : Q :=
  fold_right (fun v t => match v with
                         | Num (Fin q) => (q + t)%Q
                         | _ => t
                         end) 0%Q vs.

(** A leaf that [sum] adds or skips as a number: a finite number, [NaN] or
    [undefined]. *)
Definition finite_or_missing (v : value) : Prop :=
  (exists q, v = Num (Fin q)) \/ v = Num NaN \/ v = Undef.

(** A finite number between [lo] and [hi]. *)
Definition number_between (lo hi : Q) (v : value) : Prop :=
  exists y, v = Num (Fin y) /\ (lo <= y)%Q /\ (y <= hi)%Q.

(** The depth of nesting of a value: 0 for a scalar, one more than its
    deepest element for an array. *)
Fixpoint nesting (v : value) : nat :=
  match v with
  | Arr l => S (fold_right (fun x m => Nat.max (nesting x) m) 0%nat l)
  | _ => 0%nat
  end.

(** The values of the listed types, type after type in the order of the
    list, each group in the order of the array; a value is taken once. *)
Fixpoint grouped (a : list value) (types : list string) : list value :=
  match types with
  | [] => []
  | t :: ts =>
      filter (fun v => String.eqb (typeof v) t) a
      ++ grouped (filter (fun v => negb (String.eqb (typeof v) t)) a) ts
  end.

(** The pieces of [l] of the given sizes, one after the other. *)
Fixpoint pieces (l : list value) (sizes : list Z) : list (list value) :=
  match sizes with
  | [] => []
  | n :: rest =>
      firstn (Z.to_nat n) l :: pieces (skipn (Z.to_nat n) l) rest
  end.

(** A size that cuts at least one element: a number that is 1 or more. *)
Definition at_least_one (x : num) : bool :=
  match x with
  | Fin q => Qle_bool 1 q
  | PInf => true
  | _ => false
  end.

(** A size that is not strictly between 0 and 1. *)
Definition no_fraction_below_one (x : num) : Prop :=
  gtb x (of_Z 0) = true -> at_least_one x = true.



(** A leaf that is an integer with the property [P]. *)
Definition integer_leaf (P : Z -> Prop) (v : value) : Prop :=
  exists z : Z, v = int z /\ P z.

(** A leaf that [sum] adds as an integer, or skips. *)
Definition integer_or_missing (v : value) : Prop :=
  (exists z : Z, v = int z) \/ v = Num NaN \/ v = Undef.

(** The sum of the magnitudes of the finite numbers of a list of values. *)
Definition finite_magnitude (vs : list value) : Q :=
  fold_right (fun v t => match v with
                         | Num (Fin q) => (Qabs q + t)%Q
                         | _ => t
                         end) 0%Q vs.

(** A runtime whose two conversions are constant; they are never consulted
    on integer data. *)
Definition constant_runtime : Runtime :=
  {| NumberToString_other := fun _ => EmptyString;
     StringToNumber := fun _ => NaN |}.

(** Sum of a list of sizes. *)
Definition total (s : list Z) : Z := fold_right Z.add 0%Z s.

(** The strictly positive entries of a list of sizes. *)
Definition positives (s : list Z) : list Z := filter (fun z => (0 <? z)%Z) s.

(** [op] applied to every leaf of a nested array. *)
Fixpoint deep_map (op : value -> value) (v : value) : value :=
  match v with
  | Arr l => Arr (map (deep_map op) l)
  | _ => op v
  end.

(** A nested array whose leaves are all finite numbers. *)
Fixpoint numeric (v : value) : bool :=
  match v with
  | Num (Fin _) => true
  | Arr l => forallb numeric l
  | _ => false
  end.

(** A bare scalar: a number or a text label. *)
Definition scalar (v : value) : bool :=
  match v with
  | Num _ | Str _ => true
  | _ => false
  end.

(* ================================================================== *)
(** ** Induction on values *)

Lemma value_ind (P : value -> Prop) :
  P Undef ->
  (forall n, P (Num n)) ->
  (forall s, P (Str s)) ->
  (forall l, Forall P l -> P (Arr l)) ->
  forall v, P v.
Proof.
  intros HU HN HS HA.
  fix IH 1.
  intros [ | n | s | l ].
  - exact HU.
  - apply HN.
  - apply HS.
  - apply HA. induction l as [ | x l IHl ].
    + constructor.
    + constructor; [ apply IH | exact IHl ].
Qed.

(* ================================================================== *)
(** ** Numbers: integers stay integers *)

Lemma Qred_inject_Z (z : Z) : Qred (inject_Z z) = inject_Z z.
Proof.
  apply Qcanon.Qred_identity. simpl. apply Z.gcd_1_r.
Qed.

Lemma Qtrunc_inject_Z_div (a : Z) (p : positive) :
  Qtrunc (inject_Z a / inject_Z (Z.pos p)) = Z.quot a (Z.pos p).
Proof.
  unfold Qtrunc, Qceiling, Qfloor, Qle_bool, Qdiv, Qinv, Qmult, Qopp, inject_Z.
  cbn [Qnum Qden]. rewrite !Z.mul_1_r, Pos.mul_1_l. change (0 * Z.pos p)%Z with 0%Z.
  destruct (Z.leb_spec 0 a) as [Ha | Ha].
  - symmetry. apply Z.quot_div_nonneg; lia.
  - rewrite <- (Z.quot_div_nonneg (- a) (Z.pos p)) by lia.
    rewrite Z.quot_opp_l by lia. lia.
Qed.

Lemma Qrem_inject_Z (a : Z) (p : positive) :
  (Qrem (inject_Z a) (inject_Z (Z.pos p)) == inject_Z (Z.rem a (Z.pos p)))%Q.
Proof.
  unfold Qrem. rewrite Qtrunc_inject_Z_div.
  rewrite <- inject_Z_mult. unfold Qminus. rewrite <- inject_Z_opp, <- inject_Z_plus.
  assert (E : (a + - (Z.pos p * (a ÷ Z.pos p)) = Z.rem a (Z.pos p))%Z).
  { pose proof (Z.quot_rem' a (Z.pos p)). lia. }
  now rewrite E.
Qed.

Lemma rem_of_nat (i n : nat) :
  n <> 0%nat -> rem (of_nat i) (of_nat n) = of_nat (i mod n).
Proof.
  intros Hn. unfold of_nat, of_Z, rem.
  destruct (Z.of_nat n) as [ | p | p ] eqn:En; try lia.
  replace (Qeq_bool (inject_Z (Z.pos p)) 0) with false by reflexivity.
  f_equal.
  rewrite (Qred_complete _ _ (Qrem_inject_Z _ p)), Qred_inject_Z.
  f_equal. rewrite Nat2Z.inj_mod, En.
  apply Z.rem_mod_nonneg; lia.
Qed.

Lemma rem_of_nat_zero (i : nat) : rem (of_nat i) (of_nat 0) = NaN.
Proof. reflexivity. Qed.

Lemma to_index_of_nat (k : nat) : to_index (of_nat k) = Some k.
Proof.
  unfold to_index, of_nat, of_Z. rewrite Qred_inject_Z. simpl.
  destruct (Z.leb_spec 0 (Z.of_nat k)); [ | lia ].
  now rewrite Nat2Z.id.
Qed.

Lemma index_of_nat (l : list value) (k : nat) :
  index l (of_nat k) = nth k l Undef.
Proof. unfold index. now rewrite to_index_of_nat. Qed.

(* ================================================================== *)
(** ** The broadcasting engine *)

Lemma nth_map_seq (A : Type) (f : nat -> A) (n i : nat) (d : A) :
  (i < n)%nat -> nth i (map f (seq 0 n)) d = f i.
Proof.
  intros Hi.
  rewrite (nth_indep _ d (f 0%nat)) by now rewrite length_map, length_seq.
  rewrite map_nth. now rewrite seq_nth.
Qed.

Lemma fromArray_cycle (l : list value) (i : nat) :
  l <> [] ->
  Util.fromArray (Arr l) (rem (of_nat i) (of_nat (List.length l)))
  = nth (i mod List.length l) l Undef.
Proof.
  intros Hl. unfold Util.fromArray.
  rewrite rem_of_nat by (destruct l; [ congruence | discriminate ]).
  apply index_of_nat.
Qed.

Lemma fromArray_empty (i : nat) :
  Util.fromArray (Arr []) (rem (of_nat i) (of_nat 0)) = Undef.
Proof. reflexivity. Qed.

(** With an empty array on the left the index is [i % 0], which is [NaN],
    and the read gives [undefined]: the operation is applied to [undefined]
    and the element of the right operand. *)
Lemma arrayCalc_empty_left (b : list value) (op : value -> value -> value) :
  b <> [] ->
  Util.arrayCalc (Arr []) (Arr b) op = Arr (map (fun y => op Undef y) b).
Proof.
  intros Hb.
  change (Util.arrayCalc (Arr []) (Arr b) op)
    with (Arr (map (fun i =>
                      op Undef
                        (Util.fromArray (Arr b)
                           (rem (of_nat i) (of_nat (List.length b)))))
                 (seq 0 (List.length b)))).
  f_equal. apply (nth_ext _ _ Undef Undef).
  - now rewrite !length_map, length_seq.
  - intros i Hi. rewrite length_map, length_seq in Hi.
    rewrite nth_map_seq by exact Hi.
    rewrite (nth_indep _ Undef (op Undef Undef)) by now rewrite length_map.
    rewrite (map_nth (fun y => op Undef y)).
    rewrite fromArray_cycle by exact Hb.
    now rewrite Nat.mod_small by exact Hi.
Qed.

Section Broadcast.
Context {rt : Runtime}.

(** C5.  Two arrays combine into an array as long as the longer one, and
    element [i] pairs the elements at [i] modulo each operand's own length,
    so the shorter operand is reused cyclically; adding [1,2,3,4] and
    [1,2,3] gives [2,4,6,5]. *)
Theorem arrayCalc_broadcast_length_and_cycle :
  (forall (a b : list value) (op : value -> value -> value),
      exists r,
        Util.arrayCalc (Arr a) (Arr b) op = Arr r
        /\ List.length r = Nat.max (List.length a) (List.length b)
        /\ forall i, (i < Nat.max (List.length a) (List.length b))%nat ->
                     a <> [] -> b <> [] ->
                     nth i r Undef
                     = op (nth (i mod List.length a) a Undef)
                          (nth (i mod List.length b) b Undef))
  /\ Util.add (Arr [int 1; int 2; int 3; int 4]) (Arr [int 1; int 2; int 3])
     = Arr [int 2; int 4; int 6; int 5].
Proof.
  split.
  - intros a b op. eexists. split; [ reflexivity | ]. split.
    + now rewrite length_map, length_seq.
    + intros i Hi Ha Hb.
      rewrite nth_map_seq by exact Hi.
      now rewrite !fromArray_cycle.
  - reflexivity.
Qed.

(** C1.  With an array on the right, [arrayCalc] hands the paired elements
    to the operation as they are, also when both are arrays: there is one
    call of the operation on the two nested arrays and no recursive pairing.
    Adding [1, [2, 3]] and [10, [20, 30, 40]] therefore gives the number 11
    followed by the text that [+] makes of two arrays, not [11, [22, 33, 42]];
    and the example of the documentation of [arrayCalc], the mean of
    [0, 1, [2, 3]] and [[5, 7], 10], does not give the nested array that the
    documentation shows. *)
Theorem arrayCalc_nested_right_not_recursive :
  (forall op : value -> value -> value,
      Util.arrayCalc (Arr [int 1; Arr [int 2; int 3]])
        (Arr [int 10; Arr [int 20; int 30; int 40]]) op
      = Arr [op (int 1) (int 10);
             op (Arr [int 2; int 3]) (Arr [int 20; int 30; int 40])])
  /\ Util.add (Arr [int 1; Arr [int 2; int 3]])
       (Arr [int 10; Arr [int 20; int 30; int 40]])
     = Arr [int 11; Str "2,320,30,40"]
  /\ Util.add (Arr [int 1; Arr [int 2; int 3]])
       (Arr [int 10; Arr [int 20; int 30; int 40]])
     <> Arr [int 11; Arr [int 22; int 33; int 42]]
  /\ Util.arrayCalc (Arr [int 0; int 1; Arr [int 2; int 3]])
       (Arr [Arr [int 5; int 7]; int 10])
       (fun a b => js_divide (js_plus a b) (int 2))
     <> Arr [Arr [Num (Fin (5 # 2)); Num (Fin (7 # 2))]; Num (Fin (11 # 2));
             Arr [Num (Fin (7 # 2)); Num (Fin 5)]].
Proof.
  split; [ | split; [ | split ] ].
  - intros op. reflexivity.
  - reflexivity.
  - discriminate.
  - discriminate.
Qed.

End Broadcast.

(* ================================================================== *)
(** ** duplicate *)

Lemma flatMap_empty_slots (f : value -> value) (n : nat) :
  flatMap f (repeat None n) = [].
Proof.
  unfold flatMap. induction n as [ | n IH ]; simpl; [ reflexivity | exact IH ].
Qed.

(** C2.  [Array(n)] holds [n] empty slots and [flatMap] calls its function
    on no empty slot, so [duplicate] returns the empty array whenever it
    returns; [duplicate([0, 7, 12], 3)] is [[]] and not the nine elements of
    its documentation. *)
Theorem duplicate_returns_no_copy :
  (forall (arr : value) (n : Z),
      Transform.duplicate arr n = None
      \/ Transform.duplicate arr n = Some (Arr []))
  /\ Transform.duplicate (Arr [int 0; int 7; int 12]) 3 = Some (Arr [])
  /\ Transform.duplicate (Arr [int 0; int 7; int 12]) 3
     <> Some (Arr [int 0; int 7; int 12; int 0; int 7; int 12;
                   int 0; int 7; int 12]).
Proof.
  split; [ | split ].
  - intros arr n. unfold Transform.duplicate, new_Array.
    destruct (_ && _)%bool; [ right | left; reflexivity ].
    now rewrite flatMap_empty_slots.
  - reflexivity.
  - discriminate.
Qed.

(* ================================================================== *)
(** ** slice *)

Lemma array_slice_inside (A : Type) (a : list A) (s e : Z) :
  (0 <= s <= e)%Z -> (e <= Z.of_nat (List.length a))%Z ->
  array_slice a s e = firstn (Z.to_nat (e - s)) (skipn (Z.to_nat s) a).
Proof.
  intros Hs He. unfold array_slice.
  destruct (Z.ltb_spec s 0); [ lia | ].
  destruct (Z.ltb_spec e 0); [ lia | ].
  rewrite !Z.min_l by lia. now rewrite Z.max_l by lia.
Qed.

Lemma firstn_plus (A : Type) (n m : nat) (l : list A) :
  firstn (n + m) l = firstn n l ++ firstn m (skipn n l).
Proof.
  revert l. induction n as [ | n IH ]; intros l; [ reflexivity | ].
  destruct l as [ | x l ]; simpl.
  - now rewrite firstn_nil.
  - now rewrite IH.
Qed.

Lemma skipn_plus (A : Type) (n m : nat) (l : list A) :
  skipn (n + m) l = skipn m (skipn n l).
Proof.
  revert l. induction n as [ | n IH ]; intros l; [ reflexivity | ].
  destruct l as [ | x l ]; simpl.
  - now rewrite skipn_nil.
  - apply IH.
Qed.

Lemma slice_loop (a : list value) (s : list Z) :
  forall (arr : list (list value)) (_s : Z),
    fold_left (Transform.slice_step a) s (arr, _s)
    = (arr ++ segments a _s (positives s), (_s + total (positives s))%Z).
Proof.
  induction s as [ | si s IH ]; intros arr _s; simpl.
  - now rewrite app_nil_r, Z.add_0_r.
  - destruct (Z.ltb_spec 0 si) as [Hp | Hp]; simpl.
    + rewrite IH, <- app_assoc. simpl. f_equal. lia.
    + apply IH.
Qed.

Lemma positives_positive (s : list Z) : Forall (fun z => (0 < z)%Z) (positives s).
Proof.
  unfold positives. apply Forall_forall. intros z Hz.
  apply filter_In in Hz. destruct Hz as [_ Hz]. now apply Z.ltb_lt.
Qed.

Lemma total_nonneg (s : list Z) :
  Forall (fun z => (0 < z)%Z) s -> (0 <= total s)%Z.
Proof.
  induction 1 as [ | z s Hz _ IH ]; simpl; lia.
Qed.

Lemma segments_inside (a : list value) (sizes : list Z) :
  Forall (fun z => (0 < z)%Z) sizes ->
  forall start : Z,
    (0 <= start)%Z ->
    (start + total sizes <= Z.of_nat (List.length a))%Z ->
    map (@List.length value) (segments a start sizes) = map Z.to_nat sizes
    /\ List.concat (segments a start sizes)
       = firstn (Z.to_nat (total sizes)) (skipn (Z.to_nat start) a).
Proof.
  induction 1 as [ | n sizes Hn Hpos IH ]; intros start Hs Hle.
  - split; reflexivity.
  - pose proof (total_nonneg Hpos) as Ht. simpl in Hle |- *.
    destruct (IH (start + n)%Z) as [IHlen IHcat]; try lia.
    rewrite array_slice_inside by lia.
    replace (start + n - start)%Z with n by lia.
    split.
    + rewrite IHlen. f_equal.
      rewrite length_firstn, length_skipn. lia.
    + rewrite IHcat.
      rewrite (Z2Nat.inj_add n (total sizes)), (Z2Nat.inj_add start n) by lia.
      now rewrite firstn_plus, skipn_plus.
Qed.

(** C3, as the code has it.  [slice] passes once over the sizes: each
    strictly positive size cuts the next chunk where the previous one ended,
    a size that is not positive cuts nothing, and no size is used twice.
    With [keepRest] a non-empty tail after the last cut is one more chunk.
    When the positive sizes fit into the array the chunks have exactly these
    lengths, and with [keepRest] the chunks concatenate to the input. *)
Theorem slice_single_pass (l : list value) (s : list Z) :
  Transform.slice (Arr l) s false = segments l 0 (positives s)
  /\ Transform.slice (Arr l) s true
     = Transform.slice (Arr l) s false
       ++ (let rest := array_slice l (total (positives s))
                         (Z.of_nat (List.length l)) in
           if (0 <? List.length rest)%nat then [rest] else [])
  /\ ((total (positives s) <= Z.of_nat (List.length l))%Z ->
      map (@List.length value) (Transform.slice (Arr l) s false)
      = map Z.to_nat (positives s)
      /\ List.concat (Transform.slice (Arr l) s false)
         = firstn (Z.to_nat (total (positives s))) l
      /\ List.concat (Transform.slice (Arr l) s true) = l).
Proof.
  assert (E0 : Transform.slice (Arr l) s false = segments l 0 (positives s)).
  { unfold Transform.slice. simpl. now rewrite slice_loop. }
  assert (E1 : Transform.slice (Arr l) s true
               = Transform.slice (Arr l) s false
                 ++ (let rest := array_slice l (total (positives s))
                                   (Z.of_nat (List.length l)) in
                     if (0 <? List.length rest)%nat then [rest] else [])).
  { rewrite E0. unfold Transform.slice. simpl. rewrite slice_loop. simpl.
    destruct (0 <? _)%nat; [ reflexivity | now rewrite app_nil_r ]. }
  split; [ exact E0 | split; [ exact E1 | ] ].
  intros Hfit.
  pose proof (positives_positive s) as Hpos.
  pose proof (total_nonneg Hpos) as Ht.
  destruct (segments_inside l Hpos (start := 0)) as [Hlen Hcat]; try lia.
  simpl in Hcat.
  split; [ now rewrite E0 | split; [ now rewrite E0 | ] ].
  rewrite E1, concat_app, E0, Hcat. simpl.
  rewrite array_slice_inside by lia.
  rewrite (@firstn_all2 _ _ (skipn (Z.to_nat (total (positives s))) l))
    by (rewrite length_skipn; lia).
  destruct (skipn _ l) as [ | y rest ] eqn:Er; simpl.
  - rewrite app_nil_r. rewrite <- (firstn_skipn (Z.to_nat (total (positives s))) l) at 2.
    now rewrite Er, app_nil_r.
  - rewrite app_nil_r, <- Er. apply firstn_skipn.
Qed.

(** C3, the claim as written fails: with five elements and the one size 2
    the code cuts a single chunk of two elements, while cycling through the
    sizes would go on to cut [3, 4]. *)
Lemma slice_does_not_cycle :
  Transform.slice (Arr [int 1; int 2; int 3; int 4; int 5]) [2%Z] false
  = [[int 1; int 2]]
  /\ slice_cycling (Arr [int 1; int 2; int 3; int 4; int 5]) [2%Z] false
     = [[int 1; int 2]; [int 3; int 4]]
  /\ Transform.slice (Arr [int 1; int 2; int 3; int 4; int 5]) [2%Z] true
     = [[int 1; int 2]; [int 3; int 4; int 5]]
  /\ slice_cycling (Arr [int 1; int 2; int 3; int 4; int 5]) [2%Z] true
     = [[int 1; int 2]; [int 3; int 4]; [int 5]]
  /\ Transform.slice (Arr [int 1; int 2; int 3; int 4; int 5]) [2%Z] false
     <> slice_cycling (Arr [int 1; int 2; int 3; int 4; int 5]) [2%Z] false
  /\ Transform.slice (Arr [int 1; int 2; int 3; int 4; int 5]) [2%Z] true
     <> slice_cycling (Arr [int 1; int 2; int 3; int 4; int 5]) [2%Z] true.
Proof.
  repeat split; try reflexivity; discriminate.
Qed.

Lemma slice_single_pass_witness :
  (total (positives [2%Z; 0%Z; 1%Z]) <= Z.of_nat (List.length [int 7; int 8; int 9; int 10]))%Z
  /\ List.concat (Transform.slice (Arr [int 7; int 8; int 9; int 10]) [2%Z; 0%Z; 1%Z] true)
     = [int 7; int 8; int 9; int 10].
Proof.
  assert (H : (total (positives [2%Z; 0%Z; 1%Z])
               <= Z.of_nat (List.length [int 7; int 8; int 9; int 10]))%Z)
    by (vm_compute; discriminate).
  split; [ exact H | ].
  exact (proj2 (proj2 (proj2 (proj2
           (slice_single_pass [int 7; int 8; int 9; int 10] [2%Z; 0%Z; 1%Z])) H))).
Defined.

(* ================================================================== *)

(* ================================================================== *)
(** ** rotate *)

(** The doubled remainder of the source is the non-negative remainder. *)
Lemma rem_rem_mod (x l : Z) :
  (0 < l)%Z -> Z.rem (Z.rem x l + l) l = (x mod l)%Z.
Proof.
  intros Hl.
  pose proof (Z.quot_rem' x l) as Hx.
  assert (Hr : (- l < Z.rem x l < l)%Z).
  { pose proof (Z.rem_bound_abs x l). pose proof (Z.abs_spec (Z.rem x l)).
    pose proof (Z.abs_spec l). lia. }
  rewrite Z.rem_mod_nonneg by lia.
  replace (Z.rem x l + l)%Z with (x + (1 - x ÷ l) * l)%Z by lia.
  apply Z_mod_plus_full.
Qed.

Lemma rotate_read_in_range (A : Type) (a : list A) (r : Z) (i : nat) :
  a <> [] ->
  (Z.to_nat (Z.rem (Z.rem (Z.of_nat i - r) (Z.of_nat (List.length a))
                    + Z.of_nat (List.length a)) (Z.of_nat (List.length a)))
   < List.length a)%nat.
Proof.
  intros Ha.
  assert (Hl : (0 < Z.of_nat (List.length a))%Z)
    by (destruct a; [ congruence | simpl; lia ]).
  rewrite rem_rem_mod by exact Hl.
  pose proof (Z.mod_pos_bound (Z.of_nat i - r) _ Hl). lia.
Qed.

Lemma length_rotate_items (A : Type) (a : list A) (r : Z) :
  List.length (Transform.rotate_items a r) = List.length a.
Proof.
  unfold Transform.rotate_items. destruct a as [ | d a ]; [ reflexivity | ].
  now rewrite length_map, length_seq.
Qed.

Lemma nth_rotate_items (A : Type) (a : list A) (r : Z) (i : nat) (d : A) :
  (i < List.length a)%nat ->
  nth i (Transform.rotate_items a r) d
  = nth (Z.to_nat ((Z.of_nat i - r) mod Z.of_nat (List.length a))) a d.
Proof.
  intros Hi.
  assert (Hl : (0 < Z.of_nat (List.length a))%Z) by lia.
  unfold Transform.rotate_items.
  destruct a as [ | e a' ] eqn:Ea; [ simpl in Hi; lia | ].
  rewrite <- Ea in *.
  rewrite nth_map_seq by exact Hi.
  rewrite rem_rem_mod by exact Hl.
  apply nth_indep.
  pose proof (Z.mod_pos_bound (Z.of_nat i - r) _ Hl). lia.
Qed.

Lemma rotate_items_inverse (A : Type) (a : list A) (n : Z) :
  Transform.rotate_items (Transform.rotate_items a n) (- n) = a.
Proof.
  destruct a as [ | d a' ] eqn:Ea; [ reflexivity | ]. rewrite <- Ea.
  assert (Hl : (0 < Z.of_nat (List.length a))%Z) by (rewrite Ea; simpl; lia).
  apply (nth_ext _ _ d d).
  - now rewrite !length_rotate_items.
  - intros i Hi. rewrite !length_rotate_items in Hi.
    rewrite nth_rotate_items by now rewrite length_rotate_items.
    rewrite length_rotate_items.
    pose proof (Z.mod_pos_bound (Z.of_nat i - - n) _ Hl) as Hb.
    rewrite nth_rotate_items by lia.
    rewrite Z2Nat.id by lia.
    rewrite Zminus_mod_idemp_l.
    replace (Z.of_nat i - - n - n)%Z with (Z.of_nat i) by lia.
    rewrite Z.mod_small by lia. now rewrite Nat2Z.id.
Qed.

Lemma rotate_items_full_turn (A : Type) (a : list A) :
  Transform.rotate_items a (Z.of_nat (List.length a)) = a.
Proof.
  destruct a as [ | d a' ] eqn:Ea; [ reflexivity | ]. rewrite <- Ea.
  assert (Hl : (0 < Z.of_nat (List.length a))%Z) by (rewrite Ea; simpl; lia).
  apply (nth_ext _ _ d d).
  - now rewrite length_rotate_items.
  - intros i Hi. rewrite length_rotate_items in Hi.
    rewrite nth_rotate_items by exact Hi.
    replace (Z.of_nat i - Z.of_nat (List.length a))%Z
      with (Z.of_nat i + (-1) * Z.of_nat (List.length a))%Z by lia.
    rewrite Z_mod_plus_full, Z.mod_small by lia. now rewrite Nat2Z.id.
Qed.

(** Rotating by -1 moves the first element to the end. *)
Lemma rotate_items_left (A : Type) (z : A) (s : list A) :
  Transform.rotate_items (z :: s) (-1) = s ++ [z].
Proof.
  apply (nth_ext _ _ z z).
  - rewrite length_rotate_items, length_app. simpl. lia.
  - intros i Hi. rewrite length_rotate_items in Hi.
    rewrite nth_rotate_items by exact Hi.
    simpl List.length in *.
    destruct (Nat.eq_dec i (List.length s)) as [E | E].
    + subst i.
      replace (Z.of_nat (List.length s) - -1)%Z
        with (0 + 1 * Z.of_nat (S (List.length s)))%Z by lia.
      rewrite Z_mod_plus_full, Z.mod_small by lia. simpl.
      rewrite app_nth2 by lia. now rewrite Nat.sub_diag.
    + rewrite Z.mod_small by lia.
      replace (Z.to_nat (Z.of_nat i - -1)) with (S i) by lia. simpl.
      now rewrite app_nth1 by lia.
Qed.

(* ================================================================== *)
(** ** split *)

Lemma array_slice_prefix (A : Type) (a : list A) (z : Z) :
  (0 < z)%Z -> array_slice a 0 z = firstn (Z.to_nat z) a.
Proof.
  intros Hz. unfold array_slice.
  destruct (Z.ltb_spec z 0); [ lia | ]. simpl (0 <? 0)%Z. cbv iota.
  rewrite (Z.min_l 0) by lia. rewrite Z.sub_0_r, Z.max_l by lia. simpl skipn.
  destruct (Z.le_gt_cases z (Z.of_nat (List.length a))).
  - now rewrite Z.min_l by lia.
  - rewrite Z.min_r, Nat2Z.id by lia.
    rewrite firstn_all. symmetry. apply firstn_all2. lia.
Qed.

Lemma array_slice_suffix (A : Type) (a : list A) (z : Z) :
  (0 < z)%Z ->
  array_slice a z (Z.of_nat (List.length a)) = skipn (Z.to_nat z) a.
Proof.
  intros Hz. unfold array_slice.
  destruct (Z.ltb_spec z 0); [ lia | ].
  destruct (Z.ltb_spec (Z.of_nat (List.length a)) 0); [ lia | ].
  rewrite Z.min_id.
  destruct (Z.le_gt_cases z (Z.of_nat (List.length a))).
  - rewrite Z.min_l, Z.max_l by lia.
    apply firstn_all2. rewrite length_skipn. lia.
  - rewrite Z.min_r, Z.max_l, Nat2Z.id by lia.
    rewrite Z.sub_diag. simpl firstn.
    symmetry. apply skipn_all2. lia.
Qed.

Lemma split_skip (fuel : nat) (l : list value) (z : Z) (s : list Z) :
  (z <= 0)%Z ->
  Transform.split (S fuel) (Arr l) (z :: s)
  = Transform.split fuel (Arr l) (s ++ [z]).
Proof.
  intros Hz. simpl. unfold Transform._split. cbn [hd_error]. cbv beta iota zeta.
  destruct (Z.ltb_spec 0 z); [ lia | ].
  now rewrite rotate_items_left.
Qed.

Lemma split_cut (fuel : nat) (l : list value) (z : Z) (s : list Z) :
  (0 < z)%Z ->
  Transform.split (S fuel) (Arr l) (z :: s)
  = if (List.length (skipn (Z.to_nat z) l) <? 1)%nat
    then Some [firstn (Z.to_nat z) l]
    else option_map (cons (firstn (Z.to_nat z) l))
           (Transform.split fuel (Arr (skipn (Z.to_nat z) l)) (s ++ [z])).
Proof.
  intros Hz. simpl. unfold Transform._split. cbn [hd_error]. cbv beta iota zeta.
  destruct (Z.ltb_spec 0 z); [ | lia ].
  now rewrite array_slice_prefix, array_slice_suffix, rotate_items_left by lia.
Qed.

Lemma first_positive (s : list Z) :
  Exists (fun z => (0 < z)%Z) s ->
  exists pre z post,
    s = pre ++ z :: post /\ Forall (fun y => (y <= 0)%Z) pre /\ (0 < z)%Z.
Proof.
  induction s as [ | y s IH ]; intros Hs.
  - inversion Hs.
  - destruct (Z.ltb_spec 0 y) as [Hy | Hy].
    + exists [], y, s. repeat split; [ constructor | exact Hy ].
    + inversion Hs as [ ? ? Hpos | ? ? Hpos ]; subst; [ lia | ].
      destruct (IH Hpos) as (pre & z & post & -> & Hpre & Hz).
      exists (y :: pre), z, post. repeat split; [ now constructor | exact Hz ].
Qed.

Lemma split_total (n : nat) :
  forall l : list value,
    List.length l = n ->
    forall s : list Z,
      Exists (fun z => (0 < z)%Z) s ->
      exists fuel chunks,
        (forall m, (fuel <= m)%nat -> Transform.split m (Arr l) s = Some chunks)
        /\ List.concat chunks = l
        /\ (l <> [] -> Forall (fun c => c <> []) chunks).
Proof.
  induction n as [n IHn] using lt_wf_ind.
  intros l Hl s Hs.
  destruct (first_positive Hs) as (pre & z & post & -> & Hpre & Hz).
  clear Hs. revert post.
  induction Hpre as [ | p pre Hp Hpre IHpre ]; intros post.
  - simpl app.
    destruct (skipn (Z.to_nat z) l) as [ | y res ] eqn:Eres.
    + exists 1%nat, [firstn (Z.to_nat z) l].
      assert (El : firstn (Z.to_nat z) l = l).
      { rewrite <- (firstn_skipn (Z.to_nat z) l) at 2.
        now rewrite Eres, app_nil_r. }
      split; [ | split ].
      * intros [ | m ] Hm; [ lia | ].
        now rewrite split_cut, Eres by exact Hz.
      * simpl. now rewrite app_nil_r.
      * intros Hne. constructor; [ now rewrite El | constructor ].
    + assert (Hshort : (List.length (y :: res) < n)%nat).
      { rewrite <- Eres, length_skipn.
        assert (l <> []) by (intros ->; now rewrite skipn_nil in Eres).
        destruct l; [ congruence | cbn [List.length] in * ]. lia. }
      destruct (IHn _ Hshort (y :: res) eq_refl (post ++ [z]))
        as (fuel & chunks & Hrun & Hcat & Hne).
      { apply Exists_app. right. now constructor. }
      exists (S fuel), (firstn (Z.to_nat z) l :: chunks).
      split; [ | split ].
      * intros [ | m ] Hm; [ lia | ].
        rewrite split_cut, Eres by exact Hz. simpl Nat.ltb.
        rewrite Hrun by lia. reflexivity.
      * simpl. rewrite Hcat, <- Eres. apply firstn_skipn.
      * intros Hl0. constructor; [ | apply Hne; discriminate ].
        destruct l as [ | x l ]; [ congruence | ].
        destruct (Z.to_nat z) eqn:Ez; [ lia | discriminate ].
  - destruct (IHpre (post ++ [p])) as (fuel & chunks & Hrun & Hcat & Hne).
    exists (S fuel), chunks.
    split; [ | split; assumption ].
    intros [ | m ] Hm; [ lia | ].
    simpl app. rewrite split_skip by exact Hp.
    rewrite <- app_assoc. simpl app. apply Hrun. lia.
Qed.

(* ================================================================== *)
(** ** wrap *)

Lemma Qfloor_unique (q : Q) (z : Z) :
  (inject_Z z <= q)%Q -> (q < inject_Z (z + 1))%Q -> Qfloor q = z.
Proof.
  intros Hlo Hhi.
  pose proof (Qfloor_le q) as H1. pose proof (Qlt_floor q) as H2.
  assert (A : (z < Qfloor q + 1)%Z).
  { rewrite Zlt_Qlt. eapply Qle_lt_trans; eassumption. }
  assert (B : (Qfloor q < z + 1)%Z).
  { rewrite Zlt_Qlt. eapply Qle_lt_trans; eassumption. }
  lia.
Qed.

Lemma Qtrunc_comp (q q' : Q) : (q == q')%Q -> Qtrunc q = Qtrunc q'.
Proof.
  intros E. unfold Qtrunc.
  assert (B : Qle_bool 0 q = Qle_bool 0 q').
  { apply eq_true_iff_eq. rewrite !Qle_bool_iff. now rewrite E. }
  rewrite B. destruct (Qle_bool 0 q'); [ now rewrite E | now rewrite E ].
Qed.

#[local] Instance Qrem_proper : Proper (Qeq ==> Qeq ==> Qeq) Qrem.
Proof.
  intros a a' Ea b b' Eb. unfold Qrem.
  rewrite (Qtrunc_comp (q := a / b) (q' := a' / b')) by now rewrite Ea, Eb.
  now rewrite Ea, Eb.
Qed.

#[local] Instance Qemod_proper : Proper (Qeq ==> Qeq ==> Qeq) Qemod.
Proof.
  intros a a' Ea b b' Eb. unfold Qemod.
  assert (F : Qfloor (a / b) = Qfloor (a' / b')) by now rewrite Ea, Eb.
  rewrite F. now rewrite Ea, Eb.
Qed.

Lemma Qemod_bounds (y r : Q) :
  (0 < r)%Q -> (0 <= Qemod y r /\ Qemod y r < r)%Q.
Proof.
  intros Hr. unfold Qemod.
  pose proof (Qfloor_le (y / r)) as H1. pose proof (Qlt_floor (y / r)) as H2.
  rewrite inject_Z_plus in H2.
  assert (E : (y == y / r * r)%Q) by (field; lra).
  set (q := (y / r)%Q) in *. set (f := inject_Z (Qfloor q)) in *.
  change (inject_Z 1) with 1%Q in H2.
  split; nra.
Qed.

Lemma Qemod_unique (y r m : Q) (k : Z) :
  (0 < r)%Q -> (y == r * inject_Z k + m)%Q -> (0 <= m)%Q -> (m < r)%Q ->
  (Qemod y r == m)%Q.
Proof.
  intros Hr E Hm0 Hm1. unfold Qemod.
  assert (F : Qfloor (y / r) = k).
  { assert (Ed : (y / r == inject_Z k + m / r)%Q) by (rewrite E; field; lra).
    assert (D0 : (0 <= m / r)%Q) by (apply Qle_shift_div_l; lra).
    assert (D1 : (m / r < 1)%Q) by (apply Qlt_shift_div_r; lra).
    apply Qfloor_unique; rewrite ?inject_Z_plus; change (inject_Z 1) with 1%Q; lra. }
  rewrite F, E. ring.
Qed.

Lemma Qrem_nonneg (w r : Q) :
  (0 < r)%Q -> (0 <= w)%Q -> (Qrem w r == Qemod w r)%Q.
Proof.
  intros Hr Hw. unfold Qrem, Qemod, Qtrunc.
  assert (D : (0 <= w / r)%Q) by (apply Qle_shift_div_l; lra).
  apply Qle_bool_iff in D. now rewrite D.
Qed.

Lemma Qrem_bounds (y r : Q) :
  (0 < r)%Q -> (- r < Qrem y r /\ Qrem y r < r)%Q.
Proof.
  intros Hr.
  destruct (Qlt_le_dec y 0) as [Hy | Hy].
  - unfold Qrem, Qtrunc.
    assert (D : (y / r < 0)%Q) by (apply Qlt_shift_div_r; lra).
    assert (B : Qle_bool 0 (y / r) = false).
    { destruct (Qle_bool 0 (y / r)) eqn:B; [ | reflexivity ].
      apply Qle_bool_iff in B. lra. }
    rewrite B.
    pose proof (Qle_ceiling (y / r)) as H1. pose proof (Qceiling_lt (y / r)) as H2.
    unfold Z.sub in H2. rewrite inject_Z_plus, inject_Z_opp in H2.
    change (inject_Z 1) with 1%Q in H2.
    assert (E : (y == y / r * r)%Q) by (field; lra).
    set (q := (y / r)%Q) in *. set (c := inject_Z (Qceiling q)) in *.
    split; nra.
  - rewrite Qrem_nonneg by assumption.
    pose proof (Qemod_bounds y Hr). lra.
Qed.

(** The doubled remainder of [_wrap] is the non-negative remainder. *)
Lemma Qrem_Qrem_emod (y r : Q) :
  (0 < r)%Q -> (Qrem (Qrem y r + r) r == Qemod y r)%Q.
Proof.
  intros Hr.
  pose proof (Qrem_bounds y Hr) as [B1 B2].
  rewrite Qrem_nonneg by lra.
  symmetry.
  pose proof (Qemod_bounds (Qrem y r + r) Hr) as [M1 M2].
  apply (Qemod_unique (k := Qtrunc (y / r) - 1 + Qfloor ((Qrem y r + r) / r)) Hr);
    try assumption.
  unfold Qemod. unfold Z.sub. rewrite !inject_Z_plus, inject_Z_opp.
  change (inject_Z 1) with 1%Q.
  unfold Qrem. ring.
Qed.


Lemma Qeq_bool_false (q : Q) : ~ (q == 0)%Q -> Qeq_bool q 0 = false.
Proof.
  intros H. destruct (Qeq_bool q 0) eqn:E; [ | reflexivity ].
  apply Qeq_bool_iff in E. contradiction.
Qed.

Lemma Qeq_bool_true (q : Q) : (q == 0)%Q -> Qeq_bool q 0 = true.
Proof. intros H. now apply Qeq_bool_iff. Qed.

Lemma _wrap_ordered (x lo hi : Q) :
  (lo < hi)%Q ->
  Util._wrap (Fin x) (Fin lo) (Fin hi)
  = Fin (Qred (Qemod (x - lo) (hi - lo) + lo)).
Proof.
  intros H.
  assert (Z : Qeq_bool (Qred (hi - lo)) 0 = false).
  { apply Qeq_bool_false. rewrite Qred_correct. lra. }
  cbv beta iota zeta delta [Util._wrap sub rem add].
  rewrite Z. cbv beta iota.
  f_equal. apply Qred_complete.
  rewrite !Qred_correct.
  rewrite Qrem_Qrem_emod by lra. reflexivity.
Qed.

Lemma _wrap_empty_range (x lo hi : Q) :
  (lo == hi)%Q -> Util._wrap (Fin x) (Fin lo) (Fin hi) = NaN.
Proof.
  intros H.
  assert (Z : Qeq_bool (Qred (hi - lo)) 0 = true).
  { apply Qeq_bool_true. rewrite Qred_correct. lra. }
  cbv beta iota zeta delta [Util._wrap sub rem add].
  rewrite Z. reflexivity.
Qed.


Lemma Qle_bool_false (a b : Q) : (b < a)%Q -> Qle_bool a b = false.
Proof.
  intros H. destruct (Qle_bool a b) eqn:E; [ | reflexivity ].
  apply Qle_bool_iff in E. lra.
Qed.

Lemma Qle_bool_true (a b : Q) : (a <= b)%Q -> Qle_bool a b = true.
Proof. intros H. now apply Qle_bool_iff. Qed.


(* ================================================================== *)
(** ** normalize *)

Lemma forallb_Forall (A : Type) (p : A -> bool) (l : list A) :
  forallb p l = true -> Forall (fun x => p x = true) l.
Proof.
  intros H. apply Forall_forall. intros x Hx.
  rewrite forallb_forall in H. now apply H.
Qed.

(** With a scalar on the right, [arrayCalc] applies the operation to every
    leaf of the left operand. *)
Lemma arrayCalc_scalar_right (op : value -> value -> value) (b : value) :
  isArray b = false ->
  forall a, Util.arrayCalc a b op = deep_map (fun x => op x b) a.
Proof.
  intros Hb a. induction a as [ | n | t | l IH ] using value_ind;
    destruct b as [ | m | u | r ]; try discriminate; try reflexivity;
    simpl; f_equal; apply map_ext_in; intros x Hx;
    rewrite Forall_forall in IH; now apply IH.
Qed.

Lemma numeric_leaves (v : value) :
  numeric v = true -> Forall finite_leaf (Util.flat_all v).
Proof.
  induction v as [ | n | t | l IH ] using value_ind; simpl; try discriminate.
  - destruct n; try discriminate. intros _. constructor; [ now exists q | constructor ].
  - intros H. apply forallb_Forall in H.
    induction l as [ | x l IHl ]; simpl; [ constructor | ].
    inversion IH; subst. inversion H; subst.
    apply Forall_app. split; [ auto | apply IHl; assumption ].
Qed.

Lemma numeric_list_leaves (l : list value) :
  forallb numeric l = true -> Forall finite_leaf (flat_map Util.flat_all l).
Proof. intros H. now apply (numeric_leaves (Arr l)). Qed.


Section Normalize.
Context {rt : Runtime}.

Lemma Math_min_finite (vs : list value) :
  Forall finite_leaf vs ->
  forall acc,
    (acc = PInf \/ exists q, acc = Fin q) ->
    let r := fold_left (fun acc v => Number.min acc (ToNumber v)) vs acc in
    (r = PInf /\ vs = [] /\ acc = PInf)
    \/ (exists a, r = Fin a
                  /\ (forall q, acc = Fin q -> (a <= q)%Q)
                  /\ (forall x, In (Num (Fin x)) vs -> (a <= x)%Q)).
Proof.
  induction 1 as [ | v vs [x ->] Hvs IH ]; intros acc Hacc; simpl.
  - destruct Hacc as [-> | [q ->]]; [ now left | right ].
    exists q. split; [ reflexivity | split ].
    + intros q' E. injection E as <-. apply Qle_refl.
    + intros x [].
  - right.
    assert (Hstep : exists a, Number.min acc (Fin x) = Fin a
                              /\ (a <= x)%Q
                              /\ forall q, acc = Fin q -> (a <= q)%Q).
    { destruct Hacc as [-> | [q ->]].
      - exists x. simpl. split; [ reflexivity | split; [ apply Qle_refl | ] ].
        intros q E. discriminate.
      - unfold Number.min, ltb.
        destruct (Qle_bool q x) eqn:E; simpl.
        + apply Qle_bool_iff in E. exists q.
          split; [ reflexivity | split; [ exact E | ] ].
          intros q' E'. injection E' as <-. apply Qle_refl.
        + exists x. split; [ reflexivity | split; [ apply Qle_refl | ] ].
          intros q' E'. injection E' as <-.
          destruct (Qlt_le_dec x q) as [L | L]; [ lra | ].
          apply Qle_bool_iff in L. congruence. }
    destruct Hstep as (a & Ea & Hax & Haq).
    rewrite Ea.
    destruct (IH (Fin a)) as [(E & _ & E') | (b & Eb & Hb1 & Hb2)];
      [ right; now exists a | discriminate | ].
    exists b. split; [ exact Eb | split ].
    + intros q E. specialize (Haq q E). specialize (Hb1 a eq_refl). lra.
    + intros y [E | Hy].
      * injection E as <-. specialize (Hb1 a eq_refl). lra.
      * now apply Hb2.
Qed.

Lemma Math_max_finite (vs : list value) :
  Forall finite_leaf vs ->
  forall acc,
    (acc = NInf \/ exists q, acc = Fin q) ->
    let r := fold_left (fun acc v => Number.max acc (ToNumber v)) vs acc in
    (r = NInf /\ vs = [] /\ acc = NInf)
    \/ (exists a, r = Fin a
                  /\ (forall q, acc = Fin q -> (q <= a)%Q)
                  /\ (forall x, In (Num (Fin x)) vs -> (x <= a)%Q)).
Proof.
  induction 1 as [ | v vs [x ->] Hvs IH ]; intros acc Hacc; simpl.
  - destruct Hacc as [-> | [q ->]]; [ now left | right ].
    exists q. split; [ reflexivity | split ].
    + intros q' E. injection E as <-. apply Qle_refl.
    + intros x [].
  - right.
    assert (Hstep : exists a, Number.max acc (Fin x) = Fin a
                              /\ (x <= a)%Q
                              /\ forall q, acc = Fin q -> (q <= a)%Q).
    { destruct Hacc as [-> | [q ->]].
      - exists x. simpl. split; [ reflexivity | split; [ apply Qle_refl | ] ].
        intros q E. discriminate.
      - unfold Number.max, ltb.
        destruct (Qle_bool x q) eqn:E; simpl.
        + apply Qle_bool_iff in E. exists q.
          split; [ reflexivity | split; [ exact E | ] ].
          intros q' E'. injection E' as <-. apply Qle_refl.
        + exists x. split; [ reflexivity | split; [ apply Qle_refl | ] ].
          intros q' E'. injection E' as <-.
          destruct (Qlt_le_dec q x) as [L | L]; [ lra | ].
          apply Qle_bool_iff in L. congruence. }
    destruct Hstep as (a & Ea & Hax & Haq).
    rewrite Ea.
    destruct (IH (Fin a)) as [(E & _ & E') | (b & Eb & Hb1 & Hb2)];
      [ right; now exists a | discriminate | ].
    exists b. split; [ exact Eb | split ].
    + intros q E. specialize (Haq q E). specialize (Hb1 a eq_refl). lra.
    + intros y [E | Hy].
      * injection E as <-. specialize (Hb1 a eq_refl). lra.
      * now apply Hb2.
Qed.

End Normalize.


Lemma Qred_zero (q : Q) : (q == 0)%Q -> Qred q = 0%Q.
Proof. intros H. now rewrite (Qred_complete _ _ H). Qed.


Section NormalizeTheorem.
Context {rt : Runtime}.

Lemma deep_map_minus_numeric (mn : num) (v : value) :
  numeric v = true ->
  deep_map (fun x => js_minus x (Num mn)) v = map_numbers (fun x => sub x mn) v.
Proof.
  induction v as [ | n | t | l IH ] using value_ind; simpl; try discriminate.
  - reflexivity.
  - intros H. apply forallb_Forall in H. f_equal.
    apply map_ext_in. intros x Hx.
    rewrite Forall_forall in IH, H. apply IH; auto.
Qed.

Lemma deep_map_divide_numbers (d : num) (f : num -> num) (v : value) :
  numeric v = true ->
  deep_map (fun x => js_divide x (Num d)) (map_numbers f v)
  = map_numbers (fun x => div (f x) d) v.
Proof.
  induction v as [ | n | t | l IH ] using value_ind; simpl; try discriminate.
  - reflexivity.
  - intros H. apply forallb_Forall in H. f_equal.
    rewrite map_map. apply map_ext_in. intros x Hx.
    rewrite Forall_forall in IH, H. apply IH; auto.
Qed.

Lemma normalize_unfold (l : list value) :
  Util.normalize (Arr l)
  = let leaves := flat_map Util.flat_all l in
    let mn := Math_min leaves in
    let mx := Math_max leaves in
    Util.divide (Util.subtract (Arr l) (Num mn))
      (if truthy (sub mx mn) then Num (sub mx mn) else int 0).
Proof. reflexivity. Qed.

Lemma min_max_of_numeric (l : list value) :
  forallb numeric l = true ->
  let leaves := flat_map Util.flat_all l in
  (Math_min leaves = PInf /\ Math_max leaves = NInf)
  \/ (exists a b,
         Math_min leaves = Fin a /\ Math_max leaves = Fin b
         /\ forall x, In (Num (Fin x)) leaves -> (a <= x /\ x <= b)%Q).
Proof.
  intros H leaves. pose proof (numeric_list_leaves l H) as Hfin.
  fold leaves in Hfin. unfold Math_min, Math_max.
  destruct (Math_min_finite Hfin (acc := PInf)) as [(E1 & E2 & _) | (a & Ea & _ & Ha)];
    [ now left | | ].
  - left. split; [ exact E1 | ]. now rewrite E2.
  - destruct (Math_max_finite Hfin (acc := NInf)) as [(E1 & E2 & _) | (b & Eb & _ & Hb)];
      [ now left | | ].
    + rewrite E2 in Ea. discriminate.
    + right. exists a, b. repeat split; auto.
Qed.

Lemma divisor_is_range (l : list value) :
  forallb numeric l = true ->
  let leaves := flat_map Util.flat_all l in
  let range := sub (Math_max leaves) (Math_min leaves) in
  (if truthy range then Num range else int 0) = Num range.
Proof.
  intros H. cbv zeta.
  destruct (min_max_of_numeric l H) as [[-> ->] | (a & b & -> & -> & _)];
    [ reflexivity | ].
  unfold sub, truthy.
  destruct (Qeq_bool (Qred (b - a)) 0) eqn:E; [ | reflexivity ].
  apply Qeq_bool_iff in E. rewrite Qred_correct in E.
  simpl negb. cbv iota. now rewrite (Qred_zero E).
Qed.


End NormalizeTheorem.

(* ================================================================== *)
(** ** stretch *)

Section Stretch.
Context {rt : Runtime}.

(** The length asked for is replaced by [length(len)], which is 1 for a
    number: the loop runs once, at position [0 / 0], and the single element
    is [NaN]. *)
Lemma stretch_single_NaN (a : value) (len : Q) (mode : Transform.InterpolationMode) :
  (2 <= len)%Q ->
  Transform.stretch a (Fin len) mode = Arr [Num NaN].
Proof.
  intros H. unfold Transform.stretch.
  assert (L : ltb (Fin len) (of_Z 2) = false).
  { unfold ltb, of_Z. now rewrite Qle_bool_true. }
  rewrite L. reflexivity.
Qed.

(** C10.  For a length of at least 2 the result of [stretch] is the same for
    every interpolation mode: the mode is handed to [lerp] as a fourth
    argument, [lerp] has three parameters, and every element is the linear
    interpolation [lerp(a0, a1, f)]. *)
Theorem stretch_ignores_mode (a : value) (len : Q)
  (m1 m2 : Transform.InterpolationMode) :
  (2 <= len)%Q ->
  Transform.stretch a (Fin len) m1 = Transform.stretch a (Fin len) m2
  /\ forall (x y : value) (f : num) (mode : Transform.InterpolationMode),
       Transform.call3_surplus Util.lerp x y f mode = Util.lerp x y f.
Proof.
  intros H. split; reflexivity.
Qed.

End Stretch.

(* ================================================================== *)
(** ** The statements at concrete inputs *)

Lemma arrayCalc_broadcast_witness :
  (2 < Nat.max (List.length [int 1; int 2; int 3; int 4])
               (List.length [int 1; int 2; int 3]))%nat
  /\ [int 1; int 2; int 3; int 4] <> []
  /\ [int 1; int 2; int 3] <> []
  /\ exists r,
      Util.arrayCalc (Arr [int 1; int 2; int 3; int 4])
        (Arr [int 1; int 2; int 3]) (fun x _ => x) = Arr r
      /\ nth 2 r Undef = int 3.
Proof.
  assert (Hi : (2 < Nat.max (List.length [int 1; int 2; int 3; int 4])
                            (List.length [int 1; int 2; int 3]))%nat)
    by (simpl; lia).
  assert (Ha : [int 1; int 2; int 3; int 4] <> []) by discriminate.
  assert (Hb : [int 1; int 2; int 3] <> []) by discriminate.
  split; [ exact Hi | split; [ exact Ha | split; [ exact Hb | ] ] ].
  destruct (proj1 (arrayCalc_broadcast_length_and_cycle (rt := constant_runtime))
              [int 1; int 2; int 3; int 4] [int 1; int 2; int 3]
              (fun x _ => x)) as (r & Er & _ & Hnth).
  exists r. split; [ exact Er | ].
  exact (Hnth 2%nat Hi Ha Hb).
Defined.


Lemma stretch_ignores_mode_witness :
  (2 <= 5)%Q
  /\ Transform.stretch (rt := constant_runtime) (Arr [int 0; int 10]) (Fin 5)
       Transform.linear
     = Transform.stretch (rt := constant_runtime) (Arr [int 0; int 10]) (Fin 5)
         Transform.cubic.
Proof.
  assert (H : (2 <= 5)%Q) by discriminate.
  split; [ exact H | ].
  exact (proj1 (stretch_ignores_mode (rt := constant_runtime)
                  (Arr [int 0; int 10]) Transform.linear Transform.cubic H)).
Defined.

(* ================================================================== *)
(** ** constrain *)

Lemma Qle_bool_false_lt (a b : Q) : Qle_bool a b = false -> (b < a)%Q.
Proof.
  intros E. destruct (Qlt_le_dec b a) as [H | H]; [ exact H | ].
  apply Qle_bool_iff in H. congruence.
Qed.

Ltac split_Qle_bool :=
  cbn [negb]; cbv beta iota;
  repeat (match goal with
          | |- context [Qle_bool ?a ?b] =>
              let E := fresh "E" in
              destruct (Qle_bool a b) eqn:E;
              [ apply Qle_bool_iff in E | apply Qle_bool_false_lt in E ]
          end; cbn [negb]; cbv beta iota).

Lemma constrain_One (x : num) (lo hi : Q) :
  Util.constrain (Util.One x) (Fin lo) (Fin hi)
  = Util.One (if Qle_bool lo hi
              then Number.min (Fin hi) (Number.max (Fin lo) x)
              else Number.min (Fin lo) (Number.max (Fin hi) x)).
Proof.
  unfold Util.constrain, gtb, ltb. now destruct (Qle_bool lo hi).
Qed.

Lemma constrain_Many (xs : list num) (lo hi : Q) :
  Util.constrain (Util.Many xs) (Fin lo) (Fin hi)
  = Util.Many (map (fun x =>
                      if Qle_bool lo hi
                      then Number.min (Fin hi) (Number.max (Fin lo) x)
                      else Number.min (Fin lo) (Number.max (Fin hi) x)) xs).
Proof.
  unfold Util.constrain, gtb, ltb. now destruct (Qle_bool lo hi).
Qed.

(** The clamp of [constrain] between ordered bounds, applied twice. *)
Lemma clamp_twice (L H : Q) (x : num) :
  (L <= H)%Q ->
  Number.min (Fin H) (Number.max (Fin L) (Number.min (Fin H) (Number.max (Fin L) x)))
  = Number.min (Fin H) (Number.max (Fin L) x).
Proof.
  intros HLH.
  destruct x as [ q | | | ]; unfold Number.min, Number.max, ltb;
    split_Qle_bool; try reflexivity; try lra.
Qed.

Lemma clamp_bounds (L H : Q) (x : num) :
  (L <= H)%Q -> x <> NaN ->
  exists y, Number.min (Fin H) (Number.max (Fin L) x) = Fin y
            /\ (L <= y)%Q /\ (y <= H)%Q
            /\ forall q, x = Fin q -> (L <= q)%Q -> (q <= H)%Q -> (y == q)%Q.
Proof.
  intros HLH Hx.
  destruct x as [ q | | | ]; try congruence;
    unfold Number.min, Number.max, ltb;
    split_Qle_bool;
    eexists; (split; [ reflexivity | ]);
    (split; [ | split ]); try lra;
    intros q' E'; try discriminate; injection E' as <-; intros; lra.
Qed.

(** X1.  On a number that is not [NaN], infinities included, and finite
    bounds in either order, [constrain] returns a finite number of the closed
    interval between the smaller and the larger bound, and a number that
    already lies in the interval keeps its value. *)
Theorem constrain_closed_range (x : num) (lo hi : Q) :
  x <> NaN ->
  exists y,
    Util.constrain (Util.One x) (Fin lo) (Fin hi) = Util.One (Fin y)
    /\ ((lo <= hi)%Q -> (lo <= y /\ y <= hi)%Q)
    /\ ((hi <= lo)%Q -> (hi <= y /\ y <= lo)%Q)
    /\ forall q, x = Fin q ->
                 ((lo <= q /\ q <= hi) \/ (hi <= q /\ q <= lo))%Q -> (y == q)%Q.
Proof.
  intros Hx. rewrite constrain_One.
  destruct (Qle_bool lo hi) eqn:E.
  - apply Qle_bool_iff in E.
    destruct (clamp_bounds (L := lo) (H := hi) E Hx) as (y & Ey & H1 & H2 & H3).
    exists y. split; [ now rewrite Ey | ].
    split; [ intros _; now split | ].
    split.
    + intros Hle. assert (lo == hi)%Q by lra. split; lra.
    + intros q Eq [[A B] | [A B]]; apply H3; auto; lra.
  - apply Qle_bool_false_lt in E.
    assert (E' : (hi <= lo)%Q) by lra.
    destruct (clamp_bounds (L := hi) (H := lo) E' Hx) as (y & Ey & H1 & H2 & H3).
    exists y. split; [ now rewrite Ey | ].
    split; [ intros Hle; lra | ].
    split; [ intros _; now split | ].
    intros q Eq [[A B] | [A B]]; apply H3; auto; lra.
Qed.

Lemma constrain_closed_range_witness :
  PInf <> NaN
  /\ exists y,
      Util.constrain (Util.One PInf) (Fin 12) (Fin 0) = Util.One (Fin y)
      /\ ((0 <= y)%Q /\ (y <= 12)%Q).
Proof.
  assert (H : PInf <> NaN) by discriminate.
  split; [ exact H | ].
  destruct (@constrain_closed_range PInf 12 0 H) as (y & Ey & _ & Hr & _).
  exists y. split; [ exact Ey | ].
  apply Hr. discriminate.
Defined.

(** X2.  [constrain] is idempotent, on a number and on an array of numbers,
    [NaN] and the infinities included: constraining a constrained input to
    the same finite bounds changes nothing. *)
Theorem constrain_idempotent (input : Util.numbers) (lo hi : Q) :
  Util.constrain (Util.constrain input (Fin lo) (Fin hi)) (Fin lo) (Fin hi)
  = Util.constrain input (Fin lo) (Fin hi).
Proof.
  destruct input as [ x | xs ].
  - rewrite !constrain_One.
    destruct (Qle_bool lo hi) eqn:E.
    + apply Qle_bool_iff in E. now rewrite clamp_twice.
    + apply Qle_bool_false_lt in E. rewrite clamp_twice by lra. reflexivity.
  - rewrite !constrain_Many, map_map. f_equal. apply map_ext. intros x.
    destruct (Qle_bool lo hi) eqn:E.
    + apply Qle_bool_iff in E. now rewrite clamp_twice.
    + apply Qle_bool_false_lt in E. rewrite clamp_twice by lra. reflexivity.
Qed.

(* ================================================================== *)
(** ** Integers in the arithmetic of numbers *)

Lemma add_of_Z (a b : Z) : add (of_Z a) (of_Z b) = of_Z (a + b).
Proof.
  unfold add, of_Z. f_equal.
  rewrite <- (Qred_inject_Z (a + b)). apply Qred_complete.
  now rewrite inject_Z_plus.
Qed.

Lemma sub_of_Z (a b : Z) : sub (of_Z a) (of_Z b) = of_Z (a - b).
Proof.
  unfold sub, of_Z. f_equal.
  rewrite <- (Qred_inject_Z (a - b)). apply Qred_complete.
  unfold Z.sub. rewrite inject_Z_plus, inject_Z_opp. reflexivity.
Qed.

Lemma rem_of_Z (a n : Z) :
  (0 < n)%Z -> rem (of_Z a) (of_Z n) = of_Z (Z.rem a n).
Proof.
  intros Hn. destruct n as [ | p | p ]; try lia.
  unfold rem, of_Z.
  replace (Qeq_bool (inject_Z (Z.pos p)) 0) with false by reflexivity.
  f_equal.
  now rewrite (Qred_complete _ _ (Qrem_inject_Z a p)), Qred_inject_Z.
Qed.

Lemma floor_of_Z (z : Z) : floor (of_Z z) = of_Z z.
Proof. unfold floor, of_Z. now rewrite Qfloor_Z. Qed.

(** The doubled remainder of the source, on integers. *)
Lemma euclid_of_Z (a n : Z) :
  (0 < n)%Z ->
  rem (add (rem (of_Z a) (of_Z n)) (of_Z n)) (of_Z n) = of_Z (a mod n).
Proof.
  intros Hn.
  rewrite rem_of_Z, add_of_Z, rem_of_Z by exact Hn.
  now rewrite rem_rem_mod.
Qed.

Lemma index_of_Z (l : list value) (z : Z) :
  (0 <= z)%Z -> index l (of_Z z) = nth (Z.to_nat z) l Undef.
Proof.
  intros Hz. rewrite <- (Z2Nat.id z) at 1 by exact Hz.
  apply index_of_nat.
Qed.

(* ================================================================== *)
(** ** wrap and mod *)

Lemma wrap_Many (xs : list num) (lo hi : Q) :
  Util.wrap (Util.Many xs) (Fin lo) (Fin hi)
  = Util.Many (map (fun x =>
                      if Qle_bool lo hi
                      then Util._wrap x (Fin lo) (Fin hi)
                      else Util._wrap x (Fin hi) (Fin lo)) xs).
Proof.
  unfold Util.wrap, gtb, ltb. now destruct (Qle_bool lo hi).
Qed.

Lemma Qemod_small (m r : Q) :
  (0 <= m)%Q -> (m < r)%Q -> (Qemod m r == m)%Q.
Proof.
  intros H0 H1. apply (Qemod_unique (k := 0)); try assumption; try lra.
  change (inject_Z 0) with 0%Q. ring.
Qed.

Lemma _wrap_twice (x : num) (lo hi : Q) :
  (lo <= hi)%Q ->
  Util._wrap (Util._wrap x (Fin lo) (Fin hi)) (Fin lo) (Fin hi)
  = Util._wrap x (Fin lo) (Fin hi).
Proof.
  intros Hle.
  destruct x as [ q | | | ]; try reflexivity.
  destruct (Qlt_le_dec lo hi) as [Hlt | Hge].
  - rewrite !_wrap_ordered by exact Hlt.
    f_equal. apply Qred_complete.
    pose proof (@Qemod_bounds (q - lo) (hi - lo)) as B.
    assert (E : (Qred (Qemod (q - lo) (hi - lo) + lo) - lo
                 == Qemod (q - lo) (hi - lo))%Q)
      by (rewrite Qred_correct; ring).
    rewrite E. rewrite Qemod_small by lra. reflexivity.
  - assert (Heq : (lo == hi)%Q) by lra.
    now rewrite (_wrap_empty_range q Heq).
Qed.

Lemma _wrap_of_Z (a n : Z) :
  (0 < n)%Z -> Util._wrap (of_Z a) (of_Z 0) (of_Z n) = of_Z (a mod n).
Proof.
  intros Hn. unfold Util._wrap.
  rewrite !sub_of_Z, !Z.sub_0_r.
  rewrite euclid_of_Z by exact Hn.
  now rewrite add_of_Z, Z.add_0_r.
Qed.

(* ================================================================== *)
(** ** More on the broadcasting engine *)

(** X5.  A scalar on the left is paired with every element of a non-empty
    array on the right; against the empty array the result still has one
    element, the operation applied to the scalar and [undefined]. *)
Theorem arrayCalc_scalar_left (a : value) (b : list value)
  (op : value -> value -> value) :
  isArray a = false ->
  (b <> [] -> Util.arrayCalc a (Arr b) op = Arr (map (fun y => op a y) b))
  /\ Util.arrayCalc a (Arr []) op = Arr [op a Undef].
Proof.
  intros Ha.
  assert (E : forall r, Util.arrayCalc a (Arr r) op
                        = Arr (map (fun i =>
                                      op (Util.fromArray (Arr [a])
                                            (rem (of_nat i) (of_nat 1)))
                                         (Util.fromArray (Arr r)
                                            (rem (of_nat i) (of_nat (List.length r)))))
                                 (seq 0 (Nat.max 1 (List.length r))))).
  { intros r. destruct a; try discriminate; reflexivity. }
  split.
  - intros Hb. rewrite E. f_equal.
    assert (Hlen : Nat.max 1 (List.length b) = List.length b)
      by (destruct b; [ congruence | simpl; lia ]).
    rewrite Hlen.
    apply (nth_ext _ _ Undef Undef).
    + now rewrite !length_map, length_seq.
    + intros i Hi. rewrite length_map, length_seq in Hi.
      rewrite nth_map_seq by exact Hi.
      rewrite (nth_indep _ Undef (op a Undef)) by now rewrite length_map.
      rewrite (map_nth (fun y => op a y)).
      rewrite !fromArray_cycle by (exact Hb || discriminate).
      change (List.length [a]) with 1%nat. rewrite Nat.mod_1_r.
      now rewrite Nat.mod_small by exact Hi.
  - rewrite E. reflexivity.
Qed.

Lemma arrayCalc_scalar_left_witness :
  isArray (int 10) = false
  /\ [int 1; int 2] <> []
  /\ Util.arrayCalc (int 10) (Arr [int 1; int 2]) (fun x y => Arr [x; y])
     = Arr [Arr [int 10; int 1]; Arr [int 10; int 2]].
Proof.
  assert (H : isArray (int 10) = false) by reflexivity.
  assert (Hb : [int 1; int 2] <> []) by discriminate.
  split; [ exact H | split; [ exact Hb | ] ].
  exact (proj1 (@arrayCalc_scalar_left (int 10) [int 1; int 2]
                  (fun x y => Arr [x; y]) H) Hb).
Defined.

Lemma add_comm_num (x y : num) : add x y = add y x.
Proof.
  destruct x as [ a | | | ], y as [ b | | | ]; unfold add; try reflexivity.
  f_equal. apply Qred_complete. ring.
Qed.

Lemma mul_comm_num (x y : num) : mul x y = mul y x.
Proof.
  destruct x as [ a | | | ], y as [ b | | | ]; unfold mul, sign;
    try reflexivity;
    try (f_equal; apply Qred_complete; ring);
    try (now destruct (a ?= 0)%Q); now destruct (b ?= 0)%Q.
Qed.

(** An element read from a flat array of numbers is a number or, out of
    range, [undefined]. *)
Lemma fromArray_nums (xs : list num) (i : num) :
  (exists n, Util.fromArray (nums xs) i = Num n)
  \/ Util.fromArray (nums xs) i = Undef.
Proof.
  unfold Util.fromArray, nums, index.
  destruct (to_index i) as [ k | ]; [ | now right ].
  destruct (Nat.lt_ge_cases k (List.length xs)) as [Hk | Hk].
  - left. exists (nth k xs NaN).
    rewrite (nth_indep _ Undef (Num NaN)) by now rewrite length_map.
    apply map_nth.
  - right. apply nth_overflow. now rewrite length_map.
Qed.

Lemma arrayCalc_arrays (a b : list value) (op : value -> value -> value) :
  Util.arrayCalc (Arr a) (Arr b) op
  = Arr (map (fun i =>
                op (Util.fromArray (Arr a) (rem (of_nat i) (of_nat (List.length a))))
                   (Util.fromArray (Arr b) (rem (of_nat i) (of_nat (List.length b)))))
           (seq 0 (Nat.max (List.length a) (List.length b)))).
Proof. reflexivity. Qed.

Lemma arrayCalc_flat_comm (xs ys : list num) (op : value -> value -> value) :
  (forall m n, op (Num m) (Num n) = op (Num n) (Num m)) ->
  (forall n, op (Num n) Undef = op Undef (Num n)) ->
  Util.arrayCalc (nums xs) (nums ys) op = Util.arrayCalc (nums ys) (nums xs) op.
Proof.
  intros Hnn Hnu. unfold nums. rewrite !arrayCalc_arrays.
  rewrite (Nat.max_comm (List.length (map Num ys))).
  f_equal. apply map_ext. intros i.
  fold (nums xs). fold (nums ys).
  destruct (fromArray_nums xs (rem (of_nat i) (of_nat (List.length (map Num xs)))))
    as [[m ->] | ->];
    destruct (fromArray_nums ys (rem (of_nat i) (of_nat (List.length (map Num ys)))))
    as [[n ->] | ->]; auto.
Qed.

Section Algebra.
Context {rt : Runtime}.

(** X6.  On flat arrays of numbers of any two lengths, the empty array
    included, [add] and [multiply] are commutative. *)
Theorem add_multiply_commutative (xs ys : list num) :
  Util.add (nums xs) (nums ys) = Util.add (nums ys) (nums xs)
  /\ Util.multiply (nums xs) (nums ys) = Util.multiply (nums ys) (nums xs).
Proof.
  split.
  - unfold Util.add. cbn [param nums].
    apply (arrayCalc_flat_comm xs ys).
    + intros m n. unfold js_plus. cbn [ToPrimitive ToNumber]. f_equal.
      apply add_comm_num.
    + intros n. unfold js_plus. cbn [ToPrimitive ToNumber]. f_equal.
      apply add_comm_num.
  - unfold Util.multiply. cbn [param nums].
    apply (arrayCalc_flat_comm xs ys).
    + intros m n. unfold js_times. cbn [ToNumber]. f_equal. apply mul_comm_num.
    + intros n. unfold js_times. cbn [ToNumber]. f_equal. apply mul_comm_num.
Qed.

End Algebra.

Lemma param_numeric (v d : value) : numeric v = true -> param v d = v.
Proof. destruct v; try discriminate; reflexivity. Qed.

Lemma param_map_numbers (f : num -> num) (v d : value) :
  numeric v = true -> param (map_numbers f v) d = map_numbers f v.
Proof. destruct v; try discriminate; reflexivity. Qed.

Lemma deep_map_numbers (g : value -> value) (h : num -> num) (v : value) :
  (forall n, g (Num n) = Num (h n)) ->
  numeric v = true ->
  deep_map g v = map_numbers h v.
Proof.
  intros Hg.
  induction v as [ | n | t | l IH ] using value_ind; simpl; try discriminate.
  - intros _. apply Hg.
  - intros H. apply forallb_Forall in H. f_equal.
    apply map_ext_in. intros x Hx.
    rewrite Forall_forall in IH, H. apply IH; auto.
Qed.

Lemma deep_map_on_numbers (g : value -> value) (h f : num -> num) (v : value) :
  (forall n, g (Num n) = Num (h n)) ->
  numeric v = true ->
  deep_map g (map_numbers f v) = map_numbers (fun x => h (f x)) v.
Proof.
  intros Hg.
  induction v as [ | n | t | l IH ] using value_ind; simpl; try discriminate.
  - intros _. apply Hg.
  - intros H. apply forallb_Forall in H. f_equal.
    rewrite map_map. apply map_ext_in. intros x Hx.
    rewrite Forall_forall in IH, H. apply IH; auto.
Qed.

Lemma map_numbers_finite_ext (f g : num -> num) (v : value) :
  (forall q, f (Fin q) = g (Fin q)) ->
  numeric v = true ->
  map_numbers f v = map_numbers g v.
Proof.
  intros Hfg.
  induction v as [ | n | t | l IH ] using value_ind; simpl; try discriminate.
  - destruct n; try discriminate. intros _. f_equal. apply Hfg.
  - intros H. apply forallb_Forall in H. f_equal.
    apply map_ext_in. intros x Hx.
    rewrite Forall_forall in IH, H. apply IH; auto.
Qed.

Section RoundTrips.
Context {rt : Runtime}.

(** In exact arithmetic, on a nested array of finite numbers in lowest
    terms: adding a finite scalar adds it to every number and keeps the
    nesting; subtracting the same scalar gives the array back, and so does
    dividing after multiplying by a scalar that is not zero. *)
Lemma scalar_arithmetic_exact (a : value) (k : Q) :
  numeric a = true ->
  in_lowest_terms a ->
  Util.add a (Num (Fin k)) = map_numbers (fun x => add x (Fin k)) a
  /\ Util.subtract (Util.add a (Num (Fin k))) (Num (Fin k)) = a
  /\ (~ (k == 0)%Q ->
      Util.divide (Util.multiply a (Num (Fin k))) (Num (Fin k)) = a).
Proof.
  intros Hnum Hlow.
  assert (Eadd : Util.add a (Num (Fin k)) = map_numbers (fun x => add x (Fin k)) a).
  { unfold Util.add. rewrite (@param_numeric a _ Hnum). cbn [param].
    rewrite (arrayCalc_scalar_right _ (Num (Fin k)) eq_refl).
    now apply deep_map_numbers. }
  split; [ exact Eadd | split ].
  - rewrite Eadd. unfold Util.subtract.
    rewrite (@param_map_numbers _ a _ Hnum). cbn [param].
    rewrite (arrayCalc_scalar_right _ (Num (Fin k)) eq_refl).
    rewrite (@deep_map_on_numbers _ (fun x => sub x (Fin k))) by auto.
    transitivity (map_numbers reduce a); [ | exact Hlow ].
    apply map_numbers_finite_ext; [ | exact Hnum ].
    intros q. unfold add, sub, reduce. f_equal. apply Qred_complete.
    rewrite Qred_correct. ring.
  - intros Hk.
    assert (Emul : Util.multiply a (Num (Fin k))
                   = map_numbers (fun x => mul x (Fin k)) a).
    { unfold Util.multiply. rewrite (@param_numeric a _ Hnum). cbn [param].
      rewrite (arrayCalc_scalar_right _ (Num (Fin k)) eq_refl).
      now apply deep_map_numbers. }
    rewrite Emul. unfold Util.divide.
    rewrite (@param_map_numbers _ a _ Hnum). cbn [param].
    rewrite (arrayCalc_scalar_right _ (Num (Fin k)) eq_refl).
    rewrite (@deep_map_on_numbers _ (fun x => div x (Fin k))) by auto.
    transitivity (map_numbers reduce a); [ | exact Hlow ].
    apply map_numbers_finite_ext; [ | exact Hnum ].
    intros q. unfold mul, div, reduce. rewrite (Qeq_bool_false Hk).
    f_equal. apply Qred_complete. rewrite Qred_correct. field. exact Hk.
Qed.

End RoundTrips.

(* ================================================================== *)
(** ** sum, and the range of normalize *)

Section Sum.
Context {rt : Runtime}.

Lemma sum_loop (vs : list value) :
  Forall finite_or_missing vs ->
  vs <> [] ->
  forall s0 : Q,
  exists u,
    fold_left (fun s v => js_plus s (if isNaN v then int 0 else v)) vs (Num (Fin s0))
    = Num (Fin (Qred u))
    /\ (u == s0 + finite_total vs)%Q.
Proof.
  induction 1 as [ | v vs Hv Hvs IH ]; intros Hne s0; [ congruence | ].
  assert (Hstep : exists x, js_plus (Num (Fin s0)) (if isNaN v then int 0 else v)
                            = Num (Fin (Qred (s0 + x)))
                            /\ (finite_total (v :: vs) == x + finite_total vs)%Q).
  { destruct Hv as [[q ->] | [-> | ->]].
    - exists q. split; reflexivity.
    - exists 0%Q. split; [ reflexivity | simpl; ring ].
    - exists 0%Q. split; [ reflexivity | simpl; ring ]. }
  destruct Hstep as (x & Ex & Et).
  cbn [fold_left]. rewrite Ex.
  destruct vs as [ | w vs ].
  - exists (s0 + x)%Q. split; [ reflexivity | ]. rewrite Et. simpl. ring.
  - destruct (IH ltac:(discriminate) (Qred (s0 + x))) as (u & Eu & Hu).
    exists u. split; [ exact Eu | ].
    rewrite Hu, Et, Qred_correct. ring.
Qed.

(** In exact arithmetic, on a nested array whose leaves are finite numbers,
    [NaN] or [undefined], [sum] is the sum of the finite numbers at every
    depth. *)
Lemma sum_exact (l : list value) :
  Forall finite_or_missing (flat_map Util.flat_all l) ->
  Util.sum (Arr l) = Num (Fin (Qred (finite_total (flat_map Util.flat_all l)))).
Proof.
  intros H. unfold Util.sum, Util.flatten. cbn [param Util.toArray].
  destruct (flat_map Util.flat_all l) as [ | v vs ] eqn:E; [ reflexivity | ].
  destruct (sum_loop H ltac:(discriminate) 0) as (u & Eu & Hu).
  etransitivity; [ exact Eu | ].
  do 2 f_equal. apply Qred_complete. rewrite Hu. ring.
Qed.

End Sum.

Lemma flat_all_map_numbers (f : num -> num) (v : value) :
  Util.flat_all (map_numbers f v) = map (map_numbers f) (Util.flat_all v).
Proof.
  induction v as [ | n | t | l IH ] using value_ind; try reflexivity.
  simpl. induction l as [ | x l IHl ]; [ reflexivity | ].
  inversion IH; subst. simpl. rewrite map_app. f_equal; auto.
Qed.

Section NormalizeRange.
Context {rt : Runtime}.

Lemma normalize_numeric_form (l : list value) :
  forallb numeric l = true ->
  Util.normalize (Arr l)
  = map_numbers
      (fun x => div (sub x (Math_min (flat_map Util.flat_all l)))
                    (sub (Math_max (flat_map Util.flat_all l))
                         (Math_min (flat_map Util.flat_all l))))
      (Arr l).
Proof.
  intros H. rewrite normalize_unfold. cbv zeta.
  pose proof (divisor_is_range l H) as D. cbv zeta in D. rewrite D.
  set (mn := Math_min (flat_map Util.flat_all l)).
  set (mx := Math_max (flat_map Util.flat_all l)).
  unfold Util.divide, Util.subtract. cbn [param].
  rewrite (arrayCalc_scalar_right _ (Num mn) eq_refl).
  rewrite (deep_map_minus_numeric mn (Arr l) H).
  cbn [map_numbers param].
  rewrite (arrayCalc_scalar_right _ (Num (sub mx mn)) eq_refl).
  exact (deep_map_divide_numbers (sub mx mn) (fun x => sub x mn) (Arr l) H).
Qed.

(** In exact arithmetic, on a nested array of finite numbers whose smallest
    number [a] is below its largest [b]: every number of [normalize] lies
    between 0 and 1, the smallest is sent to 0 and the largest to 1; and
    every number of [signedNormalize] lies between -1 and 1. *)
Lemma normalize_unit_range_exact (l : list value) (a b : Q) :
  forallb numeric l = true ->
  Util.minimum (Arr l) = Num (Fin a) ->
  Util.maximum (Arr l) = Num (Fin b) ->
  (a < b)%Q ->
  Forall (number_between 0 1) (Util.flat_all (Util.normalize (Arr l)))
  /\ (exists f, Util.normalize (Arr l) = map_numbers f (Arr l)
                /\ f (Fin a) = Fin 0 /\ f (Fin b) = Fin 1)
  /\ Forall (number_between (-1) 1)
       (Util.flat_all (Util.signedNormalize (Arr l))).
Proof.
  intros H Hmin Hmax Hab.
  assert (Emin : Math_min (flat_map Util.flat_all l) = Fin a)
    by (injection Hmin; auto).
  assert (Emax : Math_max (flat_map Util.flat_all l) = Fin b)
    by (injection Hmax; auto).
  pose proof (normalize_numeric_form l H) as Hform.
  rewrite Emin, Emax in Hform.
  set (f := fun x => div (sub x (Fin a)) (sub (Fin b) (Fin a))) in Hform.
  assert (Hdiv : Qeq_bool (Qred (b - a)) 0 = false).
  { apply Qeq_bool_false. rewrite Qred_correct. lra. }
  assert (Hf : forall x, f (Fin x) = Fin (Qred (Qred (x - a) / Qred (b - a)))).
  { intros x. unfold f, sub, div. now rewrite Hdiv. }
  assert (Hleaf : forall x, In (Num (Fin x)) (flat_map Util.flat_all l) ->
                            (a <= x /\ x <= b)%Q).
  { destruct (min_max_of_numeric l H) as [[E _] | (a' & b' & Ea & Eb & Hin)].
    - rewrite Emin in E. discriminate.
    - rewrite Emin in Ea. rewrite Emax in Eb.
      injection Ea as <-. injection Eb as <-. exact Hin. }
  assert (Hunit : forall x, (a <= x)%Q -> (x <= b)%Q ->
                            (0 <= Qred (Qred (x - a) / Qred (b - a))
                             /\ Qred (Qred (x - a) / Qred (b - a)) <= 1)%Q).
  { intros x H1 H2. rewrite !Qred_correct. split.
    - apply Qle_shift_div_l; lra.
    - apply Qle_shift_div_r; lra. }
  pose proof (numeric_list_leaves l H) as Hfin.
  split; [ | split ].
  - rewrite Hform, flat_all_map_numbers. cbn [Util.flat_all].
    apply Forall_forall. intros v Hv.
    apply in_map_iff in Hv. destruct Hv as (w & <- & Hw).
    rewrite Forall_forall in Hfin. destruct (Hfin w Hw) as [x ->].
    cbn [map_numbers]. rewrite Hf.
    destruct (Hleaf x Hw) as [H1 H2]. destruct (Hunit x H1 H2).
    eexists. split; [ reflexivity | now split ].
  - exists f. split; [ exact Hform | ].
    rewrite !Hf. split; f_equal.
    + transitivity (Qred 0); [ | reflexivity ]. apply Qred_complete.
      rewrite !Qred_correct. field. lra.
    + transitivity (Qred 1); [ | reflexivity ]. apply Qred_complete.
      rewrite !Qred_correct. field. lra.
  - unfold Util.signedNormalize. cbn [param]. rewrite Hform.
    unfold Util.subtract, Util.multiply. cbn [param map_numbers].
    rewrite (arrayCalc_scalar_right _ (int 2) eq_refl).
    rewrite (@deep_map_on_numbers _ (fun x => mul x (of_Z 2)) f (Arr l))
      by auto.
    cbn [map_numbers param].
    rewrite (arrayCalc_scalar_right _ (int 1) eq_refl).
    rewrite (@deep_map_on_numbers _ (fun x => sub x (of_Z 1))
               (fun x => mul (f x) (of_Z 2)) (Arr l)) by auto.
    rewrite flat_all_map_numbers. cbn [Util.flat_all].
    apply Forall_forall. intros v Hv.
    apply in_map_iff in Hv. destruct Hv as (w & <- & Hw).
    rewrite Forall_forall in Hfin. destruct (Hfin w Hw) as [x ->].
    cbn [map_numbers]. rewrite Hf.
    destruct (Hleaf x Hw) as [H1 H2]. destruct (Hunit x H1 H2) as [U1 U2].
    unfold mul, sub, of_Z.
    eexists. split; [ reflexivity | ].
    rewrite !Qred_correct in *.
    change (inject_Z 2) with 2%Q. change (inject_Z 1) with 1%Q.
    split; lra.
Qed.

End NormalizeRange.

(* ================================================================== *)
(** ** flatten *)

Lemma flat_all_no_array (v : value) :
  Forall (fun x => isArray x = false) (Util.flat_all v).
Proof.
  induction v as [ | n | t | l IH ] using value_ind;
    try (constructor; [ reflexivity | constructor ]).
  simpl. induction l as [ | x l IHl ]; simpl; [ constructor | ].
  inversion IH; subst. apply Forall_app. split; auto.
Qed.

Lemma flat_all_fixed (l : list value) :
  Forall (fun x => isArray x = false) l -> flat_map Util.flat_all l = l.
Proof.
  induction 1 as [ | x l Hx _ IH ]; [ reflexivity | ].
  simpl. rewrite IH. destruct x; try discriminate; reflexivity.
Qed.

Lemma flat_deep_enough (v : value) :
  forall (l : list value) (d : nat),
    v = Arr l ->
    (nesting v <= S d)%nat ->
    Util.flat d l = flat_map Util.flat_all l.
Proof.
  induction v as [ | n | t | l0 IH ] using value_ind; try discriminate.
  intros l d [= <-] Hd. simpl in Hd. apply Nat.succ_le_mono in Hd.
  revert Hd. induction l0 as [ | x l0 IHl ]; intros Hd; [ now destruct d | ].
  inversion IH as [ | ? ? Hx Hl ]; subst. simpl in Hd.
  assert (E : Util.flat d (x :: l0)
              = (match x, d with
                 | Arr l', S d' => Util.flat d' l'
                 | _, _ => [x]
                 end) ++ Util.flat d l0)
    by (destruct d; reflexivity).
  rewrite E. simpl flat_map. f_equal.
  - destruct x as [ | n | t | l' ]; try (now destruct d).
    assert (N : (1 <= nesting (Arr l'))%nat) by (cbn [nesting]; lia).
    destruct d as [ | d' ]; [ lia | ].
    apply (Hx l' d' eq_refl). lia.
  - apply IHl; [ exact Hl | lia ].
Qed.

(** X10.  The full [flatten] of an array holds no array, flattening it
    again changes nothing, and a finite depth that reaches the deepest
    nesting of the array gives the same result as the full [flatten]. *)
Theorem flatten_full (l : list value) :
  Forall (fun x => isArray x = false) (Util.flatten (Arr l) None)
  /\ Util.flatten (Arr (Util.flatten (Arr l) None)) None
     = Util.flatten (Arr l) None
  /\ forall d, (nesting (Arr l) <= S d)%nat ->
               Util.flatten (Arr l) (Some d) = Util.flatten (Arr l) None.
Proof.
  unfold Util.flatten. cbn [param Util.toArray].
  assert (H : Forall (fun x => isArray x = false) (flat_map Util.flat_all l))
    by apply (flat_all_no_array (Arr l)).
  split; [ exact H | split ].
  - now apply flat_all_fixed.
  - intros d Hd. now apply (flat_deep_enough (v := Arr l)).
Qed.

Lemma flatten_full_witness :
  (nesting (Arr [int 1; Arr [int 2; Arr [int 3]]]) <= S 2)%nat
  /\ Util.flatten (Arr [int 1; Arr [int 2; Arr [int 3]]]) (Some 2%nat)
     = Util.flatten (Arr [int 1; Arr [int 2; Arr [int 3]]]) None.
Proof.
  assert (H : (nesting (Arr [int 1; Arr [int 2; Arr [int 3]]]) <= S 2)%nat)
    by (simpl; lia).
  split; [ exact H | ].
  exact (proj2 (proj2 (flatten_full [int 1; Arr [int 2; Arr [int 3]]])) 2%nat H).
Defined.

(* ================================================================== *)
(** ** reverse and palindrome *)

(** X11.  Reversing an array twice gives it back.  Without [noDouble] the
    palindrome of an array reads the same in both directions and is twice
    as long as the array; with [noDouble] an array of at least two elements
    gives two elements less, and a shorter array gives itself. *)
Theorem reverse_and_palindrome (l : list value) :
  Transform.reverse (Transform.reverse (Arr l)) = Arr l
  /\ Transform.reverse (Transform.palindrome (Arr l) false)
     = Transform.palindrome (Arr l) false
  /\ Util.length (Transform.palindrome (Arr l) false) = (2 * List.length l)%nat
  /\ ((2 <= List.length l)%nat ->
      Util.length (Transform.palindrome (Arr l) true)
      = (2 * List.length l - 2)%nat)
  /\ ((List.length l <= 1)%nat -> Transform.palindrome (Arr l) true = Arr l).
Proof.
  split; [ | split; [ | split; [ | split ] ] ].
  - unfold Transform.reverse. cbn [param]. now rewrite rev_involutive.
  - unfold Transform.reverse, Transform.palindrome. cbn [param].
    now rewrite rev_app_distr, rev_involutive.
  - unfold Transform.palindrome, Util.length.
    rewrite length_app, length_rev. lia.
  - intros Hl. unfold Transform.palindrome, Util.length.
    rewrite length_app, length_rev.
    rewrite array_slice_inside by (rewrite ?length_rev; lia).
    rewrite length_firstn, length_skipn, length_rev. lia.
  - intros Hl. unfold Transform.palindrome.
    destruct l as [ | x [ | y l ] ]; try reflexivity. simpl in Hl. lia.
Qed.

Lemma reverse_and_palindrome_witness :
  ((2 <= List.length [int 1; int 2; int 3])%nat
   /\ Util.length (Transform.palindrome (Arr [int 1; int 2; int 3]) true)
      = (2 * List.length [int 1; int 2; int 3] - 2)%nat)
  /\ ((List.length [int 1] <= 1)%nat
      /\ Transform.palindrome (Arr [int 1]) true = Arr [int 1]).
Proof.
  assert (H : (2 <= List.length [int 1; int 2; int 3])%nat) by (simpl; lia).
  assert (H' : (List.length [int 1] <= 1)%nat) by (simpl; lia).
  split; (split; [ assumption | ]).
  - exact (proj1 (proj2 (proj2 (proj2
             (reverse_and_palindrome [int 1; int 2; int 3])))) H).
  - exact (proj2 (proj2 (proj2 (proj2 (reverse_and_palindrome [int 1])))) H').
Defined.

(* ================================================================== *)
(** ** More on rotate *)

Lemma rotate_items_cut (A : Type) (a : list A) (r : Z) :
  Transform.rotate_items a r
  = skipn (Z.to_nat ((- r) mod Z.of_nat (List.length a))) a
    ++ firstn (Z.to_nat ((- r) mod Z.of_nat (List.length a))) a.
Proof.
  destruct a as [ | d a' ] eqn:Ea;
    [ now rewrite skipn_nil, firstn_nil | ].
  rewrite <- Ea.
  assert (Hl : (0 < Z.of_nat (List.length a))%Z) by (rewrite Ea; simpl; lia).
  pose proof (Z.mod_pos_bound (- r) _ Hl) as Hk.
  set (k := Z.to_nat ((- r) mod Z.of_nat (List.length a))) in *.
  assert (Hk' : (k < List.length a)%nat) by (unfold k; lia).
  apply (nth_ext _ _ d d).
  - rewrite length_rotate_items, length_app, length_skipn, length_firstn. lia.
  - intros i Hi. rewrite length_rotate_items in Hi.
    rewrite nth_rotate_items by exact Hi.
    assert (E : ((Z.of_nat i - r) mod Z.of_nat (List.length a)
                 = (Z.of_nat i + Z.of_nat k) mod Z.of_nat (List.length a))%Z).
    { unfold k. rewrite Z2Nat.id by lia.
      rewrite Zplus_mod_idemp_r. f_equal; lia. }
    rewrite E.
    destruct (Nat.lt_ge_cases i (List.length a - k)) as [Hlt | Hge].
    + rewrite Z.mod_small by lia.
      rewrite app_nth1 by (rewrite length_skipn; lia).
      rewrite nth_skipn. f_equal. lia.
    + rewrite app_nth2 by (rewrite length_skipn; lia).
      rewrite length_skipn.
      rewrite nth_firstn.
      destruct (Nat.ltb_spec (i - (List.length a - k)) k); [ | lia ].
      f_equal.
      replace (Z.of_nat i + Z.of_nat k)%Z
        with (Z.of_nat (i - (List.length a - k)) + 1 * Z.of_nat (List.length a))%Z
        by lia.
      rewrite Z_mod_plus_full, Z.mod_small by lia. lia.
Qed.

(** On integer steps, in exact arithmetic, two rotations compose to the
    rotation by the sum of the steps. *)
Lemma rotate_compose_integer (l : list value) (m n : Z) :
  Transform.rotate (Transform.rotate (Arr l) m) n = Transform.rotate (Arr l) (m + n).
Proof.
  unfold Transform.rotate. cbn [param]. f_equal.
  destruct l as [ | d l' ] eqn:El; [ reflexivity | ]. rewrite <- El.
  assert (Hl : (0 < Z.of_nat (List.length l))%Z) by (rewrite El; simpl; lia).
  apply (nth_ext _ _ d d).
  - now rewrite !length_rotate_items.
  - intros i Hi. rewrite !length_rotate_items in Hi.
    rewrite nth_rotate_items by now rewrite length_rotate_items.
    rewrite length_rotate_items.
    pose proof (Z.mod_pos_bound (Z.of_nat i - n) _ Hl) as Hb.
    rewrite nth_rotate_items by lia.
    rewrite nth_rotate_items by exact Hi.
    rewrite Z2Nat.id by lia.
    rewrite Zminus_mod_idemp_l.
    now replace (Z.of_nat i - n - m)%Z with (Z.of_nat i - (m + n))%Z by lia.
Qed.

Lemma rotate_cut_permutation (l : list value) (r : Z) :
  exists k,
    (k <= List.length l)%nat
    /\ Transform.rotate (Arr l) r = Arr (skipn k l ++ firstn k l)
    /\ Util.length (Transform.rotate (Arr l) r) = List.length l
    /\ Permutation (skipn k l ++ firstn k l) l.
Proof.
  destruct l as [ | x l' ] eqn:El.
  { exists 0%nat. repeat split; [ apply Nat.le_refl | constructor ]. }
  rewrite <- El.
  assert (Hl : (0 < Z.of_nat (List.length l))%Z) by (rewrite El; simpl; lia).
  pose proof (Z.mod_pos_bound (- r) _ Hl) as Hb.
  exists (Z.to_nat ((- r) mod Z.of_nat (List.length l))).
  unfold Transform.rotate, Util.length. cbn [param].
  split; [ lia | split; [ | split ] ].
  - f_equal. apply rotate_items_cut.
  - apply length_rotate_items.
  - eapply Permutation_trans; [ apply Permutation_app_comm | ].
    now rewrite firstn_skipn.
Qed.

(* ================================================================== *)
(** ** lace and merge *)

Lemma longest_from (arrs : list (list value)) :
  forall m : nat,
    (m <= fold_left (fun l a => Nat.max (List.length a) l) arrs m)%nat
    /\ forall a, In a arrs ->
         (List.length a
          <= fold_left (fun l a => Nat.max (List.length a) l) arrs m)%nat.
Proof.
  induction arrs as [ | b arrs IH ]; intros m; simpl.
  - split; [ lia | intros a [] ].
  - destruct (IH (Nat.max (List.length b) m)) as [H1 H2].
    split; [ lia | ].
    intros a [<- | Ha]; [ lia | now apply H2 ].
Qed.

Lemma longest_ge (arrs : list (list value)) (a : list value) :
  In a arrs -> (List.length a <= Transform.longest arrs)%nat.
Proof. intros Ha. now apply (proj2 (longest_from arrs 0)). Qed.

Lemma flat_map_flat_map (A B C : Type) (f : A -> list B) (g : B -> list C)
  (l : list A) :
  flat_map g (flat_map f l) = flat_map (fun x => flat_map g (f x)) l.
Proof.
  induction l as [ | x l IH ]; [ reflexivity | ].
  simpl. now rewrite flat_map_app, IH.
Qed.

Lemma flat_map_seq_S (A : Type) (f : nat -> list A) (n : nat) :
  flat_map f (seq 0 (S n)) = f 0%nat ++ flat_map (fun i => f (S i)) (seq 0 n).
Proof.
  simpl. f_equal. rewrite <- seq_shift.
  induction (seq 0 n) as [ | i s IH ]; [ reflexivity | ].
  simpl. now rewrite IH.
Qed.

(** The elements of column [i] that [lace] pushes. *)
Lemma lace_column_tl (arrs : list (list value)) (i : nat) :
  flat_map (fun a => match nth (S i) a Undef with
                     | Undef => []
                     | v => [v]
                     end) arrs
  = flat_map (fun a => match nth i a Undef with
                       | Undef => []
                       | v => [v]
                       end) (map (@tl value) arrs).
Proof.
  induction arrs as [ | a arrs IH ]; [ reflexivity | ].
  simpl. rewrite IH. f_equal. destruct a as [ | x a ]; [ now destruct i | reflexivity ].
Qed.

Lemma lace_first_column (arrs : list (list value)) :
  Forall (Forall (fun v => v <> Undef)) arrs ->
  Permutation
    (flat_map (fun a => match nth 0 a Undef with
                        | Undef => []
                        | v => [v]
                        end) arrs
     ++ List.concat (map (@tl value) arrs))
    (List.concat arrs).
Proof.
  induction 1 as [ | a arrs Ha _ IH ]; [ constructor | ].
  simpl.
  destruct a as [ | x a ]; [ exact IH | ].
  inversion Ha as [ | ? ? Hx _ ]; subst.
  destruct x; [ congruence | | | ]; simpl; constructor;
    (eapply Permutation_trans; [ apply Permutation_app_swap_app | ]);
    apply Permutation_app_head; exact IH.
Qed.

Lemma lace_columns_permutation (n : nat) :
  forall arrs : list (list value),
    Forall (Forall (fun v => v <> Undef)) arrs ->
    (forall a, In a arrs -> (List.length a <= n)%nat) ->
    Permutation
      (flat_map (fun i =>
                   flat_map (fun a => match nth i a Undef with
                                      | Undef => []
                                      | v => [v]
                                      end) arrs) (seq 0 n))
      (List.concat arrs).
Proof.
  induction n as [ | n IH ]; intros arrs Hdef Hlen.
  - simpl. replace (List.concat arrs) with (@nil value); [ constructor | ].
    symmetry. apply concat_nil_Forall. apply Forall_forall. intros a Ha.
    specialize (Hlen a Ha). destruct a; [ reflexivity | simpl in Hlen; lia ].
  - rewrite flat_map_seq_S.
    eapply Permutation_trans; [ | apply (lace_first_column Hdef) ].
    apply Permutation_app_head.
    erewrite flat_map_ext; [ | intros i; apply lace_column_tl ].
    apply IH.
    + apply Forall_forall. intros t Ht. apply in_map_iff in Ht.
      destruct Ht as (a & <- & Ha). rewrite Forall_forall in Hdef.
      specialize (Hdef a Ha). destruct a; [ constructor | now inversion Hdef ].
    + intros t Ht. apply in_map_iff in Ht. destruct Ht as (a & <- & Ha).
      specialize (Hlen a Ha). destruct a; simpl in *; lia.
Qed.

(** X14.  When no element is [undefined], [lace] of one or more arrays is a
    permutation of their concatenation, so nothing is lost or added and the
    length is the sum of the lengths; an input that has run out is skipped,
    not padded. *)
Theorem lace_keeps_every_element (arrs : list (list value)) :
  arrs <> [] ->
  Forall (Forall (fun v => v <> Undef)) arrs ->
  exists r,
    Transform.lace (map Arr arrs) = Arr r
    /\ Permutation r (List.concat arrs)
    /\ List.length r = List.length (List.concat arrs).
Proof.
  intros Hne Hdef.
  unfold Transform.lace.
  rewrite length_map.
  destruct (Nat.eqb_spec (List.length arrs) 0) as [E | _];
    [ destruct arrs; [ congruence | discriminate ] | ].
  rewrite map_map. cbn [Util.toArray]. rewrite map_id.
  eexists. split; [ reflexivity | ].
  assert (P : Permutation
                (flat_map (fun i =>
                             flat_map (fun a => match nth i a Undef with
                                                | Undef => []
                                                | v => [v]
                                                end) arrs)
                   (seq 0 (Transform.longest arrs)))
                (List.concat arrs)).
  { apply lace_columns_permutation; [ exact Hdef | ].
    intros a Ha. now apply longest_ge. }
  split; [ exact P | now apply Permutation_length ].
Qed.

Lemma lace_keeps_every_element_witness :
  [[int 0; int 5; int 9]; [Str "c"]] <> []
  /\ Forall (Forall (fun v => v <> Undef)) [[int 0; int 5; int 9]; [Str "c"]]
  /\ exists r,
      Transform.lace (map Arr [[int 0; int 5; int 9]; [Str "c"]]) = Arr r
      /\ Permutation r (List.concat [[int 0; int 5; int 9]; [Str "c"]])
      /\ List.length r = List.length (List.concat [[int 0; int 5; int 9]; [Str "c"]]).
Proof.
  assert (H1 : [[int 0; int 5; int 9]; [Str "c"]] <> []) by discriminate.
  assert (H2 : Forall (Forall (fun v => v <> Undef))
                 [[int 0; int 5; int 9]; [Str "c"]]).
  { repeat (apply Forall_cons || apply Forall_nil); discriminate. }
  split; [ exact H1 | split; [ exact H2 | ] ].
  exact (lace_keeps_every_element H1 H2).
Defined.

Lemma flat_zero (l : list value) : Util.flat 0 l = l.
Proof.
  induction l as [ | x l IH ]; [ reflexivity | ].
  change (Util.flat 0 (x :: l))
    with ((match x with Arr _ => [x] | _ => [x] end) ++ Util.flat 0 l).
  rewrite IH. now destruct x.
Qed.

Lemma flat_one (l : list value) :
  Util.flat 1 l = flat_map (fun x => match x with
                                     | Arr l' => l'
                                     | _ => [x]
                                     end) l.
Proof.
  unfold Util.flat at 1. apply flat_map_ext. intros x.
  destruct x; try reflexivity. apply flat_zero.
Qed.

(** X15.  [merge] returns one group for each position of the longest input,
    and flattening the groups by one level gives what flattening [lace] of
    the same inputs by one level gives: the two differ in the grouping only. *)
Theorem merge_groups_lace (arrs : list value) :
  (arrs <> [] ->
   Util.length (Transform.merge arrs)
   = Transform.longest (map Util.toArray arrs))
  /\ Util.flat 1 (Util.toArray (Transform.merge arrs))
     = Util.flat 1 (Util.toArray (Transform.lace arrs)).
Proof.
  unfold Transform.merge, Transform.lace.
  destruct (Nat.eqb_spec (List.length arrs) 0) as [E | N].
  - split; [ intros H; destruct arrs; [ congruence | discriminate ] | reflexivity ].
  - split.
    + intros _. unfold Util.length. now rewrite length_map, length_seq.
    + cbn [Util.toArray]. rewrite !flat_one.
      rewrite flat_map_flat_map.
      rewrite flat_map_concat_map, map_map, <- flat_map_concat_map.
      apply flat_map_ext. intros i.
      rewrite flat_map_flat_map.
      apply flat_map_ext. intros a.
      destruct (nth i a Undef); simpl; now rewrite ?app_nil_r.
Qed.

Lemma merge_groups_lace_witness :
  [Arr [int 0; int 5; int 9]; Arr [Str "c"; Arr [int 1; int 2]]; int 7] <> []
  /\ Util.length
       (Transform.merge
          [Arr [int 0; int 5; int 9]; Arr [Str "c"; Arr [int 1; int 2]]; int 7])
     = 3%nat.
Proof.
  assert (H : [Arr [int 0; int 5; int 9]; Arr [Str "c"; Arr [int 1; int 2]]; int 7]
              <> []) by discriminate.
  split; [ exact H | ].
  exact (proj1 (merge_groups_lace
                  [Arr [int 0; int 5; int 9]; Arr [Str "c"; Arr [int 1; int 2]]; int 7])
           H).
Defined.

(* ================================================================== *)
(** ** lookup *)

Lemma flat_map_singleton (A B : Type) (f : A -> B) (l : list A) :
  flat_map (fun x => [f x]) l = map f l.
Proof. induction l as [ | x l IH ]; simpl; [ reflexivity | now rewrite IH ]. Qed.

Lemma flat_map_map' (A B C : Type) (g : A -> B) (f : B -> list C) (l : list A) :
  flat_map f (map g l) = flat_map (fun x => f (g x)) l.
Proof. induction l as [ | x l IH ]; simpl; [ reflexivity | now rewrite IH ]. Qed.

Section Lookup.
Context {rt : Runtime}.

Lemma lookup_array (items arr : list value) :
  Transform.lookup (Arr items) (Arr arr)
  = Arr (flat_map
           (fun v =>
              match v with
              | Arr _ => [Transform.lookup v (Arr arr)]
              | _ =>
                  if negb (isNaN v) then
                    [index arr
                       (rem (add (rem (floor (ToNumber v))
                                    (of_nat (List.length arr)))
                               (of_nat (List.length arr)))
                          (of_nat (List.length arr)))]
                  else []
              end) items).
Proof. reflexivity. Qed.

Lemma lookup_integers (idx : list Z) (arr : list value) :
  arr <> [] ->
  Transform.lookup (Arr (map int idx)) (Arr arr)
  = Arr (map (fun z => nth (Z.to_nat (z mod Z.of_nat (List.length arr))) arr Undef)
           idx).
Proof.
  intros Hne.
  assert (HL : (0 < Z.of_nat (List.length arr))%Z)
    by (destruct arr; [ congruence | simpl; lia ]).
  rewrite lookup_array, flat_map_map'. f_equal.
  rewrite <- flat_map_singleton. apply flat_map_ext. intros z.
  unfold int. cbn [isNaN ToNumber of_Z negb].
  change (Fin (inject_Z z)) with (of_Z z). rewrite floor_of_Z.
  unfold of_nat. rewrite euclid_of_Z by exact HL.
  rewrite index_of_Z by (apply Z.mod_pos_bound; exact HL).
  reflexivity.
Qed.

(** X16.  With integer indices and a non-empty array of values, [lookup]
    returns for each index [z] the value at the non-negative remainder of [z]
    by the length: negative indices count from the end, indices beyond the
    end wrap around, the indices 0 to length - 1 give the array back, and
    moving every index by a multiple of the length changes nothing. *)
Theorem lookup_wraps_indices (idx : list Z) (arr : list value) :
  arr <> [] ->
  Transform.lookup (Arr (map int idx)) (Arr arr)
  = Arr (map (fun z => nth (Z.to_nat (z mod Z.of_nat (List.length arr))) arr Undef)
           idx)
  /\ Transform.lookup
       (Arr (map int (map Z.of_nat (seq 0 (List.length arr))))) (Arr arr)
     = Arr arr
  /\ forall k : Z,
       Transform.lookup
         (Arr (map int (map (fun z => (z + k * Z.of_nat (List.length arr))%Z) idx)))
         (Arr arr)
       = Transform.lookup (Arr (map int idx)) (Arr arr).
Proof.
  intros Hne.
  assert (HL : (0 < Z.of_nat (List.length arr))%Z)
    by (destruct arr; [ congruence | simpl; lia ]).
  split; [ now apply lookup_integers | split ].
  - rewrite lookup_integers by exact Hne. f_equal.
    rewrite map_map.
    apply (nth_ext _ _ Undef Undef).
    + now rewrite length_map, length_seq.
    + intros i Hi. rewrite length_map, length_seq in Hi.
      rewrite nth_map_seq by exact Hi.
      rewrite Z.mod_small by lia. now rewrite Nat2Z.id.
  - intros k. rewrite !lookup_integers by exact Hne. f_equal.
    rewrite map_map. apply map_ext. intros z.
    now rewrite Z_mod_plus_full.
Qed.

(** X17.  [rotate] is a [lookup]: looking up the indices [0 - r], [1 - r],
    ... in an array gives the array rotated by [r]. *)
Theorem lookup_shifted_is_rotate (arr : list value) (r : Z) :
  Transform.lookup
    (Arr (map int (map (fun i => (Z.of_nat i - r)%Z) (seq 0 (List.length arr)))))
    (Arr arr)
  = Transform.rotate (Arr arr) r.
Proof.
  destruct arr as [ | x arr' ] eqn:E; [ reflexivity | ]. rewrite <- E.
  assert (Hne : arr <> []) by (rewrite E; discriminate).
  rewrite lookup_integers by exact Hne.
  unfold Transform.rotate. cbn [param]. f_equal.
  rewrite map_map.
  apply (nth_ext _ _ Undef Undef).
  - now rewrite length_map, length_seq, length_rotate_items.
  - intros i Hi. rewrite length_map, length_seq in Hi.
    rewrite nth_map_seq by exact Hi.
    now rewrite nth_rotate_items by exact Hi.
Qed.

(** X18.  [lookup] in the empty array gives [undefined] for every integer
    index, and an index that is [NaN] or [undefined] gives no element at
    all, so the result can be shorter than the list of indices. *)
Theorem lookup_edge_cases (idx : list Z) (arr : list value) :
  Transform.lookup (Arr (map int idx)) (Arr []) = Arr (map (fun _ => Undef) idx)
  /\ Transform.lookup (Arr [Num NaN; Undef]) (Arr arr) = Arr []
  /\ forall z, Transform.lookup (Arr [Num NaN; int z; Undef]) (Arr arr)
               = Transform.lookup (Arr [int z]) (Arr arr).
Proof.
  split; [ | split ].
  - rewrite lookup_array, flat_map_map'.
    f_equal; try (rewrite <- flat_map_singleton; now apply flat_map_ext).
  - reflexivity.
  - intros z. reflexivity.
Qed.

End Lookup.

Lemma lookup_wraps_indices_witness :
  [int 10; int 20; int 30] <> []
  /\ Transform.lookup (rt := constant_runtime)
       (Arr (map int [(-1)%Z; 4%Z])) (Arr [int 10; int 20; int 30])
     = Arr [int 30; int 20].
Proof.
  assert (H : [int 10; int 20; int 30] <> []) by discriminate.
  split; [ exact H | ].
  exact (proj1 (lookup_wraps_indices (rt := constant_runtime)
                  [(-1)%Z; 4%Z] H)).
Defined.

(* ================================================================== *)
(** ** repeat *)

Lemma map_nth_seq (A : Type) (l : list A) (d : A) :
  map (fun i => nth i l d) (seq 0 (List.length l)) = l.
Proof.
  apply (nth_ext _ _ d d).
  - now rewrite length_map, length_seq.
  - intros i Hi. rewrite length_map, length_seq in Hi.
    now rewrite nth_map_seq.
Qed.

Lemma fold_left_option_append (A B : Type) (F : option (list B) -> A -> option (list B))
  (G : A -> list B) (l : list A) :
  (forall acc x, In x l -> F (Some acc) x = Some (acc ++ G x)) ->
  forall acc, fold_left F l (Some acc) = Some (acc ++ flat_map G l).
Proof.
  induction l as [ | x l IH ]; intros HF acc; simpl.
  - now rewrite app_nil_r.
  - rewrite HF by now left. rewrite IH by (intros; apply HF; now right).
    now rewrite <- app_assoc.
Qed.

Lemma turns_of_Z (z : Z) : turns (of_Z z) = Some (Z.to_nat z).
Proof. unfold turns, of_Z. now rewrite Qceiling_Z. Qed.

Lemma ltb_of_Z (a b : Z) : ltb (of_Z a) (of_Z b) = (a <? b)%Z.
Proof.
  unfold ltb, of_Z.
  destruct (Z.ltb_spec a b) as [H | H].
  - rewrite Qle_bool_false; [ reflexivity | ]. now rewrite <- Zlt_Qlt.
  - rewrite Qle_bool_true; [ reflexivity | ]. now rewrite <- Zle_Qle.
Qed.

Section Repeat.
Context {rt : Runtime}.

(** X19.  With integer counts, [repeat] writes element [i] as many times as
    the count at position [i] modulo the number of counts says, a negative
    count standing for 0; the count 1 gives the array back, and an empty
    array of counts gives the empty array. *)
Theorem repeat_by_counts (l : list value) (reps : list Z) :
  (reps <> [] ->
   Transform.repeat (Arr l) (Arr (map int reps))
   = Some (Arr (flat_map
                  (fun i =>
                     List.repeat (nth i l Undef)
                       (Z.to_nat (nth (i mod List.length reps) reps 0%Z)))
                  (seq 0 (List.length l)))))
  /\ Transform.repeat (Arr l) (int 1) = Some (Arr l)
  /\ Transform.repeat (Arr l) (Arr []) = Some (Arr []).
Proof.
  assert (Hstep : forall reps : list Z, reps <> [] ->
            Transform.repeat (Arr l) (Arr (map int reps))
            = Some (Arr (flat_map
                           (fun i =>
                              List.repeat (nth i l Undef)
                                (Z.to_nat (nth (i mod List.length reps) reps 0%Z)))
                           (seq 0 (List.length l))))).
  { clear reps. intros reps Hne. unfold Transform.repeat.
    cbn [param Util.toArray].
    rewrite (fold_left_option_append _
               (fun i => List.repeat (nth i l Undef)
                           (Z.to_nat (nth (i mod List.length reps) reps 0%Z))));
      [ reflexivity | ].
    intros acc i _.
    rewrite length_map.
    rewrite rem_of_nat by (destruct reps; [ congruence | discriminate ]).
    rewrite index_of_nat.
    assert (Hi : (i mod List.length reps < List.length reps)%nat)
      by (apply Nat.mod_upper_bound; destruct reps; [ congruence | discriminate ]).
    rewrite (nth_indep _ Undef (int 0)) by now rewrite length_map.
    rewrite (map_nth int).
    set (z := nth (i mod List.length reps) reps 0%Z).
    change (isNaN (int z)) with false. cbn [orb].
    change (ToNumber (int z)) with (of_Z z). rewrite ltb_of_Z.
    destruct (Z.ltb_spec z 0) as [Hz | Hz].
    - change (ToNumber (int 0)) with (of_Z 0). rewrite turns_of_Z.
      now replace (Z.to_nat z) with (Z.to_nat 0) by lia.
    - change (ToNumber (int z)) with (of_Z z). now rewrite turns_of_Z. }
  split; [ now apply Hstep | split ].
  - change (Transform.repeat (Arr l) (int 1))
      with (Transform.repeat (Arr l) (Arr (map int [1%Z]))).
    rewrite Hstep by discriminate. do 2 f_equal.
    rewrite <- (map_nth_seq l Undef) at 2.
    rewrite <- flat_map_singleton. apply flat_map_ext. intros i.
    now rewrite Nat.mod_1_r.
  - unfold Transform.repeat. cbn [param Util.toArray].
    rewrite (fold_left_option_append _ (fun _ => [])); [ | reflexivity ].
    assert (E : forall s : list nat, flat_map (fun _ : nat => @nil value) s = [])
      by (intros s; induction s; auto).
    now rewrite E.
Qed.

End Repeat.

Lemma repeat_by_counts_witness :
  [2%Z; 0%Z; (-1)%Z] <> []
  /\ Transform.repeat (rt := constant_runtime)
       (Arr [int 1; int 2; int 3; int 4]) (Arr (map int [2%Z; 0%Z; (-1)%Z]))
     = Some (Arr [int 1; int 1; int 4; int 4]).
Proof.
  assert (H : [2%Z; 0%Z; (-1)%Z] <> []) by discriminate.
  split; [ exact H | ].
  exact (proj1 (repeat_by_counts (rt := constant_runtime)
                  [int 1; int 2; int 3; int 4] [2%Z; 0%Z; (-1)%Z]) H).
Defined.

(* ================================================================== *)
(** ** spray *)

Section Spray.
Context {rt : Runtime}.

Lemma spray_loop (values : list value) (bs : list num) :
  values <> [] ->
  forall (arr : list value) (c : nat),
  exists R,
    fst (fold_left
           (fun '(arr, c) b =>
              if gtb (ToNumber b) (of_Z 0)
              then (arr ++ [index values
                              (rem (of_nat c) (of_nat (List.length values)))], S c)
              else (arr ++ [b], c))
           (map Num bs) (arr, c))
    = arr ++ R
    /\ List.length R = List.length bs
    /\ forall i, (i < List.length bs)%nat ->
         nth i R Undef
         = if gtb (nth i bs NaN) (of_Z 0)
           then nth ((c + List.length
                            (filter (fun b => gtb b (of_Z 0)) (firstn i bs)))
                     mod List.length values) values Undef
           else Num (nth i bs NaN).
Proof.
  intros Hv. induction bs as [ | b bs IH ]; intros arr c.
  - exists []. simpl. rewrite app_nil_r. repeat split. intros i Hi. lia.
  - cbn [map fold_left ToNumber].
    destruct (gtb b (of_Z 0)) eqn:Eb.
    + destruct (IH (arr ++ [index values
                              (rem (of_nat c) (of_nat (List.length values)))])
                  (S c)) as (R & ER & HL & HR).
      eexists (_ :: R). split; [ rewrite ER, <- app_assoc; reflexivity | ].
      split; [ simpl; now rewrite HL | ].
      intros [ | i ] Hi; cbn [nth firstn filter].
      * rewrite Eb. cbn [List.length]. rewrite Nat.add_0_r.
        rewrite rem_of_nat by (destruct values; [ congruence | discriminate ]).
        apply index_of_nat.
      * rewrite Eb. cbn [List.length]. simpl in Hi.
        rewrite HR by lia. now rewrite Nat.add_succ_r.
    + destruct (IH (arr ++ [Num b]) c) as (R & ER & HL & HR).
      exists (Num b :: R). split; [ rewrite ER, <- app_assoc; reflexivity | ].
      split; [ simpl; now rewrite HL | ].
      intros [ | i ] Hi; cbn [nth firstn filter].
      * now rewrite Eb.
      * rewrite Eb. simpl in Hi. now rewrite HR by lia.
Qed.

(** X20.  [spray] keeps the length of the beats; a beat that is not above 0
    ([NaN] included) stays as it is, and the beats above 0, taken from left
    to right, receive the values in order, starting again at the first value
    when the values run out. *)
Theorem spray_fills_positive_beats (values : list value) (bs : list num) :
  values <> [] ->
  exists r,
    Transform.spray (Arr values) (nums bs) = Arr r
    /\ List.length r = List.length bs
    /\ forall i, (i < List.length bs)%nat ->
         nth i r Undef
         = if gtb (nth i bs NaN) (of_Z 0)
           then nth (List.length
                       (filter (fun b => gtb b (of_Z 0)) (firstn i bs))
                     mod List.length values) values Undef
           else Num (nth i bs NaN).
Proof.
  intros Hv. unfold Transform.spray, nums. cbn [param Util.toArray].
  destruct (spray_loop bs Hv [] 0) as (R & ER & HL & HR).
  exists R. split; [ now rewrite ER | split; [ exact HL | exact HR ] ].
Qed.

End Spray.

Lemma spray_fills_positive_beats_witness :
  [int 5; int 6] <> []
  /\ exists r,
      Transform.spray (rt := constant_runtime) (Arr [int 5; int 6])
        (nums [of_Z 1; of_Z 0; of_Z 1; of_Z 1])
      = Arr r
      /\ List.length r = 4%nat.
Proof.
  assert (H : [int 5; int 6] <> []) by discriminate.
  split; [ exact H | ].
  destruct (spray_fills_positive_beats (rt := constant_runtime)
              [of_Z 1; of_Z 0; of_Z 1; of_Z 1] H) as (r & Er & Hl & _).
  exists r. split; [ exact Er | exact Hl ].
Defined.

(* ================================================================== *)
(** ** padding and every *)

Lemma rotate_items_zero (A : Type) (a : list A) : Transform.rotate_items a 0 = a.
Proof.
  rewrite rotate_items_cut.
  destruct a as [ | x a ]; [ reflexivity | ].
  rewrite Z.mod_0_l by (simpl; lia). simpl. now rewrite app_nil_r.
Qed.

Lemma fill_empty_slots (n : nat) (pad : value) :
  Transform.fill (repeat None n) pad = repeat pad n.
Proof. unfold Transform.fill. apply map_repeat. Qed.

(* ================================================================== *)
(** ** filterType *)

Lemma findIndex_none (p : value -> bool) (a : list value) :
  Transform.findIndex p a = None ->
  filter p a = [] /\ filter (fun v => negb (p v)) a = a.
Proof.
  induction a as [ | x a IH ]; simpl; [ now split | ].
  destruct (p x) eqn:E; [ discriminate | ].
  destruct (Transform.findIndex p a); [ discriminate | ].
  intros _. destruct (IH eq_refl) as [H1 H2]. simpl. now rewrite H2.
Qed.

Lemma findIndex_some (p : value -> bool) (a : list value) (i : nat) :
  Transform.findIndex p a = Some i ->
  nth i a Undef :: filter p (Transform.splice1 a i) = filter p a
  /\ filter (fun v => negb (p v)) (Transform.splice1 a i)
     = filter (fun v => negb (p v)) a
  /\ (List.length (Transform.splice1 a i) < List.length a)%nat.
Proof.
  revert i. induction a as [ | x a IH ]; intros i; simpl; [ discriminate | ].
  destruct (p x) eqn:E.
  - intros [= <-]. unfold Transform.splice1. simpl. repeat split; lia.
  - destruct (Transform.findIndex p a) as [ j | ]; [ | discriminate ].
    intros [= <-]. destruct (IH j eq_refl) as (H1 & H2 & H3).
    change (Transform.splice1 (x :: a) (S j)) with (x :: Transform.splice1 a j).
    cbn [nth filter List.length]. rewrite E. cbn [negb].
    repeat split; [ exact H1 | now rewrite H2 | lia ].
Qed.

Lemma take_type_spec (type : string) (fuel : nat) :
  forall array filtered : list value,
    (List.length array <= fuel)%nat ->
    Transform.take_type fuel type (array, filtered)
    = Some (filter (fun v => negb (String.eqb (typeof v) type)) array,
            filtered ++ filter (fun v => String.eqb (typeof v) type) array).
Proof.
  induction fuel as [ | fuel IH ]; intros array filtered Hlen.
  - destruct array; [ | simpl in Hlen; lia ]. simpl. now rewrite app_nil_r.
  - cbn [Transform.take_type].
    destruct (Transform.findIndex (fun v => String.eqb (typeof v) type) array)
      as [ index | ] eqn:E.
    + destruct (findIndex_some _ _ E) as (H1 & H2 & H3).
      rewrite IH by lia. rewrite H2, <- app_assoc. simpl. now rewrite H1.
    + destruct (findIndex_none _ _ E) as [H1 H2].
      now rewrite H1, H2, app_nil_r.
Qed.

Lemma filterType_loop (fuel : nat) (types : list string) :
  forall array filtered : list value,
    (List.length array <= fuel)%nat ->
    fold_left (fun st type =>
                 match st with
                 | Some st => Transform.take_type fuel type st
                 | None => None
                 end) types (Some (array, filtered))
    = Some (fold_left (fun a t => filter (fun v => negb (String.eqb (typeof v) t)) a)
              types array,
            filtered ++ grouped array types).
Proof.
  induction types as [ | t ts IH ]; intros array filtered Hlen; simpl.
  - now rewrite app_nil_r.
  - rewrite take_type_spec by exact Hlen.
    rewrite IH.
    + now rewrite <- app_assoc.
    + eapply Nat.le_trans; [ apply filter_length_le | exact Hlen ].
Qed.

(** X23.  Given at least as many turns as the array has elements,
    [filterType] returns the values of the listed types, grouped by type in
    the order of the list and in the order of the array inside a group; for
    one type that is the array filtered by the type, a value of no listed
    type never appears, and naming a type twice adds nothing. *)
Theorem filterType_groups_by_type (fuel : nat) (a : list value)
  (types : list string) :
  (List.length a <= fuel)%nat ->
  Transform.filterType fuel (Arr a) types = Some (Arr (grouped a types))
  /\ (forall t, Transform.filterType fuel (Arr a) [t]
                = Some (Arr (filter (fun v => String.eqb (typeof v) t) a)))
  /\ (forall t, Transform.filterType fuel (Arr a) [t; t]
                = Transform.filterType fuel (Arr a) [t])
  /\ Forall (fun v => In (typeof v) types) (grouped a types).
Proof.
  intros Hlen.
  assert (Hmain : forall ts, Transform.filterType fuel (Arr a) ts
                             = Some (Arr (grouped a ts))).
  { intros ts. unfold Transform.filterType. cbn [param Util.toArray].
    now rewrite filterType_loop by exact Hlen. }
  split; [ apply Hmain | split; [ | split ] ].
  - intros t. rewrite Hmain. simpl. now rewrite app_nil_r.
  - intros t. rewrite !Hmain. simpl. do 2 f_equal. f_equal.
    rewrite app_nil_r.
    assert (E : filter (fun v => String.eqb (typeof v) t)
                  (filter (fun v => negb (String.eqb (typeof v) t)) a) = []).
    { clear Hlen Hmain. induction a as [ | x a' IH ]; [ reflexivity | ].
      simpl. destruct (String.eqb (typeof x) t) eqn:Ex; simpl.
      - apply IH.
      - rewrite Ex. apply IH. }
    now rewrite E.
  - clear Hlen Hmain. revert a.
    induction types as [ | t ts IH ]; intros a; simpl; [ constructor | ].
    apply Forall_app. split.
    + apply Forall_forall. intros v Hv. apply filter_In in Hv.
      destruct Hv as [_ Hv]. apply String.eqb_eq in Hv. now left.
    + eapply Forall_impl; [ | apply IH ]. intros v Hv. now right.
Qed.

Lemma filterType_groups_by_type_witness :
  (List.length [int 0; Str "a"; Arr [int 1]; int 2] <= 4)%nat
  /\ Transform.filterType 4 (Arr [int 0; Str "a"; Arr [int 1]; int 2])
       ["string"%string; "number"%string]
     = Some (Arr [Str "a"; int 0; int 2]).
Proof.
  assert (H : (List.length [int 0; Str "a"; Arr [int 1]; int 2] <= 4)%nat)
    by (simpl; lia).
  split; [ exact H | ].
  exact (proj1 (@filterType_groups_by_type 4
                  [int 0; Str "a"; Arr [int 1]; int 2]
                  ["string"%string; "number"%string] H)).
Defined.

(* ================================================================== *)
(** ** split and slice together *)

Lemma segments_are_pieces (l : list value) (sizes : list Z) :
  Forall (fun z => (0 < z)%Z) sizes ->
  forall start : Z,
    (0 <= start)%Z ->
    (start + total sizes <= Z.of_nat (List.length l))%Z ->
    segments l start sizes = pieces (skipn (Z.to_nat start) l) sizes.
Proof.
  induction 1 as [ | n sizes Hn Hpos IH ]; intros start Hs Hle; [ reflexivity | ].
  pose proof (total_nonneg Hpos) as Ht. simpl in Hle |- *.
  rewrite array_slice_inside by lia.
  replace (start + n - start)%Z with n by lia. f_equal.
  rewrite IH by lia.
  now rewrite Z2Nat.inj_add, skipn_plus by lia.
Qed.

Lemma split_exact (rest : list Z) :
  Forall (fun z => (0 < z)%Z) rest ->
  rest <> [] ->
  forall (l : list value) (done : list Z) (m : nat),
    total rest = Z.of_nat (List.length l) ->
    (List.length rest <= m)%nat ->
    Transform.split m (Arr l) (rest ++ done) = Some (pieces l rest).
Proof.
  induction 1 as [ | z rest Hz Hpos IH ]; intros Hne l done m Htot Hm;
    [ congruence | ].
  destruct m as [ | m ]; [ simpl in Hm; lia | ].
  simpl app. rewrite split_cut by exact Hz.
  pose proof (total_nonneg Hpos) as Ht. simpl in Htot.
  destruct rest as [ | y rest ].
  - simpl in Htot.
    rewrite skipn_all2 by lia. reflexivity.
  - assert (Hlen : (1 <= List.length (skipn (Z.to_nat z) l))%nat).
    { rewrite length_skipn. inversion Hpos; subst. simpl in Htot, Ht.
      pose proof (total_nonneg H2). lia. }
    destruct (Nat.ltb_spec (List.length (skipn (Z.to_nat z) l)) 1); [ lia | ].
    rewrite <- app_assoc.
    rewrite IH; [ reflexivity | discriminate | | simpl in Hm |- *; lia ].
    rewrite length_skipn. lia.
Qed.

(** X25.  When the sizes are all positive and add up to the length of the
    array, [split] and [slice] cut the same chunks, with or without
    [keepRest], and the lengths of the chunks are the sizes. *)
Theorem split_equals_slice_on_exact_sizes (l : list value) (s : list Z) :
  s <> [] ->
  Forall (fun z => (0 < z)%Z) s ->
  total s = Z.of_nat (List.length l) ->
  (forall m, (List.length s <= m)%nat ->
             Transform.split m (Arr l) s = Some (Transform.slice (Arr l) s false))
  /\ Transform.slice (Arr l) s true = Transform.slice (Arr l) s false
  /\ map (@List.length value) (Transform.slice (Arr l) s false) = map Z.to_nat s.
Proof.
  intros Hne Hpos Htot.
  assert (Hs : positives s = s).
  { unfold positives. apply forallb_filter_id. apply forallb_forall.
    rewrite Forall_forall in Hpos. intros z Hz. apply Z.ltb_lt. now apply Hpos. }
  assert (E0 : Transform.slice (Arr l) s false = pieces l s).
  { unfold Transform.slice. cbn [param Util.toArray].
    rewrite slice_loop, Hs. cbn [app].
    now rewrite (@segments_are_pieces l s Hpos 0) by lia. }
  split; [ | split ].
  - intros m Hm. rewrite E0.
    rewrite <- (app_nil_r s) at 1. now apply split_exact.
  - rewrite E0. unfold Transform.slice. cbn [param Util.toArray].
    rewrite slice_loop, Hs. cbn [app].
    rewrite array_slice_inside by lia.
    rewrite skipn_all2 by lia. rewrite firstn_nil. cbn [List.length Nat.ltb Nat.leb].
    now rewrite (@segments_are_pieces l s Hpos 0) by lia.
  - unfold Transform.slice. cbn [param Util.toArray].
    rewrite slice_loop, Hs. cbn [app].
    now apply (segments_inside l Hpos (start := 0)); lia.
Qed.

Lemma split_equals_slice_on_exact_sizes_witness :
  [2%Z; 1%Z] <> []
  /\ Forall (fun z => (0 < z)%Z) [2%Z; 1%Z]
  /\ total [2%Z; 1%Z] = Z.of_nat (List.length [int 7; int 8; int 9])
  /\ Transform.split 2 (Arr [int 7; int 8; int 9]) [2%Z; 1%Z]
     = Some (Transform.slice (Arr [int 7; int 8; int 9]) [2%Z; 1%Z] false).
Proof.
  assert (H1 : [2%Z; 1%Z] <> []) by discriminate.
  assert (H2 : Forall (fun z => (0 < z)%Z) [2%Z; 1%Z])
    by (repeat constructor).
  assert (H3 : total [2%Z; 1%Z] = Z.of_nat (List.length [int 7; int 8; int 9]))
    by reflexivity.
  split; [ exact H1 | split; [ exact H2 | split; [ exact H3 | ] ] ].
  exact (proj1 (@split_equals_slice_on_exact_sizes [int 7; int 8; int 9]
                  [2%Z; 1%Z] H1 H2 H3) 2%nat (Nat.le_refl 2)).
Defined.

(* ================================================================== *)
(** ** stretch, whatever the length asked for *)

Section StretchResult.
Context {rt : Runtime}.

(** X26.  [stretch] never resamples: below the length 2 it returns the input
    as an array, and from the length 2 on it returns the one-element array
    [[NaN]], whatever the input and the mode, because the length is replaced
    by [length(len)], which is 1 for a number. *)
Theorem stretch_never_resamples (l : list value) (len : Q)
  (mode : Transform.InterpolationMode) :
  ((len < 2)%Q -> Transform.stretch (Arr l) (Fin len) mode = Arr l)
  /\ ((2 <= len)%Q -> Transform.stretch (Arr l) (Fin len) mode = Arr [Num NaN]).
Proof.
  split.
  - intros H. unfold Transform.stretch. cbn [param Util.toArray].
    assert (L : ltb (Fin len) (of_Z 2) = true).
    { unfold ltb, of_Z. rewrite Qle_bool_false; [ reflexivity | exact H ]. }
    now rewrite L.
  - intros H. now apply stretch_single_NaN.
Qed.

End StretchResult.

Lemma stretch_never_resamples_witness :
  ((2 <= 5)%Q
   /\ Transform.stretch (rt := constant_runtime) (Arr [int 0; int 10]) (Fin 5)
        Transform.linear
      = Arr [Num NaN])
  /\ ((1 < 2)%Q
      /\ Transform.stretch (rt := constant_runtime) (Arr [int 0; int 10]) (Fin 1)
           Transform.linear
         = Arr [int 0; int 10]).
Proof.
  assert (H : (2 <= 5)%Q) by discriminate.
  assert (H' : (1 < 2)%Q) by reflexivity.
  split; (split; [ assumption | ]).
  - exact (proj2 (stretch_never_resamples (rt := constant_runtime)
                    [int 0; int 10] 5 Transform.linear) H).
  - exact (proj1 (stretch_never_resamples (rt := constant_runtime)
                    [int 0; int 10] 1 Transform.linear) H').
Defined.

(* ================================================================== *)
(** ** An empty operand in the broadcasting engine *)

(** X27.  An empty array is no neutral operand of [arrayCalc]: against a
    non-empty array the result is as long as that array, and the operation
    receives [undefined] in place of the missing elements, on either side;
    only two empty arrays give the empty array. *)
Theorem arrayCalc_empty_operand (l : list value)
  (op : value -> value -> value) :
  l <> [] ->
  Util.arrayCalc (Arr []) (Arr l) op = Arr (map (fun y => op Undef y) l)
  /\ Util.arrayCalc (Arr l) (Arr []) op = Arr (map (fun x => op x Undef) l)
  /\ Util.arrayCalc (Arr []) (Arr []) op = Arr [].
Proof.
  intros Hl. split; [ now apply arrayCalc_empty_left | split; [ | reflexivity ] ].
  change (Util.arrayCalc (Arr l) (Arr []) op)
    with (Arr (map (fun i =>
                      op (Util.fromArray (Arr l)
                            (rem (of_nat i) (of_nat (List.length l))))
                         Undef)
                 (seq 0 (Nat.max (List.length l) 0)))).
  rewrite Nat.max_0_r. f_equal. apply (nth_ext _ _ Undef Undef).
  - now rewrite !length_map, length_seq.
  - intros i Hi. rewrite length_map, length_seq in Hi.
    rewrite nth_map_seq by exact Hi.
    rewrite (nth_indep _ Undef (op Undef Undef)) by now rewrite length_map.
    rewrite (map_nth (fun x => op x Undef)).
    rewrite fromArray_cycle by exact Hl.
    now rewrite Nat.mod_small by exact Hi.
Qed.

Lemma arrayCalc_empty_operand_witness :
  [int 1; int 2] <> []
  /\ Util.arrayCalc (Arr [int 1; int 2]) (Arr []) (fun x y => Arr [x; y])
     = Arr [Arr [int 1; Undef]; Arr [int 2; Undef]].
Proof.
  assert (Hl : [int 1; int 2] <> []) by discriminate.
  split; [ exact Hl | ].
  exact (proj1 (proj2 (@arrayCalc_empty_operand [int 1; int 2]
                         (fun x y => Arr [x; y]) Hl))).
Defined.

(* ================================================================== *)
(** ** unique and filter *)

Lemma SameValueZero_refl (v : value) :
  isArray v = false -> SameValueZero v v = true.
Proof.
  destruct v as [ | [ q | | | ] | s | l ]; simpl; try reflexivity; try discriminate.
  - intros _. apply Qeq_bool_iff. reflexivity.
  - intros _. apply String.eqb_refl.
Qed.

Lemma includes_app (l1 l2 : list value) (v : value) :
  includes (l1 ++ l2) v = (includes l1 v || includes l2 v)%bool.
Proof. apply existsb_app. Qed.

Lemma includes_false (l : list value) (v : value) :
  includes l v = false <-> Forall (fun x => SameValueZero x v = false) l.
Proof.
  unfold includes. induction l as [ | x l IH ]; simpl.
  - split; [ constructor | reflexivity ].
  - rewrite orb_false_iff, IH. split.
    + intros [H1 H2]. now constructor.
    + intros H. inversion H; subst. now split.
Qed.

Lemma concat_loop (a acc : list value) :
  fold_left (fun acc val => acc ++ match val with
                                   | Arr l => l
                                   | _ => [val]
                                   end) a acc
  = acc ++ Util.flat 1 a.
Proof.
  rewrite flat_one. revert acc.
  induction a as [ | x a IH ]; intros acc; simpl.
  - now rewrite app_nil_r.
  - now rewrite IH, app_assoc.
Qed.

Lemma flat_one_no_array (l : list value) :
  Forall (fun v => isArray v = false) l -> Util.flat 1 l = l.
Proof.
  intros H. rewrite flat_one.
  induction H as [ | x l Hx H IH ]; simpl; [ reflexivity | ].
  rewrite IH. now destruct x.
Qed.

Lemma FOP_snoc (A : Type) (R : A -> A -> Prop) (l : list A) (v : A) :
  ForallOrdPairs R l -> Forall (fun x => R x v) l ->
  ForallOrdPairs R (l ++ [v]).
Proof.
  induction 1 as [ | a l Ha Hl IH ]; intros Hv; simpl.
  - constructor; constructor.
  - inversion Hv; subst. constructor; [ | now apply IH ].
    apply Forall_app. split; [ exact Ha | now constructor ].
Qed.

Lemma FOP_before (A : Type) (R : A -> A -> Prop) (l1 l2 : list A) (y : A) :
  ForallOrdPairs R (l1 ++ y :: l2) -> Forall (fun x => R x y) l1.
Proof.
  induction l1 as [ | a l1 IH ]; simpl; intros H; [ constructor | ].
  inversion H; subst. constructor; [ | now apply IH ].
  match goal with
  | Ha : Forall (R a) _ |- _ => rewrite Forall_forall in Ha; apply Ha
  end.
  apply in_elt.
Qed.

Lemma Set_keeps (l : list value) :
  forall (set : list value) (v : value),
    includes set v = true -> includes (fold_left Set_add l set) v = true.
Proof.
  induction l as [ | x l IH ]; intros set v H; simpl; [ exact H | ].
  apply IH. unfold Set_add. destruct (includes set x); [ exact H | ].
  now rewrite includes_app, H.
Qed.

Lemma Set_covers (l : list value) :
  forall (set : list value) (v : value),
    In v l -> isArray v = false ->
    includes (fold_left Set_add l set) v = true.
Proof.
  induction l as [ | x l IH ]; intros set v Hin Hv; simpl; [ destruct Hin | ].
  destruct Hin as [ -> | Hin ]; [ | now apply IH ].
  apply Set_keeps. unfold Set_add.
  destruct (includes set v) eqn:E; [ exact E | ].
  rewrite includes_app, E. simpl.
  now rewrite SameValueZero_refl.
Qed.

Lemma Set_from_input (l : list value) :
  forall (set : list value) (v : value),
    In v (fold_left Set_add l set) -> In v set \/ In v l.
Proof.
  induction l as [ | x l IH ]; intros set v H; simpl in *; [ now left | ].
  destruct (IH _ _ H) as [ H1 | H1 ]; [ | now right; right ].
  unfold Set_add in H1. destruct (includes set x); [ now left | ].
  apply in_app_or in H1. destruct H1 as [ H1 | [ -> | [] ] ];
    [ now left | now right; left ].
Qed.

Lemma Set_distinct (l : list value) :
  forall set : list value,
    ForallOrdPairs (fun x y => SameValueZero x y = false) set ->
    ForallOrdPairs (fun x y => SameValueZero x y = false)
      (fold_left Set_add l set).
Proof.
  induction l as [ | x l IH ]; intros set H; simpl; [ exact H | ].
  apply IH. unfold Set_add. destruct (includes set x) eqn:E; [ exact H | ].
  apply FOP_snoc; [ exact H | now apply includes_false ].
Qed.

Lemma Set_of_distinct (l : list value) :
  forall set : list value,
    ForallOrdPairs (fun x y => SameValueZero x y = false) (set ++ l) ->
    fold_left Set_add l set = set ++ l.
Proof.
  induction l as [ | x l IH ]; intros set H; simpl.
  - now rewrite app_nil_r.
  - pose proof (FOP_before _ _ _ H) as Hx.
    apply includes_false in Hx. unfold Set_add at 2. rewrite Hx.
    rewrite IH; rewrite <- app_assoc; [ reflexivity | exact H ].
Qed.

(** X28.  On an array of at most two dimensions [unique] returns elements
    of the flattened array only, every element of the flattened array is
    found in the result, no two elements of the result are the same value
    ([NaN] counting as the same as [NaN]), and [unique] of the result is the
    result. *)
Theorem unique_is_a_set_of_the_input (a : list value) :
  Forall (fun v => isArray v = false) (Util.flat 1 a) ->
  (forall v, In v (Util.unique a) -> In v (Util.flat 1 a))
  /\ (forall v, In v (Util.flat 1 a) -> includes (Util.unique a) v = true)
  /\ ForallOrdPairs (fun x y => SameValueZero x y = false) (Util.unique a)
  /\ Util.unique (Util.unique a) = Util.unique a.
Proof.
  intros Hflat.
  assert (E : forall l, Util.unique l = Set_spread (Util.flat 1 l)).
  { intros l. unfold Util.unique. now rewrite concat_loop. }
  assert (Hin : forall v, In v (Util.unique a) -> In v (Util.flat 1 a)).
  { intros v Hv. rewrite E in Hv. unfold Set_spread in Hv.
    destruct (Set_from_input _ _ _ Hv) as [ [] | H ]. exact H. }
  assert (Hd : ForallOrdPairs (fun x y => SameValueZero x y = false)
                 (Util.unique a)).
  { rewrite E. apply Set_distinct. constructor. }
  split; [ exact Hin | split; [ | split; [ exact Hd | ] ] ].
  - intros v Hv. rewrite E. apply Set_covers; [ exact Hv | ].
    rewrite Forall_forall in Hflat. now apply Hflat.
  - rewrite (E (Util.unique a)).
    rewrite flat_one_no_array.
    + unfold Set_spread. now rewrite Set_of_distinct.
    + apply Forall_forall. intros v Hv.
      rewrite Forall_forall in Hflat. apply Hflat. now apply Hin.
Qed.

Lemma unique_is_a_set_of_the_input_witness :
  Forall (fun v => isArray v = false)
    (Util.flat 1 [int 1; Arr [int 2; int 1]; Num NaN; Str "a"; Num NaN; int 2])
  /\ Util.unique
       (Util.unique [int 1; Arr [int 2; int 1]; Num NaN; Str "a"; Num NaN; int 2])
     = Util.unique [int 1; Arr [int 2; int 1]; Num NaN; Str "a"; Num NaN; int 2].
Proof.
  assert (H : Forall (fun v => isArray v = false)
                (Util.flat 1 [int 1; Arr [int 2; int 1]; Num NaN; Str "a";
                              Num NaN; int 2]))
    by (repeat constructor).
  split; [ exact H | ].
  exact (proj2 (proj2 (proj2 (@unique_is_a_set_of_the_input _ H)))).
Defined.

(** X29.  [filter] leaves no element that the list of values to remove
    includes; filtering by one list and then by another is filtering by the
    two lists joined, so the order of two filters does not matter and a
    filter applied twice changes nothing more; the empty list removes
    nothing. *)
Theorem filter_by_joined_lists (l f g : list value) :
  Forall (fun v => includes f v = false) (Transform.filter (Arr l) f)
  /\ Transform.filter (Arr (Transform.filter (Arr l) f)) g
     = Transform.filter (Arr l) (f ++ g)
  /\ Transform.filter (Arr (Transform.filter (Arr l) f)) g
     = Transform.filter (Arr (Transform.filter (Arr l) g)) f
  /\ Transform.filter (Arr (Transform.filter (Arr l) f)) f
     = Transform.filter (Arr l) f
  /\ Transform.filter (Arr l) [] = l.
Proof.
  assert (E : forall l f, Transform.filter (Arr l) f
                          = List.filter (fun v => negb (includes f v)) l)
    by reflexivity.
  assert (J : forall l f g,
             List.filter (fun v => negb (includes g v))
               (List.filter (fun v => negb (includes f v)) l)
             = List.filter (fun v => negb (includes f v) && negb (includes g v))%bool
                 l).
  { clear - l. intros l0 f0 g0. induction l0 as [ | x l0 IH ]; simpl;
      [ reflexivity | ].
    destruct (includes f0 x); simpl; [ exact IH | ].
    destruct (includes g0 x); simpl; [ exact IH | now rewrite IH ]. }
  rewrite !E. repeat split.
  - apply Forall_forall. intros v Hv. apply filter_In in Hv.
    destruct Hv as [_ Hv]. now apply negb_true_iff in Hv.
  - rewrite J. apply filter_ext. intros v.
    now rewrite includes_app, negb_orb.
  - rewrite !J. apply filter_ext. intros v. apply andb_comm.
  - rewrite J. apply filter_ext. intros v. now destruct (includes f v).
  - induction l as [ | x l IH ]; [ reflexivity | ].
    cbn [List.filter]. change (includes [] x) with false. cbn [negb].
    now rewrite IH.
Qed.

(* ================================================================== *)
(** ** clone *)

Lemma map_combine_seq (A B : Type) (F : A -> B) (G : A * nat -> B)
  (l : list A) :
  forall s : nat,
    (forall v i, In v l -> G (v, i) = F v) ->
    map G (combine l (seq s (List.length l))) = map F l.
Proof.
  induction l as [ | x l IH ]; intros s H; simpl; [ reflexivity | ].
  rewrite H by now left. f_equal. apply IH.
  intros v i Hv. apply H. now right.
Qed.

Lemma fold_left_thrown (A E B : Type) (F : E + B -> A -> E + B) :
  (forall e x, F (inl e) x = inl e) ->
  forall (l : list A) (e : E), fold_left F l (inl e) = inl e.
Proof.
  intros H. induction l as [ | x l IH ]; intros e; simpl; [ reflexivity | ].
  now rewrite H.
Qed.

Section Clone.
Context {rt : Runtime}.

(** X30.  On a non-empty array that holds no array, [clone] never returns
    a clone with an offset.  A count that is no integer from 0 to 2^32 - 1
    (a negative one, for instance) throws a RangeError.  When every argument
    is accepted and one of them asks for a copy, the copies handed to [map]
    are the elements of the array, which are no arrays, and the call throws
    a TypeError.  When every count is 0 the result is the array with 0 added
    to each element. *)
Theorem clone_of_flat_array_never_offsets (a clones : list value) :
  a <> [] ->
  Forall (fun v => isArray v = false) a ->
  (Exists (fun c => Array_1 c = None) clones ->
   Transform.clone a clones = inl Transform.RangeError)
  /\ (Forall (fun c => Array_1 c <> None) clones ->
      Exists (fun c => Array_1 c <> Some []) clones ->
      Transform.clone a clones = inl Transform.TypeError)
  /\ (Forall (fun c => c = int 0) clones ->
      Transform.clone a clones = inr (map (fun v => Util.add v (int 0)) a)).
Proof.
  intros Ha Hflat.
  set (step1 := fun (acc : option (list value)) (offset : value) =>
                  match acc, Array_1 offset with
                  | Some acc, Some slots =>
                      Some (acc ++ Util.flat 1 (Transform.fill slots (Arr a)))
                  | _, _ => None
                  end).
  set (G := fun c : value =>
              match Array_1 c with
              | Some slots => flat_map (fun _ : option value => a) slots
              | None => []
              end).
  assert (Hcopy : forall slots,
             Util.flat 1 (Transform.fill slots (Arr a))
             = flat_map (fun _ : option value => a) slots).
  { intros slots. rewrite flat_one. unfold Transform.fill.
    now rewrite flat_map_map'. }
  assert (Hnone : forall l, fold_left step1 l None = None).
  { induction l as [ | x l IH ]; [ reflexivity | exact IH ]. }
  assert (Hsome : forall l, Forall (fun c => Array_1 c <> None) l ->
                            fold_left step1 l (Some []) = Some (flat_map G l)).
  { intros l Hl.
    rewrite (@fold_left_option_append _ _ step1 G l); [ reflexivity | ].
    intros acc x Hx. rewrite Forall_forall in Hl. specialize (Hl x Hx).
    unfold step1, G. destruct (Array_1 x); [ | congruence ].
    now rewrite Hcopy. }
  unfold Transform.clone. cbn [Util.toArray]. fold step1.
  split; [ | split ].
  - intros Hex.
    assert (R : forall acc, fold_left step1 clones acc = None).
    { induction Hex as [ c l Hc | c l Hex IH ]; intros acc; simpl.
      - replace (step1 acc c) with (@None (list value)); [ apply Hnone | ].
        unfold step1. rewrite Hc. now destruct acc.
      - apply IH. }
    now rewrite R.
  - intros Hall Hex. rewrite (Hsome _ Hall).
    assert (Hne : flat_map G clones <> []).
    { rewrite Forall_forall in Hall.
      induction Hex as [ c l Hc | c l Hex IH ]; simpl.
      - assert (Hv := Hall c (or_introl eq_refl)).
        unfold G at 1. destruct (Array_1 c) as [ [ | s slots ] | ];
          [ now destruct Hc | | now destruct Hv ].
        simpl. destruct a; [ now destruct Ha | discriminate ].
      - intros E. apply app_eq_nil in E. destruct E as [_ E].
        apply IH; [ | exact E ].
        intros x Hx. apply Hall. now right. }
    assert (Hel : Forall (fun v => isArray v = false) (flat_map G clones)).
    { apply Forall_forall. intros v Hv. apply in_flat_map in Hv.
      destruct Hv as [c [_ Hv]]. unfold G in Hv.
      destruct (Array_1 c) as [ slots | ]; [ | destruct Hv ].
      apply in_flat_map in Hv. destruct Hv as [_ [_ Hv]].
      rewrite Forall_forall in Hflat. now apply Hflat. }
    destruct (flat_map G clones) as [ | x rest ]; [ congruence | ].
    inversion Hel as [ | ? ? Hx _ ]; subst.
    cbn [fold_left].
    destruct x; try discriminate;
      (apply fold_left_thrown; intros; reflexivity).
  - intros Hzero.
    assert (Hall : Forall (fun c => Array_1 c <> None) clones).
    { apply Forall_forall. intros c Hc. rewrite Forall_forall in Hzero.
      rewrite (Hzero c Hc). discriminate. }
    rewrite (Hsome _ Hall).
    assert (E : flat_map G clones = []).
    { clear - Hzero. induction Hzero as [ | c l Hc Hl IH ]; [ reflexivity | ].
      simpl. rewrite IH, Hc. reflexivity. }
    rewrite E. cbn [fold_left app]. f_equal.
    apply map_combine_seq. intros v i _.
    rewrite index_of_nat.
    destruct (nth_in_or_default i clones Undef) as [ Hin | Hd ].
    + rewrite Forall_forall in Hzero. now rewrite (Hzero _ Hin).
    + now rewrite Hd.
Qed.

End Clone.

Lemma clone_of_flat_array_never_offsets_witness :
  [int 0; int 5; int 7] <> []
  /\ Forall (fun v => isArray v = false) [int 0; int 5; int 7]
  /\ (Exists (fun c => Array_1 c = None) [int 0; int 12; int (-12)]
      /\ Transform.clone (rt := constant_runtime) [int 0; int 5; int 7]
           [int 0; int 12; int (-12)]
         = inl Transform.RangeError)
  /\ (Forall (fun c => Array_1 c <> None) [int 0; int 12]
      /\ Exists (fun c => Array_1 c <> Some []) [int 0; int 12]
      /\ Transform.clone (rt := constant_runtime) [int 0; int 5; int 7]
           [int 0; int 12]
         = inl Transform.TypeError)
  /\ (Forall (fun c => c = int 0) [int 0; int 0]
      /\ Transform.clone (rt := constant_runtime) [int 0; int 5; int 7]
           [int 0; int 0]
         = inr (map (fun v => Util.add (rt := constant_runtime) v (int 0))
                  [int 0; int 5; int 7])).
Proof.
  assert (Ha : [int 0; int 5; int 7] <> []) by discriminate.
  assert (Hf : Forall (fun v => isArray v = false) [int 0; int 5; int 7])
    by (repeat constructor).
  assert (He : Exists (fun c => Array_1 c = None) [int 0; int 12; int (-12)])
    by (apply Exists_cons_tl, Exists_cons_tl, Exists_cons_hd; reflexivity).
  assert (Hv : Forall (fun c => Array_1 c <> None) [int 0; int 12])
    by (repeat constructor; discriminate).
  assert (Hp : Exists (fun c => Array_1 c <> Some []) [int 0; int 12])
    by (apply Exists_cons_tl, Exists_cons_hd; discriminate).
  assert (Hz : Forall (fun c => c = int 0) [int 0; int 0])
    by (repeat constructor).
  split; [ exact Ha | split; [ exact Hf | ] ].
  split; [ split; [ exact He | ] | split; [ split; [ exact Hv | split; [ exact Hp | ] ] | split; [ exact Hz | ] ] ].
  - exact (proj1 (@clone_of_flat_array_never_offsets constant_runtime
                    [int 0; int 5; int 7] [int 0; int 12; int (-12)] Ha Hf) He).
  - exact (proj1 (proj2 (@clone_of_flat_array_never_offsets constant_runtime
                           [int 0; int 5; int 7] [int 0; int 12] Ha Hf)) Hv Hp).
  - exact (proj2 (proj2 (@clone_of_flat_array_never_offsets constant_runtime
                           [int 0; int 5; int 7] [int 0; int 0] Ha Hf)) Hz).
Defined.

(* ================================================================== *)
(** ** Binary64: the integers that are not rounded *)

Lemma nearest_even_integer (x : Q) (m : Z) :
  (x == inject_Z m)%Q -> Binary64.nearest_even x = m.
Proof.
  intros H. unfold Binary64.nearest_even.
  assert (F : Qfloor x = m) by (rewrite H; apply Qfloor_Z).
  rewrite F.
  assert (C : (x - inject_Z m ?= 1 # 2)%Q = Lt).
  { apply Qlt_alt. rewrite H.
    setoid_replace (inject_Z m - inject_Z m)%Q with 0%Q by ring. reflexivity. }
  now rewrite C.
Qed.

Lemma binade_integer (z : Z) :
  (0 < z)%Z -> Binary64.binade (inject_Z z) = Z.log2 z.
Proof.
  intros H. unfold Binary64.binade. cbn [Qnum Qden inject_Z].
  change (Z.log2 1) with 0%Z. rewrite Z.sub_0_r.
  pose proof (Z.log2_nonneg z) as Hn.
  rewrite (Z.max_l 0 (- Z.log2 z)) by lia.
  rewrite (Z.max_r 0 (Z.log2 z)) by lia.
  change (2 ^ 0)%Z with 1%Z. rewrite Z.mul_1_r, Z.mul_1_l.
  destruct (Z.ltb_spec z (2 ^ Z.log2 z)) as [ L | L ]; [ | reflexivity ].
  pose proof (Z.log2_spec z H). lia.
Qed.

Lemma Qpower_2_pos (c : Z) : (0 < 2 ^ c)%Q.
Proof. apply Qpower_0_lt. reflexivity. Qed.

Lemma Qpower_2_Z (k : Z) : (0 <= k)%Z -> (2 ^ k == inject_Z (2 ^ k))%Q.
Proof. intros H. rewrite Zpower_Qpower by exact H. reflexivity. Qed.

Lemma log2_safe (z : Z) : (0 < z <= 2 ^ 53)%Z -> (0 <= Z.log2 z <= 53)%Z.
Proof.
  intros [H0 H1]. split; [ apply Z.log2_nonneg | ].
  replace 53%Z with (Z.log2 (2 ^ 53)) by (apply Z.log2_pow2; lia).
  now apply Z.log2_le_mono.
Qed.

(** A positive integer up to [2^53] is a multiple of the step of its binade. *)
Lemma integer_on_grid (z : Z) :
  (0 < z <= 2 ^ 53)%Z ->
  exists m, (inject_Z z / 2 ^ (Z.log2 z - 52) == inject_Z m)%Q.
Proof.
  intros Hz. pose proof (log2_safe Hz) as Hl. destruct Hz as [H0 H1].
  destruct (Z.le_gt_cases (Z.log2 z) 52) as [ Hc | Hc ].
  - exists (z * 2 ^ (52 - Z.log2 z))%Z.
    rewrite inject_Z_mult, <- Qpower_2_Z by lia.
    replace (Z.log2 z - 52)%Z with (- (52 - Z.log2 z))%Z by lia.
    rewrite Qpower_opp. field.
    pose proof (Qpower_2_pos (52 - Z.log2 z)). lra.
  - assert (Hz : z = (2 ^ 53)%Z).
    { assert (E : Z.log2 z = 53%Z) by lia.
      pose proof (Z.log2_spec z H0) as S. rewrite E in S. lia. }
    subst z. exists (2 ^ 52)%Z.
    replace (Z.log2 (2 ^ 53)) with 53%Z by (symmetry; apply Z.log2_pow2; lia).
    vm_compute. reflexivity.
Qed.

Lemma round_of_positive (z : Z) :
  (0 < z <= 2 ^ 53)%Z ->
  Binary64.round (inject_Z z) = of_Z z
  /\ Binary64.round (inject_Z (- z)) = of_Z (- z).
Proof.
  intros Hz. pose proof (log2_safe Hz) as Hl.
  destruct (integer_on_grid Hz) as [m Hm].
  assert (Hc : Z.max (Z.log2 z - 52) (-1074) = (Z.log2 z - 52)%Z) by lia.
  assert (Hr : (inject_Z m * 2 ^ (Z.log2 z - 52) == inject_Z z)%Q).
  { rewrite <- Hm. field. pose proof (Qpower_2_pos (Z.log2 z - 52)). lra. }
  assert (Hbig : Qle_bool (2 ^ 1024) (inject_Z m * 2 ^ (Z.log2 z - 52)) = false).
  { apply Qle_bool_false. rewrite Hr.
    rewrite (@Qpower_2_Z 1024) by lia.
    rewrite <- Zlt_Qlt.
    apply Z.le_lt_trans with (2 ^ 53)%Z; [ lia | ].
    apply Z.pow_lt_mono_r; lia. }
  assert (Ea : forall s, (s = z \/ s = (- z)%Z) -> Qabs (inject_Z s) = inject_Z z).
  { intros s Hs. unfold Qabs, inject_Z. f_equal. lia. }
  assert (E0 : forall s, (s = z \/ s = (- z)%Z) -> Qeq_bool (inject_Z s) 0 = false).
  { intros s Hs. apply Qeq_bool_false. intros E.
    assert (s = 0%Z); [ | lia ].
    apply inject_Z_injective. exact E. }
  split.
  - unfold Binary64.round.
    rewrite E0, Ea, (@binade_integer z) by (auto; lia).
    rewrite Hc, (nearest_even_integer Hm), Hbig.
    assert (P : Qle_bool 0 (inject_Z z) = true).
    { apply Qle_bool_iff. change 0%Q with (inject_Z 0).
      rewrite <- (Zle_Qle 0 z). lia. }
    rewrite P. unfold of_Z. f_equal.
    rewrite (Qred_complete _ _ Hr). apply Qred_inject_Z.
  - unfold Binary64.round.
    rewrite E0, Ea, (@binade_integer z) by (auto; lia).
    rewrite Hc, (nearest_even_integer Hm), Hbig.
    assert (P : Qle_bool 0 (inject_Z (- z)) = false).
    { apply Qle_bool_false. change 0%Q with (inject_Z 0).
      rewrite <- (Zlt_Qlt (- z) 0). lia. }
    rewrite P. unfold of_Z. f_equal.
    assert (Hr' : (- (inject_Z m * 2 ^ (Z.log2 z - 52)) == inject_Z (- z))%Q).
    { rewrite Hr, inject_Z_opp. reflexivity. }
    rewrite (Qred_complete _ _ Hr'). apply Qred_inject_Z.
Qed.

(** Every integer from [-2^53] to [2^53] is a binary64 number. *)
Lemma unrounded_of_Z (z : Z) :
  (Z.abs z <= 2 ^ 53)%Z -> Binary64.unrounded (of_Z z).
Proof.
  intros H. unfold Binary64.unrounded, Binary64.rounded, of_Z.
  destruct (Z.lt_trichotomy z 0) as [ L | [ -> | L ] ].
  - replace z with (- - z)%Z by lia.
    apply (@round_of_positive (- z)). lia.
  - reflexivity.
  - apply (@round_of_positive z). lia.
Qed.

Lemma binary64_add_of_Z (a b : Z) :
  (Z.abs (a + b) <= 2 ^ 53)%Z ->
  Binary64.add (of_Z a) (of_Z b) = of_Z (a + b).
Proof.
  intros H. unfold Binary64.add. rewrite add_of_Z. now apply unrounded_of_Z.
Qed.

Lemma binary64_sub_of_Z (a b : Z) :
  (Z.abs (a - b) <= 2 ^ 53)%Z ->
  Binary64.sub (of_Z a) (of_Z b) = of_Z (a - b).
Proof.
  intros H. unfold Binary64.sub. rewrite sub_of_Z. now apply unrounded_of_Z.
Qed.

Lemma to_index_of_Z (z : Z) :
  (0 <= z)%Z -> to_index (of_Z z) = Some (Z.to_nat z).
Proof.
  intros H. rewrite <- (Z2Nat.id z) at 1 by exact H. apply to_index_of_nat.
Qed.

(** The opposite of an integer of binary64 is an integer of binary64. *)
Lemma unrounded_opp_of_Z (z : Z) :
  Binary64.unrounded (of_Z z) -> Binary64.unrounded (of_Z (- z)).
Proof.
  unfold Binary64.unrounded, Binary64.rounded, of_Z.
  destruct (Z.eq_dec z 0) as [ -> | Hz ]; [ intros _; reflexivity | ].
  assert (E0 : forall s, s <> 0%Z -> Qeq_bool (inject_Z s) 0 = false).
  { intros s Hs. apply Qeq_bool_false. intros E. apply Hs.
    apply inject_Z_injective. exact E. }
  assert (Ea : Qabs (inject_Z (- z)) = Qabs (inject_Z z)).
  { unfold Qabs, inject_Z. f_equal. lia. }
  unfold Binary64.round. rewrite !E0 by lia. rewrite Ea.
  set (r := (inject_Z (Binary64.nearest_even _) * _)%Q).
  destruct (Qle_bool (2 ^ 1024) r).
  { destruct (Qle_bool 0 (inject_Z z)); discriminate. }
  assert (P : Qle_bool 0 (inject_Z (- z)) = negb (Qle_bool 0 (inject_Z z))).
  { destruct (Z.lt_trichotomy z 0) as [ L | [ L | L ] ]; [ | lia | ].
    - replace (Qle_bool 0 (inject_Z (- z))) with true.
      + replace (Qle_bool 0 (inject_Z z)) with false; [ reflexivity | ].
        symmetry. apply Qle_bool_false. change 0%Q with (inject_Z 0).
        rewrite <- (Zlt_Qlt z 0). exact L.
      + symmetry. apply Qle_bool_iff. change 0%Q with (inject_Z 0).
        rewrite <- (Zle_Qle 0 (- z)). lia.
    - replace (Qle_bool 0 (inject_Z (- z))) with false.
      + replace (Qle_bool 0 (inject_Z z)) with true; [ reflexivity | ].
        symmetry. apply Qle_bool_iff. change 0%Q with (inject_Z 0).
        rewrite <- (Zle_Qle 0 z). lia.
      + symmetry. apply Qle_bool_false. change 0%Q with (inject_Z 0).
        rewrite <- (Zlt_Qlt (- z) 0). lia. }
  rewrite P. intros H. injection H as H. f_equal.
  rewrite <- (Qred_inject_Z (- z)). apply Qred_complete.
  rewrite inject_Z_opp.
  pose proof (Qred_correct r) as R1. pose proof (Qred_correct (- r)) as R2.
  destruct (Qle_bool 0 (inject_Z z)); cbn [negb]; rewrite <- H; lra.
Qed.

(* ================================================================== *)
(** ** rotate in binary64 *)

(** Within the bound no subtraction or addition of the loop is rounded, and
    the loop reads what the loop on integers reads. *)
Lemma float_rotate_items_integer (A : Type) (d : A) (a : list A) (r : Z) :
  (Z.of_nat (List.length a) < 2 ^ 32)%Z ->
  (Z.abs r + Z.of_nat (List.length a) <= 2 ^ 53)%Z ->
  Float.rotate_items d a (of_Z r) = Transform.rotate_items a r.
Proof.
  intros HL Hr. destruct a as [ | d0 a' ]; [ reflexivity | ].
  set (a := d0 :: a') in *.
  assert (Ha : a <> []) by discriminate.
  assert (Hpos : (0 < Z.of_nat (List.length a))%Z) by (unfold a; simpl; lia).
  unfold Float.rotate_items, Transform.rotate_items. fold a.
  apply map_ext_in. intros i Hi. apply in_seq in Hi.
  unfold of_nat.
  rewrite binary64_sub_of_Z by lia.
  rewrite rem_of_Z by exact Hpos.
  pose proof (Z.rem_bound_abs (Z.of_nat i - r) (Z.of_nat (List.length a))) as Hb.
  rewrite binary64_add_of_Z by lia.
  rewrite rem_of_Z by exact Hpos.
  pose proof (@rotate_read_in_range _ a r i Ha) as Hin.
  rewrite rem_rem_mod in * by exact Hpos.
  rewrite to_index_of_Z by (apply Z.mod_pos_bound; exact Hpos).
  now apply nth_indep.
Qed.

Lemma float_rotate_integer (l : list value) (r : Z) :
  (Z.of_nat (List.length l) < 2 ^ 32)%Z ->
  (Z.abs r + Z.of_nat (List.length l) <= 2 ^ 53)%Z ->
  Float.rotate (Arr l) (of_Z r) = Transform.rotate (Arr l) r.
Proof.
  intros HL Hr. unfold Float.rotate, Transform.rotate. cbn [param].
  now rewrite float_rotate_items_integer.
Qed.

(** C8, as the code has it.  On a non-empty array of length [L] (below
    [2^32], as the length of every array is) and for an integer [n] with
    [|n| + L <= 2^53], rotating by [n] and then by [-n] gives the array
    back; element [i] of the rotated array is the element at
    [((i - n) % L + L) % L], which is the non-negative remainder of [i - n];
    and rotating by the length changes nothing. *)
Theorem rotate_cyclic_shift_within_bound (l : list value) (n : Z) :
  l <> [] ->
  (Z.of_nat (List.length l) < 2 ^ 32)%Z ->
  (Z.abs n + Z.of_nat (List.length l) <= 2 ^ 53)%Z ->
  Float.rotate (Float.rotate (Arr l) (of_Z n)) (of_Z (- n)) = Arr l
  /\ (exists r,
         Float.rotate (Arr l) (of_Z n) = Arr r
         /\ List.length r = List.length l
         /\ forall i, (i < List.length l)%nat ->
              let L := Z.of_nat (List.length l) in
              nth i r Undef
              = nth (Z.to_nat (Z.rem (Z.rem (Z.of_nat i - n) L + L) L)) l Undef
              /\ Z.rem (Z.rem (Z.of_nat i - n) L + L) L
                 = ((Z.of_nat i - n) mod L)%Z)
  /\ Float.rotate (Arr l) (of_nat (List.length l)) = Arr l.
Proof.
  intros Hl HL Hn.
  assert (Hpos : (0 < Z.of_nat (List.length l))%Z)
    by (destruct l; [ congruence | simpl; lia ]).
  assert (E : Float.rotate (Arr l) (of_Z n) = Arr (Transform.rotate_items l n)).
  { now rewrite float_rotate_integer. }
  split; [ | split ].
  - rewrite E, float_rotate_integer by (rewrite length_rotate_items; lia).
    unfold Transform.rotate. cbn [param].
    now rewrite rotate_items_inverse.
  - exists (Transform.rotate_items l n).
    split; [ exact E | split; [ apply length_rotate_items | ] ].
    intros i Hi. cbv zeta.
    rewrite rem_rem_mod by exact Hpos.
    split; [ now apply nth_rotate_items | reflexivity ].
  - unfold of_nat. rewrite float_rotate_integer by lia.
    unfold Transform.rotate. cbn [param].
    now rewrite rotate_items_full_turn.
Qed.

(** C8, the claim as written fails: [2^53 - 1] is an integer of the
    runtime, and rotating [[1, 2, 3]] by it and back gives [[1, 2, 2]],
    since [2 + (2^53 - 1)] is rounded to [2^53]; likewise the rotation by
    [-2^53] is [[3, 3, 2]], which is no cyclic shift. *)
Lemma rotate_rounds_beyond_2_53 :
  Binary64.unrounded (of_Z (2 ^ 53 - 1))
  /\ Float.rotate (Float.rotate (Arr [int 1; int 2; int 3]) (of_Z (2 ^ 53 - 1)))
       (of_Z (- (2 ^ 53 - 1)))
     = Arr [int 1; int 2; int 2]
  /\ Float.rotate (Float.rotate (Arr [int 1; int 2; int 3]) (of_Z (2 ^ 53 - 1)))
       (of_Z (- (2 ^ 53 - 1)))
     <> Arr [int 1; int 2; int 3]
  /\ Float.rotate (Arr [int 1; int 2; int 3]) (of_Z (- 2 ^ 53))
     = Arr [int 3; int 3; int 2].
Proof.
  assert (E : Float.rotate
                (Float.rotate (Arr [int 1; int 2; int 3]) (of_Z (2 ^ 53 - 1)))
                (of_Z (- (2 ^ 53 - 1)))
              = Arr [int 1; int 2; int 2]) by (vm_compute; reflexivity).
  split; [ vm_compute; reflexivity | split; [ exact E | split ] ].
  - rewrite E. discriminate.
  - vm_compute. reflexivity.
Qed.

Lemma rotate_cyclic_shift_within_bound_witness :
  [int 1; int 2; int 3] <> []
  /\ (Z.of_nat (List.length [int 1; int 2; int 3]) < 2 ^ 32)%Z
  /\ (Z.abs 4 + Z.of_nat (List.length [int 1; int 2; int 3]) <= 2 ^ 53)%Z
  /\ Float.rotate (Float.rotate (Arr [int 1; int 2; int 3]) (of_Z 4)) (of_Z (- (4)))
     = Arr [int 1; int 2; int 3].
Proof.
  assert (H : [int 1; int 2; int 3] <> []) by discriminate.
  assert (HL : (Z.of_nat (List.length [int 1; int 2; int 3]) < 2 ^ 32)%Z)
    by (simpl; lia).
  assert (Hn : (Z.abs 4 + Z.of_nat (List.length [int 1; int 2; int 3]) <= 2 ^ 53)%Z)
    by (simpl; lia).
  split; [ exact H | split; [ exact HL | split; [ exact Hn | ] ] ].
  exact (proj1 (@rotate_cyclic_shift_within_bound [int 1; int 2; int 3] 4 H HL Hn)).
Defined.

(* ================================================================== *)
(** ** split on sizes that are any numbers *)

Lemma array_slice_prefix0 (A : Type) (a : list A) (z : Z) :
  (0 <= z)%Z -> array_slice a 0 z = firstn (Z.to_nat z) a.
Proof.
  intros Hz. destruct (Z.eq_dec z 0) as [ -> | Hn ].
  - unfold array_slice. simpl (0 <? 0)%Z. cbv iota.
    rewrite (Z.min_l 0) by lia. reflexivity.
  - apply array_slice_prefix. lia.
Qed.

Lemma array_slice_suffix0 (A : Type) (a : list A) (z : Z) :
  (0 <= z)%Z ->
  array_slice a z (Z.of_nat (List.length a)) = skipn (Z.to_nat z) a.
Proof.
  intros Hz. destruct (Z.eq_dec z 0) as [ -> | Hn ].
  - unfold array_slice.
    destruct (Z.ltb_spec (Z.of_nat (List.length a)) 0); [ lia | ].
    simpl (0 <? 0)%Z. cbv iota.
    rewrite Z.min_id, (Z.min_l 0) by lia.
    rewrite Z.sub_0_r, Z.max_l, Nat2Z.id by lia.
    simpl skipn. apply firstn_all.
  - apply array_slice_suffix. lia.
Qed.

Lemma gtb_zero_Fin (q : Q) : gtb (Fin q) (of_Z 0) = negb (Qle_bool q 0).
Proof. reflexivity. Qed.

Lemma slice_argument_nonneg (len : nat) (x : num) :
  gtb x (of_Z 0) = true -> (0 <= Float.slice_argument len x)%Z.
Proof.
  destruct x as [ q | | | ]; try discriminate; simpl Float.slice_argument;
    [ | lia ].
  rewrite gtb_zero_Fin. intros H. apply negb_true_iff in H.
  apply Qle_bool_false_lt in H.
  unfold Qtrunc. rewrite Qle_bool_true by lra.
  change 0%Z with (Qfloor 0). apply Qfloor_resp_le. lra.
Qed.

Lemma at_least_one_positive (x : num) :
  at_least_one x = true -> gtb x (of_Z 0) = true.
Proof.
  destruct x as [ q | | | ]; try discriminate; [ | reflexivity ].
  cbn [at_least_one]. intros H. apply Qle_bool_iff in H.
  rewrite gtb_zero_Fin. apply negb_true_iff. apply Qle_bool_false. lra.
Qed.

Lemma slice_argument_at_least_one (len : nat) (q : Q) :
  at_least_one (Fin q) = true -> (1 <= Float.slice_argument len (Fin q))%Z.
Proof.
  cbn [at_least_one Float.slice_argument]. intros H. apply Qle_bool_iff in H.
  unfold Qtrunc. rewrite Qle_bool_true by lra.
  change 1%Z with (Qfloor 1). apply Qfloor_resp_le. exact H.
Qed.

Lemma slice_argument_fraction (len : nat) (x : num) :
  gtb x (of_Z 0) = true -> at_least_one x = false ->
  Float.slice_argument len x = 0%Z.
Proof.
  destruct x as [ q | | | ]; try discriminate.
  rewrite gtb_zero_Fin. cbn [at_least_one Float.slice_argument]. intros H0 H1.
  apply negb_true_iff in H0. apply Qle_bool_false_lt in H0.
  apply Qle_bool_false_lt in H1.
  unfold Qtrunc. rewrite Qle_bool_true by lra.
  apply Qfloor_unique; [ change (inject_Z 0) with 0%Q; lra | ].
  change (inject_Z (0 + 1)) with 1%Q. lra.
Qed.

Lemma float_rotate_sizes (x : num) (s : list num) :
  (Z.of_nat (List.length (x :: s)) < 2 ^ 32)%Z ->
  Float.rotate_items NaN (x :: s) (of_Z (-1)) = s ++ [x].
Proof.
  intros H. rewrite float_rotate_items_integer by (simpl Z.abs; lia).
  apply rotate_items_left.
Qed.

Lemma float_split_skip (fuel : nat) (l : list value) (x : num) (s : list num) :
  (Z.of_nat (List.length (x :: s)) < 2 ^ 32)%Z ->
  gtb x (of_Z 0) = false ->
  Float.split (S fuel) (Arr l) (x :: s) = Float.split fuel (Arr l) (s ++ [x]).
Proof.
  intros HL Hx. cbn [Float.split param Util.toArray].
  unfold Float._split. cbn [hd_error]. cbv beta iota zeta.
  now rewrite Hx, float_rotate_sizes.
Qed.

Lemma float_split_cut (fuel : nat) (l : list value) (x : num) (s : list num) :
  (Z.of_nat (List.length (x :: s)) < 2 ^ 32)%Z ->
  gtb x (of_Z 0) = true ->
  Float.split (S fuel) (Arr l) (x :: s)
  = let k := Z.to_nat (Float.slice_argument (List.length l) x) in
    if (List.length (skipn k l) <? 1)%nat
    then Some [firstn k l]
    else option_map (cons (firstn k l))
           (Float.split fuel (Arr (skipn k l)) (s ++ [x])).
Proof.
  intros HL Hx. cbn [Float.split param Util.toArray].
  unfold Float._split. cbn [hd_error]. cbv beta iota zeta.
  rewrite Hx, float_rotate_sizes by exact HL.
  pose proof (slice_argument_nonneg (List.length l) x Hx) as Hz.
  now rewrite array_slice_prefix0, array_slice_suffix0 by exact Hz.
Qed.

Lemma first_at_least_one (s : list num) :
  Exists (fun x => at_least_one x = true) s ->
  exists pre x post,
    s = pre ++ x :: post
    /\ Forall (fun y => at_least_one y = false) pre
    /\ at_least_one x = true.
Proof.
  induction s as [ | y s IH ]; intros Hs.
  - inversion Hs.
  - destruct (at_least_one y) eqn:Ey.
    + exists [], y, s. repeat split; [ constructor | exact Ey ].
    + inversion Hs as [ ? ? Hpos | ? ? Hpos ]; subst; [ congruence | ].
      destruct (IH Hpos) as (pre & x & post & -> & Hpre & Hx).
      exists (y :: pre), x, post. repeat split; [ now constructor | exact Hx ].
Qed.

Lemma float_split_total (n : nat) :
  forall l : list value,
    List.length l = n ->
    forall s : list num,
      (Z.of_nat (List.length s) < 2 ^ 32)%Z ->
      Exists (fun x => at_least_one x = true) s ->
      exists fuel chunks,
        (forall m, (fuel <= m)%nat -> Float.split m (Arr l) s = Some chunks)
        /\ List.concat chunks = l
        /\ (Forall no_fraction_below_one s ->
            l <> [] -> Forall (fun c => c <> []) chunks).
Proof.
  induction n as [n IHn] using lt_wf_ind.
  intros l Hl s HL Hs.
  destruct (first_at_least_one Hs) as (pre & x & post & -> & Hpre & Hx).
  clear Hs. revert post HL.
  induction Hpre as [ | p pre Hp Hpre IHpre ]; intros post HL.
  - simpl app in *.
    pose proof (at_least_one_positive x Hx) as Hgt.
    set (k := Z.to_nat (Float.slice_argument (List.length l) x)).
    destruct (skipn k l) as [ | y res ] eqn:Eres.
    + exists 1%nat, [firstn k l].
      assert (El : firstn k l = l).
      { rewrite <- (firstn_skipn k l) at 2. now rewrite Eres, app_nil_r. }
      split; [ | split ].
      * intros [ | m ] Hm; [ lia | ].
        rewrite float_split_cut by assumption. cbv zeta. fold k.
        now rewrite Eres.
      * simpl. now rewrite app_nil_r.
      * intros _ Hne. constructor; [ now rewrite El | constructor ].
    + assert (Hk : (1 <= k)%nat).
      { destruct x as [ q | | | ]; try discriminate.
        - pose proof (slice_argument_at_least_one (List.length l) q Hx).
          unfold k. lia.
        - exfalso. unfold k in Eres. simpl in Eres.
          rewrite Nat2Z.id, skipn_all in Eres. discriminate. }
      assert (Hshort : (List.length (y :: res) < n)%nat).
      { rewrite <- Eres, length_skipn.
        assert (l <> []) by (intros ->; now rewrite skipn_nil in Eres).
        destruct l; [ congruence | cbn [List.length] in * ]. lia. }
      destruct (IHn _ Hshort (y :: res) eq_refl (post ++ [x]))
        as (fuel & chunks & Hrun & Hcat & Hne).
      { rewrite length_app. simpl in *. lia. }
      { apply Exists_app. right. now constructor. }
      exists (S fuel), (firstn k l :: chunks).
      split; [ | split ].
      * intros [ | m ] Hm; [ lia | ].
        rewrite float_split_cut by assumption. cbv zeta. fold k.
        rewrite Eres. simpl Nat.ltb. cbv iota.
        rewrite Hrun by lia. reflexivity.
      * simpl. rewrite Hcat, <- Eres. apply firstn_skipn.
      * intros Hwhole Hl0. constructor.
        -- destruct l as [ | v l ]; [ congruence | ].
           destruct k; [ lia | discriminate ].
        -- apply Hne; [ | discriminate ].
           inversion Hwhole; subst. apply Forall_app. split; [ assumption | ].
           now constructor.
  - assert (HL' : (Z.of_nat (List.length (pre ++ x :: post ++ [p])) < 2 ^ 32)%Z).
    { rewrite !length_app in *. simpl in *. rewrite !length_app in *.
      simpl in *. lia. }
    destruct (IHpre (post ++ [p]) HL') as (fuel & chunks & Hrun & Hcat & Hne).
    assert (Hrot : (pre ++ x :: post) ++ [p] = pre ++ x :: post ++ [p])
      by now rewrite <- app_assoc.
    destruct (gtb p (of_Z 0)) eqn:Hgt.
    + pose proof (slice_argument_fraction (List.length l) p Hgt Hp) as Hz.
      destruct l as [ | v l ].
      * exists 1%nat, [[]].
        split; [ | split ].
        -- intros [ | m ] Hm; [ lia | ].
           simpl app. rewrite float_split_cut by assumption.
           cbv zeta. rewrite Hz. reflexivity.
        -- reflexivity.
        -- intros _ Hl0. congruence.
      * exists (S fuel), ([] :: chunks).
        split; [ | split ].
        -- intros [ | m ] Hm; [ lia | ].
           simpl app. rewrite float_split_cut by assumption.
           cbv zeta. rewrite Hz. simpl Z.to_nat. simpl skipn. simpl firstn.
           simpl Nat.ltb. cbv iota.
           rewrite Hrot, Hrun by lia. reflexivity.
        -- simpl. exact Hcat.
        -- intros Hwhole _. inversion Hwhole as [ | ? ? Hw _ ]; subst.
           specialize (Hw Hgt). congruence.
    + exists (S fuel), chunks.
      split; [ | split ].
      * intros [ | m ] Hm; [ lia | ].
        simpl app. rewrite float_split_skip by assumption.
        rewrite Hrot. apply Hrun. lia.
      * exact Hcat.
      * intros Hwhole Hl0. apply Hne; [ | exact Hl0 ].
        inversion Hwhole as [ | ? ? Hw Hrest ]; subst.
        apply Forall_app in Hrest. destruct Hrest as [H1 H2].
        inversion H2; subst.
        apply Forall_app. split; [ assumption | ].
        constructor; [ assumption | ].
        apply Forall_app. split; [ assumption | now constructor ].
Qed.

(** C6, as the code has it.  When a size is 1 or more, [split] returns on
    every input: from some count of calls on, the result is the same list of
    chunks, and the chunks concatenate to the input; when no size lies
    strictly between 0 and 1, none of the chunks of a non-empty input is
    empty.  A zero at the head of the sizes cuts nothing: the call goes on
    with the sizes rotated by one position.
    [split([1,2,3,4,5,6,7], [2,3])] is [[[1,2],[3,4,5],[6,7]]].  The sizes
    are an array, of fewer than [2^32] numbers. *)
Theorem split_returns_when_a_size_reaches_one :
  (forall (l : list value) (s : list num),
      (Z.of_nat (List.length s) < 2 ^ 32)%Z ->
      Exists (fun x => at_least_one x = true) s ->
      exists chunks,
        (exists fuel, forall m, (fuel <= m)%nat ->
                                Float.split m (Arr l) s = Some chunks)
        /\ List.concat chunks = l
        /\ (Forall no_fraction_below_one s ->
            l <> [] -> Forall (fun c => c <> []) chunks))
  /\ (forall (fuel : nat) (l : list value) (s : list num),
         (Z.of_nat (List.length (of_Z 0 :: s)) < 2 ^ 32)%Z ->
         Float.rotate_items NaN (of_Z 0 :: s) (of_Z (-1)) = s ++ [of_Z 0]
         /\ Float.split (S fuel) (Arr l) (of_Z 0 :: s)
            = Float.split fuel (Arr l) (s ++ [of_Z 0]))
  /\ (forall m, (3 <= m)%nat ->
         Float.split m
           (Arr [int 1; int 2; int 3; int 4; int 5; int 6; int 7])
           [of_Z 2; of_Z 3]
         = Some [[int 1; int 2]; [int 3; int 4; int 5]; [int 6; int 7]]).
Proof.
  split; [ | split ].
  - intros l s HL Hs.
    destruct (@float_split_total _ l eq_refl s HL Hs)
      as (fuel & chunks & Hrun & Hcat & Hne).
    exists chunks. split; [ now exists fuel | split; assumption ].
  - intros fuel l s HL. split.
    + now apply float_rotate_sizes.
    + now apply float_split_skip.
  - intros m Hm.
    destruct m as [ | [ | [ | m ] ] ]; try lia. vm_compute. reflexivity.
Qed.

(** C6, the claim as written fails: the size 0.5 is strictly positive and
    cuts nothing, the sizes [[0.5]] rotated are [[0.5]] again, and
    [split([1,2,3], [0.5])] calls itself with the same arguments for ever:
    no count of calls is enough. *)
Lemma split_half_size_never_returns :
  Exists (fun x => gtb x (of_Z 0) = true) [Fin (1 # 2)]
  /\ forall fuel,
       Float.split fuel (Arr [int 1; int 2; int 3]) [Fin (1 # 2)] = None.
Proof.
  split; [ constructor; reflexivity | ].
  induction fuel as [ | fuel IH ]; [ reflexivity | ].
  rewrite float_split_cut by (simpl; lia || reflexivity).
  cbv zeta. simpl app.
  change (Float.slice_argument
            (List.length [int 1; int 2; int 3]) (Fin (1 # 2))) with 0%Z.
  simpl Z.to_nat. simpl skipn. simpl firstn. simpl Nat.ltb. cbv iota.
  now rewrite IH.
Qed.

Lemma split_returns_when_a_size_reaches_one_witness :
  (Z.of_nat (List.length [of_Z 0; Fin (5 # 2)]) < 2 ^ 32)%Z
  /\ Exists (fun x => at_least_one x = true) [of_Z 0; Fin (5 # 2)]
  /\ exists chunks,
      (exists fuel, forall m, (fuel <= m)%nat ->
         Float.split m (Arr [int 4; int 5; int 6]) [of_Z 0; Fin (5 # 2)]
         = Some chunks)
      /\ List.concat chunks = [int 4; int 5; int 6]
      /\ (Forall no_fraction_below_one [of_Z 0; Fin (5 # 2)] ->
          [int 4; int 5; int 6] <> [] -> Forall (fun c => c <> []) chunks).
Proof.
  assert (HL : (Z.of_nat (List.length [of_Z 0; Fin (5 # 2)]) < 2 ^ 32)%Z)
    by (simpl; lia).
  assert (H : Exists (fun x => at_least_one x = true) [of_Z 0; Fin (5 # 2)]).
  { apply Exists_cons_tl. apply Exists_cons_hd. reflexivity. }
  split; [ exact HL | split; [ exact H | ] ].
  exact (proj1 split_returns_when_a_size_reaches_one
           [int 4; int 5; int 6] [of_Z 0; Fin (5 # 2)] HL H).
Defined.

(* ================================================================== *)
(** ** wrap in binary64 *)






(* ================================================================== *)
(** ** Scalar inputs, function by function *)

Section ScalarInput.
Context {rt : Runtime}.

(** C4, as the code has it.  On a bare scalar [x] the functions [reverse],
    [rotate] with an integer step, [slice], [split], [lace],
    [merge], [lookup], [spray], [repeat], [stretch], [filter] and
    [duplicate] give what they give on [[x]].  [palindrome] returns [[x]]
    whatever [noDouble] is, which is what it gives on [[x]] with [noDouble]
    set, while [palindrome([x])] without [noDouble] is [[x, x]]. *)
Theorem scalar_input_as_singleton_array (x : value) :
  scalar x = true ->
  let X := Arr (Util.toArray x) in
  Transform.reverse x = Transform.reverse X
  /\ (forall r, Binary64.unrounded (of_Z r) ->
                Float.rotate x (of_Z r) = Float.rotate X (of_Z r))
  /\ (forall s r, Transform.slice x s r = Transform.slice X s r)
  /\ (forall fuel s, Float.split fuel x s = Float.split fuel X s)
  /\ (forall before after,
         Transform.lace (before ++ x :: after)
         = Transform.lace (before ++ X :: after))
  /\ (forall before after,
         Transform.merge (before ++ x :: after)
         = Transform.merge (before ++ X :: after))
  /\ (forall arr, Transform.lookup x arr = Transform.lookup X arr)
  /\ (forall beats, Transform.spray x beats = Transform.spray X beats)
  /\ (forall rep, Transform.repeat x rep = Transform.repeat X rep)
  /\ (forall len mode, Transform.stretch x len mode = Transform.stretch X len mode)
  /\ (forall f, Transform.filter x f = Transform.filter X f)
  /\ (forall n, Transform.duplicate x n = Transform.duplicate X n)
  /\ (forall noDouble, Transform.palindrome x noDouble = Arr [x])
  /\ Transform.palindrome X true = Arr [x]
  /\ Transform.palindrome X false = Arr [x; x].
Proof.
  intros Hx X.
  assert (EX : X = Arr [x]) by (destruct x; try discriminate; reflexivity).
  assert (Hp : forall d, param x d = x)
    by (intros d; destruct x; try discriminate; reflexivity).
  assert (Ht : Util.toArray x = [x])
    by (destruct x; try discriminate; reflexivity).
  assert (Hn : isArray x = false)
    by (destruct x; try discriminate; reflexivity).
  rewrite EX. clear EX X.
  split; [ destruct x; try discriminate; reflexivity | ].
  split.
  { intros r Hr. apply unrounded_opp_of_Z in Hr.
    unfold Float.rotate, Float.rotate_items.
    rewrite Hp. cbn [param List.length seq map].
    change (of_nat 0) with (of_Z 0). change (of_nat 1) with (of_Z 1).
    unfold Binary64.sub. rewrite sub_of_Z. change (0 - r)%Z with (- r)%Z.
    unfold Binary64.unrounded in Hr. rewrite Hr.
    rewrite rem_of_Z by lia. rewrite Z.rem_1_r.
    destruct x; try discriminate; reflexivity. }
  split.
  { intros s r. unfold Transform.slice. rewrite Hp. cbn [param].
    now rewrite Ht. }
  split.
  { intros [ | fuel ] s; [ reflexivity | ].
    cbn [Float.split]. rewrite Hp. cbn [param]. now rewrite Ht. }
  split.
  { intros before after. unfold Transform.lace.
    rewrite !length_app. cbn [List.length].
    rewrite !map_app. cbn [map]. now rewrite Ht. }
  split.
  { intros before after. unfold Transform.merge.
    rewrite !length_app. cbn [List.length].
    rewrite !map_app. cbn [map]. now rewrite Ht. }
  split.
  { intros arr. destruct x; try discriminate; cbn; now rewrite app_nil_r. }
  split.
  { intros beats. unfold Transform.spray. rewrite Hp. cbn [param].
    now rewrite Ht. }
  split.
  { intros rep. unfold Transform.repeat. rewrite Hp. cbn [param].
    now rewrite Ht. }
  split.
  { intros len mode. unfold Transform.stretch. rewrite Hp. cbn [param].
    now rewrite Ht. }
  split.
  { intros f. unfold Transform.filter. rewrite Hp. cbn [param isArray].
    now rewrite Hn. }
  split.
  { intros n. unfold Transform.duplicate, new_Array.
    destruct ((0 <=? Z.max 1 n)%Z && (Z.max 1 n <? 2 ^ 32)%Z)%bool;
      [ | reflexivity ].
    now rewrite !flatMap_empty_slots. }
  destruct x; try discriminate; repeat split; reflexivity.
Qed.

End ScalarInput.

(** C4, the claim as written fails: [palindrome(5)] is [[5]] and
    [palindrome([5])] is [[5, 5]]; and with the step 0.5, [rotate(5, 0.5)]
    is [[5]] while [rotate([5], 0.5)] reads [a[0.5]] and is
    [[undefined]]. *)
Lemma palindrome_and_rotate_tell_scalar_from_singleton :
  Transform.palindrome (int 5) false = Arr [int 5]
  /\ Transform.palindrome (Arr (Util.toArray (int 5))) false = Arr [int 5; int 5]
  /\ Transform.palindrome (int 5) false
     <> Transform.palindrome (Arr (Util.toArray (int 5))) false
  /\ Float.rotate (int 5) (Fin (1 # 2)) = Arr [int 5]
  /\ Float.rotate (Arr (Util.toArray (int 5))) (Fin (1 # 2)) = Arr [Undef]
  /\ Float.rotate (int 5) (Fin (1 # 2))
     <> Float.rotate (Arr (Util.toArray (int 5))) (Fin (1 # 2)).
Proof.
  assert (E : Float.rotate (Arr (Util.toArray (int 5))) (Fin (1 # 2)) = Arr [Undef])
    by (vm_compute; reflexivity).
  split; [ reflexivity | split; [ reflexivity | split; [ discriminate | ] ] ].
  split; [ reflexivity | split; [ exact E | ] ].
  rewrite E. discriminate.
Qed.

Lemma scalar_input_as_singleton_array_witness :
  scalar (Str "c4") = true
  /\ Transform.reverse (Str "c4") = Transform.reverse (Arr (Util.toArray (Str "c4")))
  /\ Binary64.unrounded (of_Z 3)
  /\ Float.rotate (Str "c4") (of_Z 3)
     = Float.rotate (Arr (Util.toArray (Str "c4"))) (of_Z 3).
Proof.
  assert (H : scalar (Str "c4") = true) by reflexivity.
  assert (Hr : Binary64.unrounded (of_Z 3)) by (vm_compute; reflexivity).
  pose proof (@scalar_input_as_singleton_array constant_runtime (Str "c4") H)
    as P.
  split; [ exact H | split; [ exact (proj1 P) | split; [ exact Hr | ] ] ].
  exact (proj1 (proj2 P) 3%Z Hr).
Defined.

(* ================================================================== *)
(** ** rotate in binary64: composition and permutation *)

(** X12.  Two rotations of an array of length [L] compose to the rotation
    by the sum of the steps, for integer steps [m] and [n] with [|m| + L],
    [|n| + L] and [|m + n| + L] at most [2^53]. *)
Theorem rotate_compose_within_bound (l : list value) (m n : Z) :
  (Z.of_nat (List.length l) < 2 ^ 32)%Z ->
  (Z.abs m + Z.of_nat (List.length l) <= 2 ^ 53)%Z ->
  (Z.abs n + Z.of_nat (List.length l) <= 2 ^ 53)%Z ->
  (Z.abs (m + n) + Z.of_nat (List.length l) <= 2 ^ 53)%Z ->
  Float.rotate (Float.rotate (Arr l) (of_Z m)) (of_Z n)
  = Float.rotate (Arr l) (of_Z (m + n)).
Proof.
  intros HL Hm Hn Hs.
  rewrite (float_rotate_integer l m), (float_rotate_integer l (m + n))
    by assumption.
  change (Transform.rotate (Arr l) m) with (Arr (Transform.rotate_items l m)).
  rewrite float_rotate_integer by (rewrite length_rotate_items; assumption).
  apply (rotate_compose_integer l m n).
Qed.

Lemma rotate_compose_within_bound_witness :
  (Z.of_nat (List.length [int 1; int 2; int 3]) < 2 ^ 32)%Z
  /\ (Z.abs 5 + Z.of_nat (List.length [int 1; int 2; int 3]) <= 2 ^ 53)%Z
  /\ (Z.abs (-7) + Z.of_nat (List.length [int 1; int 2; int 3]) <= 2 ^ 53)%Z
  /\ (Z.abs (5 + -7) + Z.of_nat (List.length [int 1; int 2; int 3]) <= 2 ^ 53)%Z
  /\ Float.rotate (Float.rotate (Arr [int 1; int 2; int 3]) (of_Z 5)) (of_Z (-7))
     = Float.rotate (Arr [int 1; int 2; int 3]) (of_Z (5 + -7)).
Proof.
  assert (HL : (Z.of_nat (List.length [int 1; int 2; int 3]) < 2 ^ 32)%Z)
    by (simpl; lia).
  assert (Hm : (Z.abs 5 + Z.of_nat (List.length [int 1; int 2; int 3]) <= 2 ^ 53)%Z)
    by (simpl; lia).
  assert (Hn : (Z.abs (-7) + Z.of_nat (List.length [int 1; int 2; int 3])
                <= 2 ^ 53)%Z) by (simpl; lia).
  assert (Hs : (Z.abs (5 + -7) + Z.of_nat (List.length [int 1; int 2; int 3])
                <= 2 ^ 53)%Z) by (simpl; lia).
  repeat (split; [ assumption | ]).
  exact (@rotate_compose_within_bound [int 1; int 2; int 3] 5 (-7) HL Hm Hn Hs).
Defined.

(** X13.  For an integer step [r] with [|r| + L] at most [2^53], negative
    steps and steps beyond the length [L] included, a rotation cuts the
    array in two and swaps the parts: the result keeps the length and is a
    permutation of the input. *)
Theorem rotate_is_cut_and_swap_within_bound (l : list value) (r : Z) :
  (Z.of_nat (List.length l) < 2 ^ 32)%Z ->
  (Z.abs r + Z.of_nat (List.length l) <= 2 ^ 53)%Z ->
  exists k,
    (k <= List.length l)%nat
    /\ Float.rotate (Arr l) (of_Z r) = Arr (skipn k l ++ firstn k l)
    /\ Util.length (Float.rotate (Arr l) (of_Z r)) = List.length l
    /\ Permutation (skipn k l ++ firstn k l) l.
Proof.
  intros HL Hr. rewrite float_rotate_integer by assumption.
  apply rotate_cut_permutation.
Qed.

Lemma rotate_is_cut_and_swap_within_bound_witness :
  (Z.of_nat (List.length [int 1; int 2; int 3]) < 2 ^ 32)%Z
  /\ (Z.abs (-4) + Z.of_nat (List.length [int 1; int 2; int 3]) <= 2 ^ 53)%Z
  /\ exists k,
      (k <= List.length [int 1; int 2; int 3])%nat
      /\ Float.rotate (Arr [int 1; int 2; int 3]) (of_Z (-4))
         = Arr (skipn k [int 1; int 2; int 3] ++ firstn k [int 1; int 2; int 3]).
Proof.
  assert (HL : (Z.of_nat (List.length [int 1; int 2; int 3]) < 2 ^ 32)%Z)
    by (simpl; lia).
  assert (Hr : (Z.abs (-4) + Z.of_nat (List.length [int 1; int 2; int 3])
                <= 2 ^ 53)%Z) by (simpl; lia).
  split; [ exact HL | split; [ exact Hr | ] ].
  destruct (@rotate_is_cut_and_swap_within_bound [int 1; int 2; int 3] (-4) HL Hr)
    as (k & Hk & E & _).
  exists k. split; [ exact Hk | exact E ].
Defined.

(* ================================================================== *)
(** ** padding and every *)

Lemma padding_no_shift (a : list value) (len : Z) (pad : value) :
  (Z.of_nat (List.length a) <= len < 2 ^ 32)%Z ->
  Transform.padding a len pad (of_Z 0)
  = Some (Arr (a ++ repeat pad (Z.to_nat (len - Z.of_nat (List.length a))))).
Proof.
  intros H. unfold Transform.padding, new_Array.
  destruct (Z.leb_spec 0 (len - Z.of_nat (List.length a))); [ | lia ].
  destruct (Z.ltb_spec (len - Z.of_nat (List.length a)) (2 ^ 32)); [ | lia ].
  cbn [andb]. rewrite fill_empty_slots.
  rewrite float_rotate_integer
    by (rewrite length_app, repeat_length; simpl Z.abs; lia).
  unfold Transform.rotate. cbn [param]. now rewrite rotate_items_zero.
Qed.

(** X21.  [padding] never shortens: a length below the length of the array
    makes [Array(length - a.length)] fail with a RangeError, whatever the
    shift.  With a length [len] from the length of the array up to [2^32]
    excluded, the result without a shift is the array followed by the pads,
    and with an integer shift [s] such that [|s| + len] is at most [2^53]
    the result has exactly the length asked for and is a permutation of the
    array followed by the pads. *)
Theorem padding_length_and_failure (a : list value) (len : Z) (pad : value) :
  ((len < Z.of_nat (List.length a))%Z ->
   forall shift, Transform.padding a len pad shift = None)
  /\ ((Z.of_nat (List.length a) <= len < 2 ^ 32)%Z ->
      Transform.padding a len pad (of_Z 0)
      = Some (Arr (a ++ repeat pad (Z.to_nat (len - Z.of_nat (List.length a)))))
      /\ forall s : Z,
           (Z.abs s + len <= 2 ^ 53)%Z ->
           exists r,
             Transform.padding a len pad (of_Z s) = Some (Arr r)
             /\ Z.of_nat (List.length r) = len
             /\ Permutation r
                  (a ++ repeat pad (Z.to_nat (len - Z.of_nat (List.length a))))).
Proof.
  split.
  - intros H shift. unfold Transform.padding, new_Array.
    destruct (Z.leb_spec 0 (len - Z.of_nat (List.length a))); [ lia | reflexivity ].
  - intros H. split; [ now apply padding_no_shift | ].
    intros s Hs. unfold Transform.padding, new_Array.
    destruct (Z.leb_spec 0 (len - Z.of_nat (List.length a))); [ | lia ].
    destruct (Z.ltb_spec (len - Z.of_nat (List.length a)) (2 ^ 32)); [ | lia ].
    cbn [andb]. rewrite fill_empty_slots.
    set (full := a ++ repeat pad (Z.to_nat (len - Z.of_nat (List.length a)))).
    assert (Hfull : Z.of_nat (List.length full) = len).
    { unfold full. rewrite length_app, repeat_length. lia. }
    rewrite float_rotate_integer by lia.
    destruct (rotate_cut_permutation full s) as (k & _ & Er & El & Ep).
    rewrite Er. eexists. split; [ reflexivity | ].
    split; [ | exact Ep ].
    now rewrite (Permutation_length Ep).
Qed.

Lemma padding_length_and_failure_witness :
  ((1 < Z.of_nat (List.length [int 3; int 7]))%Z
   /\ Transform.padding [int 3; int 7] 1 (int 0) (of_Z 0) = None)
  /\ ((Z.of_nat (List.length [int 3; int 7]) <= 4 < 2 ^ 32)%Z
      /\ (Z.abs 1 + 4 <= 2 ^ 53)%Z
      /\ exists r,
           Transform.padding [int 3; int 7] 4 (int 0) (of_Z 1) = Some (Arr r)
           /\ Z.of_nat (List.length r) = 4%Z).
Proof.
  assert (H : (1 < Z.of_nat (List.length [int 3; int 7]))%Z) by (simpl; lia).
  assert (H' : (Z.of_nat (List.length [int 3; int 7]) <= 4 < 2 ^ 32)%Z)
    by (simpl; lia).
  assert (Hs : (Z.abs 1 + 4 <= 2 ^ 53)%Z) by (simpl; lia).
  split; [ split; [ exact H | ] | split; [ exact H' | split; [ exact Hs | ] ] ].
  - exact (proj1 (padding_length_and_failure [int 3; int 7] 1 (int 0)) H (of_Z 0)).
  - destruct (proj2 (proj2 (padding_length_and_failure [int 3; int 7] 4 (int 0)) H')
                1%Z Hs) as [r [E [L _]]].
    exists r. split; [ exact E | exact L ].
Defined.

(** X22.  [every] asks [padding] for the whole part of the product
    [bars * div] as binary64 computes it: when the array is no longer than
    that, the result without a shift is the array followed by pads up to
    that length; when the array is longer, [every] fails like [padding],
    whatever the shift. *)
Theorem every_floors_the_rounded_product (a : list value) (bars div p : Q)
  (pad : value) :
  Binary64.mul (Fin bars) (Fin div) = Fin p ->
  ((Z.of_nat (List.length a) <= Qfloor p < 2 ^ 32)%Z ->
   Transform.every a (Fin bars) (Fin div) pad (of_Z 0)
   = Some (Arr (a ++ repeat pad (Z.to_nat (Qfloor p - Z.of_nat (List.length a))))))
  /\ ((Qfloor p < Z.of_nat (List.length a))%Z ->
      forall shift, Transform.every a (Fin bars) (Fin div) pad shift = None).
Proof.
  intros Hp. unfold Transform.every. rewrite Hp. cbn [floor].
  rewrite Qfloor_Z.
  split.
  - intros H.
    assert (S0 : floor (Binary64.mul (of_Z 0) (Fin div)) = of_Z 0).
    { unfold Binary64.mul, of_Z. cbn [mul].
      rewrite (Qred_complete (inject_Z 0 * div) 0) by ring. reflexivity. }
    rewrite S0.
    now apply padding_no_shift.
  - intros H shift.
    unfold Transform.padding, new_Array.
    destruct (Z.leb_spec 0 (Qfloor p - Z.of_nat (List.length a)));
      [ lia | reflexivity ].
Qed.

Lemma every_floors_the_rounded_product_witness :
  Binary64.mul (Fin (3152519739159347 # 4503599627370496)) (Fin 10) = Fin 7
  /\ (Z.of_nat (List.length [int 1; int 0; int 1]) <= Qfloor 7 < 2 ^ 32)%Z
  /\ Transform.every [int 1; int 0; int 1]
       (Fin (3152519739159347 # 4503599627370496)) (Fin 10) (int 0) (of_Z 0)
     = Some (Arr ([int 1; int 0; int 1]
                  ++ repeat (int 0)
                       (Z.to_nat (Qfloor 7
                                  - Z.of_nat (List.length [int 1; int 0; int 1]))))).
Proof.
  assert (Hp : Binary64.mul (Fin (3152519739159347 # 4503599627370496)) (Fin 10)
               = Fin 7) by (vm_compute; reflexivity).
  assert (H : (Z.of_nat (List.length [int 1; int 0; int 1]) <= Qfloor 7 < 2 ^ 32)%Z)
    by (vm_compute; split; [ discriminate | reflexivity ]).
  split; [ exact Hp | split; [ exact H | ] ].
  pose proof (@every_floors_the_rounded_product [int 1; int 0; int 1]
                (3152519739159347 # 4503599627370496) 10 7 (int 0) Hp) as P.
  exact (proj1 P H).
Defined.

(* ================================================================== *)
(** ** wrap and mod on integers *)

Lemma rem_by_zero (t : num) : rem t (of_Z 0) = NaN.
Proof. destruct t; reflexivity. Qed.

Lemma float_wrap_integer (x lo hi : Z) :
  (lo < hi)%Z ->
  (Z.abs x <= 2 ^ 51)%Z -> (Z.abs lo <= 2 ^ 51)%Z -> (Z.abs hi <= 2 ^ 51)%Z ->
  Float._wrap (of_Z x) (of_Z lo) (of_Z hi)
  = of_Z (lo + (x - lo) mod (hi - lo)).
Proof.
  intros Hlt Hx Hlo Hhi. unfold Float._wrap.
  assert (Hr : (0 < hi - lo)%Z) by lia.
  rewrite !binary64_sub_of_Z by lia.
  rewrite rem_of_Z by exact Hr.
  pose proof (Z.rem_bound_abs (x - lo) (hi - lo)) as Hb.
  rewrite binary64_add_of_Z by lia.
  rewrite rem_of_Z, rem_rem_mod by exact Hr.
  pose proof (Z.mod_pos_bound (x - lo) (hi - lo) Hr) as Hm.
  rewrite binary64_add_of_Z by lia.
  now rewrite Z.add_comm.
Qed.

Lemma float_wrap_integer_twice (x lo hi : Z) :
  (lo < hi)%Z ->
  (Z.abs x <= 2 ^ 51)%Z -> (Z.abs lo <= 2 ^ 51)%Z -> (Z.abs hi <= 2 ^ 51)%Z ->
  Float._wrap (Float._wrap (of_Z x) (of_Z lo) (of_Z hi)) (of_Z lo) (of_Z hi)
  = Float._wrap (of_Z x) (of_Z lo) (of_Z hi).
Proof.
  intros Hlt Hx Hlo Hhi.
  rewrite (@float_wrap_integer x lo hi Hlt Hx Hlo Hhi).
  pose proof (Z.mod_pos_bound (x - lo) (hi - lo) ltac:(lia)) as Hm.
  rewrite float_wrap_integer by lia.
  f_equal. f_equal.
  replace (lo + (x - lo) mod (hi - lo) - lo)%Z with ((x - lo) mod (hi - lo))%Z
    by lia.
  apply Z.mod_small. exact Hm.
Qed.

Lemma float_wrap_empty_range (t : num) (lo : Z) :
  (Z.abs lo <= 2 ^ 51)%Z -> Float._wrap t (of_Z lo) (of_Z lo) = NaN.
Proof.
  intros Hlo. unfold Float._wrap.
  rewrite (@binary64_sub_of_Z lo lo) by lia.
  rewrite Z.sub_diag, !rem_by_zero. reflexivity.
Qed.

Lemma float_wrap_elementwise (lo hi : Z) (t : num) :
  Float.wrap (Util.One t) (of_Z lo) (of_Z hi)
  = Util.One (if (hi <? lo)%Z
              then Float._wrap t (of_Z hi) (of_Z lo)
              else Float._wrap t (of_Z lo) (of_Z hi))
  /\ forall ts,
       Float.wrap (Util.Many ts) (of_Z lo) (of_Z hi)
       = Util.Many (map (fun t => if (hi <? lo)%Z
                                  then Float._wrap t (of_Z hi) (of_Z lo)
                                  else Float._wrap t (of_Z lo) (of_Z hi)) ts).
Proof.
  unfold Float.wrap, gtb. rewrite ltb_of_Z.
  destruct (hi <? lo)%Z; split; reflexivity.
Qed.

(** X3.  On integers of magnitude up to [2^51], for the input and for the
    bounds in either order, equal bounds included, [wrap] in binary64 is
    idempotent, on a number and on an array of numbers; with [lo] below
    [hi] it returns [lo] plus the non-negative remainder of [x - lo] by
    [hi - lo]. *)
Theorem wrap_idempotent_on_integers (xs : list Z) (lo hi : Z) :
  Forall (fun x => (Z.abs x <= 2 ^ 51)%Z) xs ->
  (Z.abs lo <= 2 ^ 51)%Z ->
  (Z.abs hi <= 2 ^ 51)%Z ->
  Float.wrap (Float.wrap (Util.Many (map of_Z xs)) (of_Z lo) (of_Z hi))
    (of_Z lo) (of_Z hi)
  = Float.wrap (Util.Many (map of_Z xs)) (of_Z lo) (of_Z hi)
  /\ (forall x, In x xs ->
        Float.wrap (Float.wrap (Util.One (of_Z x)) (of_Z lo) (of_Z hi))
          (of_Z lo) (of_Z hi)
        = Float.wrap (Util.One (of_Z x)) (of_Z lo) (of_Z hi))
  /\ ((lo < hi)%Z ->
      Float.wrap (Util.Many (map of_Z xs)) (of_Z lo) (of_Z hi)
      = Util.Many (map (fun x => of_Z (lo + (x - lo) mod (hi - lo))) xs)).
Proof.
  intros Hxs Hlo Hhi.
  set (f := fun t => if (hi <? lo)%Z
                     then Float._wrap t (of_Z hi) (of_Z lo)
                     else Float._wrap t (of_Z lo) (of_Z hi)).
  assert (Hf : forall x, (Z.abs x <= 2 ^ 51)%Z -> f (f (of_Z x)) = f (of_Z x)).
  { intros x Hx. unfold f. destruct (Z.ltb_spec hi lo) as [ H | H ].
    - now apply float_wrap_integer_twice.
    - destruct (Z.eq_dec lo hi) as [ <- | Hne ].
      + now rewrite !float_wrap_empty_range.
      + apply float_wrap_integer_twice; lia. }
  assert (W1 : forall t, Float.wrap (Util.One t) (of_Z lo) (of_Z hi)
                         = Util.One (f t))
    by (intros t; apply (proj1 (float_wrap_elementwise lo hi t))).
  assert (WM : forall ts, Float.wrap (Util.Many ts) (of_Z lo) (of_Z hi)
                          = Util.Many (map f ts))
    by (intros ts; apply (proj2 (float_wrap_elementwise lo hi NaN))).
  rewrite Forall_forall in Hxs.
  split; [ | split ].
  - rewrite !WM, !map_map. f_equal.
    apply map_ext_in. intros x Hx. apply Hf. now apply Hxs.
  - intros x Hx. rewrite !W1. f_equal. apply Hf. now apply Hxs.
  - intros Hlt. rewrite WM, map_map. f_equal.
    apply map_ext_in. intros x Hx. unfold f.
    destruct (Z.ltb_spec hi lo) as [ H | _ ]; [ lia | ].
    apply float_wrap_integer; try assumption. now apply Hxs.
Qed.

Lemma wrap_idempotent_on_integers_witness :
  Forall (fun x => (Z.abs x <= 2 ^ 51)%Z) [(-3)%Z; 14%Z]
  /\ (Z.abs 12 <= 2 ^ 51)%Z
  /\ (Z.abs 0 <= 2 ^ 51)%Z
  /\ Float.wrap
       (Float.wrap (Util.Many (map of_Z [(-3)%Z; 14%Z])) (of_Z 12) (of_Z 0))
       (of_Z 12) (of_Z 0)
     = Float.wrap (Util.Many (map of_Z [(-3)%Z; 14%Z])) (of_Z 12) (of_Z 0).
Proof.
  assert (Hx : Forall (fun x => (Z.abs x <= 2 ^ 51)%Z) [(-3)%Z; 14%Z])
    by (repeat constructor; simpl; lia).
  assert (Hlo : (Z.abs 12 <= 2 ^ 51)%Z) by (simpl; lia).
  assert (Hhi : (Z.abs 0 <= 2 ^ 51)%Z) by (simpl; lia).
  split; [ exact Hx | split; [ exact Hlo | split; [ exact Hhi | ] ] ].
  exact (proj1 (@wrap_idempotent_on_integers [(-3)%Z; 14%Z] 12 0 Hx Hlo Hhi)).
Defined.

Section Modulo.
Context {rt : Runtime}.

(** X4.  For integers and an integer modulus from 1 to [2^52], [mod] gives
    the non-negative remainder, a number from 0 up to the modulus excluded,
    also for negative inputs: the expression [((a % n) + n) % n] gives it in
    binary64 as in exact arithmetic.  [mod] over an array does so for every
    element, and it agrees with [wrap] between 0 and the modulus. *)
Theorem mod_nonnegative_remainder (l : list Z) (n : Z) :
  (0 < n <= 2 ^ 52)%Z ->
  Util.mod_ (Arr (map int l)) (int n) = Arr (map (fun a => int (a mod n)) l)
  /\ (forall a, Util.mod_ (int a) (int n) = int (a mod n)
                /\ (0 <= a mod n < n)%Z
                /\ rem (Binary64.add (rem (of_Z a) (of_Z n)) (of_Z n)) (of_Z n)
                   = of_Z (a mod n))
  /\ Util.wrap (Util.Many (map of_Z l)) (of_Z 0) (of_Z n)
     = Util.Many (map (fun a => of_Z (a mod n)) l).
Proof.
  intros [Hn Hn'].
  assert (Hop : forall a, js_rem (js_plus (js_rem (int a) (int n)) (int n)) (int n)
                          = int (a mod n)).
  { intros a. unfold js_rem, js_plus, int. cbn [ToPrimitive ToNumber].
    now rewrite euclid_of_Z. }
  split; [ | split ].
  - unfold Util.mod_. cbn [param].
    rewrite (arrayCalc_scalar_right _ (int n) eq_refl).
    cbn [deep_map]. f_equal. rewrite map_map.
    apply map_ext. intros a. apply Hop.
  - intros a. split; [ apply Hop | split; [ now apply Z.mod_pos_bound | ] ].
    rewrite rem_of_Z by exact Hn.
    pose proof (Z.rem_bound_abs a n) as Hb.
    rewrite binary64_add_of_Z by lia.
    now rewrite rem_of_Z, rem_rem_mod by exact Hn.
  - unfold of_Z. rewrite wrap_Many.
    rewrite Qle_bool_true by (rewrite <- Zle_Qle; lia).
    f_equal. rewrite map_map. apply map_ext. intros a.
    exact (_wrap_of_Z a Hn).
Qed.

End Modulo.

Lemma mod_nonnegative_remainder_witness :
  (0 < 5 <= 2 ^ 52)%Z
  /\ Util.mod_ (rt := constant_runtime) (Arr (map int [(-2)%Z; 4%Z; 3%Z; 7%Z])) (int 5)
     = Arr (map (fun a => int (a mod 5)) [(-2)%Z; 4%Z; 3%Z; 7%Z]).
Proof.
  assert (H : (0 < 5 <= 2 ^ 52)%Z) by lia.
  split; [ exact H | ].
  exact (proj1 (mod_nonnegative_remainder (rt := constant_runtime)
                  [(-2)%Z; 4%Z; 3%Z; 7%Z] H)).
Defined.

(* ================================================================== *)
(** ** Arithmetic on integers that binary64 holds *)

Lemma mul_of_Z (a b : Z) : mul (of_Z a) (of_Z b) = of_Z (a * b).
Proof.
  unfold mul, of_Z. f_equal.
  rewrite <- inject_Z_mult. apply Qred_inject_Z.
Qed.

Lemma div_of_Z_exact (z k : Z) :
  k <> 0%Z -> div (of_Z (z * k)) (of_Z k) = of_Z z.
Proof.
  intros Hk. unfold div, of_Z.
  assert (Hq : ~ (inject_Z k == 0)%Q).
  { intros E. apply Hk. apply inject_Z_injective. exact E. }
  rewrite (Qeq_bool_false Hq). f_equal.
  rewrite <- (Qred_inject_Z z). apply Qred_complete.
  rewrite inject_Z_mult. field. exact Hq.
Qed.

Lemma integer_leaves_numeric (P : Z -> Prop) (v : value) :
  Forall (integer_leaf P) (Util.flat_all v) ->
  numeric v = true /\ in_lowest_terms v.
Proof.
  unfold in_lowest_terms.
  induction v as [ | n | t | l IH ] using value_ind; cbn [Util.flat_all].
  - intros H. inversion H as [ | ? ? (z & E & _) _ ]; discriminate.
  - intros H. inversion H as [ | ? ? (z & E & _) _ ]; subst.
    injection E as ->. split; [ reflexivity | ].
    cbn [map_numbers reduce of_Z]. now rewrite Qred_inject_Z.
  - intros H. inversion H as [ | ? ? (z & E & _) _ ]; discriminate.
  - intros H. cbn [numeric map_numbers].
    induction l as [ | x l IHl ]; [ split; reflexivity | ].
    cbn [flat_map] in H. apply Forall_app in H. destruct H as [Hx Hl].
    inversion IH as [ | ? ? IHx IHrest ]; subst.
    destruct (IHx Hx) as [Nx Lx].
    destruct (IHl IHrest Hl) as [Nl Ll].
    cbn [forallb map]. rewrite Nx, Nl. split; [ reflexivity | ].
    rewrite Lx. injection Ll as Ll. now rewrite Ll.
Qed.

Lemma integer_or_missing_finite (v : value) :
  integer_or_missing v -> finite_or_missing v.
Proof.
  intros [[z ->] | H]; [ left; now exists (inject_Z z) | now right ].
Qed.

Lemma binary64_sum_of_integers (zs : list Z) :
  forall acc : Z,
    (Z.abs acc + fold_right (fun z t => Z.abs z + t) 0 zs <= 2 ^ 53)%Z ->
    fold_left (fun s z => Binary64.add s (of_Z z)) zs (of_Z acc)
    = of_Z (fold_left Z.add zs acc).
Proof.
  induction zs as [ | z zs IH ]; intros acc H; [ reflexivity | ].
  cbn [fold_left fold_right] in *.
  assert (Hrest : (0 <= fold_right (fun z t => Z.abs z + t) 0 zs)%Z).
  { clear. induction zs as [ | y zs IH ]; simpl; lia. }
  rewrite binary64_add_of_Z by lia.
  apply IH. lia.
Qed.

Section IntegerArithmetic.
Context {rt : Runtime}.

(** X7.  On a nested array of integers and for an integer [k], all sums
    [z + k] and products [z * k] being of magnitude at most [2^53]: adding
    [k] adds it to every number and keeps the nesting; subtracting [k]
    again gives the array back, and so does dividing by [k] after
    multiplying by [k], when [k] is not zero.  In binary64 the operations
    give the same numbers: [(z + k) - k] and [(z * k) / k] are [z]. *)
Theorem scalar_arithmetic_round_trips (a : value) (k : Z) :
  Forall (integer_leaf (fun z => (Z.abs z <= 2 ^ 53)%Z
                                 /\ (Z.abs (z + k) <= 2 ^ 53)%Z
                                 /\ (Z.abs (z * k) <= 2 ^ 53)%Z))
    (Util.flat_all a) ->
  Util.add a (int k) = map_numbers (fun x => add x (of_Z k)) a
  /\ Util.subtract (Util.add a (int k)) (int k) = a
  /\ (k <> 0%Z -> Util.divide (Util.multiply a (int k)) (int k) = a)
  /\ (forall z, (Z.abs z <= 2 ^ 53)%Z -> (Z.abs (z + k) <= 2 ^ 53)%Z ->
                Binary64.sub (Binary64.add (of_Z z) (of_Z k)) (of_Z k) = of_Z z)
  /\ (forall z, k <> 0%Z ->
                (Z.abs z <= 2 ^ 53)%Z -> (Z.abs (z * k) <= 2 ^ 53)%Z ->
                Binary64.div (Binary64.mul (of_Z z) (of_Z k)) (of_Z k) = of_Z z).
Proof.
  intros H.
  destruct (@integer_leaves_numeric _ a H) as [Hnum Hlow].
  destruct (@scalar_arithmetic_exact rt a (inject_Z k) Hnum Hlow)
    as (E1 & E2 & E3).
  split; [ exact E1 | split; [ exact E2 | split; [ | split ] ] ].
  - intros Hk. apply E3. intros E. apply Hk.
    apply inject_Z_injective. exact E.
  - intros z Hz Hzk.
    rewrite binary64_add_of_Z by exact Hzk.
    rewrite binary64_sub_of_Z by (replace (z + k - k)%Z with z by lia; exact Hz).
    f_equal. lia.
  - intros z Hk Hz Hzk.
    unfold Binary64.mul. rewrite mul_of_Z.
    pose proof (@unrounded_of_Z (z * k) Hzk) as U.
    unfold Binary64.unrounded in U. rewrite U.
    unfold Binary64.div. rewrite div_of_Z_exact by exact Hk.
    now apply unrounded_of_Z.
Qed.

(** X8.  On a nested array whose leaves are integers, [NaN] or [undefined],
    the magnitudes of the integers adding up to at most [2^53], [sum] is the
    sum of the integers at every depth: the nesting plays no part and the
    other leaves count as 0.  In binary64 every partial sum of such
    integers is the exact one. *)
Theorem sum_of_integer_leaves (l : list value) :
  Forall integer_or_missing (flat_map Util.flat_all l) ->
  (finite_magnitude (flat_map Util.flat_all l) <= inject_Z (2 ^ 53))%Q ->
  Util.sum (Arr l) = Num (Fin (Qred (finite_total (flat_map Util.flat_all l))))
  /\ forall zs : list Z,
       (fold_right (fun z t => Z.abs z + t) 0 zs <= 2 ^ 53)%Z ->
       fold_left (fun s z => Binary64.add s (of_Z z)) zs (of_Z 0)
       = of_Z (fold_left Z.add zs 0%Z).
Proof.
  intros H _. split.
  - apply sum_exact. apply Forall_forall. intros v Hv.
    rewrite Forall_forall in H. apply integer_or_missing_finite. now apply H.
  - intros zs Hzs. apply binary64_sum_of_integers. simpl Z.abs. lia.
Qed.

(** X9.  On a nested array of integers of magnitude up to [2^52] whose
    smallest number [a] is below its largest [b], every number of
    [normalize] lies between 0 and 1, the smallest is sent to 0 and the
    largest to 1; and every number of [signedNormalize] lies between -1 and
    1. *)
Theorem normalize_unit_range (l : list value) (a b : Q) :
  Forall (integer_leaf (fun z => (Z.abs z <= 2 ^ 52)%Z))
    (flat_map Util.flat_all l) ->
  Util.minimum (Arr l) = Num (Fin a) ->
  Util.maximum (Arr l) = Num (Fin b) ->
  (a < b)%Q ->
  Forall (number_between 0 1) (Util.flat_all (Util.normalize (Arr l)))
  /\ (exists f, Util.normalize (Arr l) = map_numbers f (Arr l)
                /\ f (Fin a) = Fin 0 /\ f (Fin b) = Fin 1)
  /\ Forall (number_between (-1) 1)
       (Util.flat_all (Util.signedNormalize (Arr l))).
Proof.
  intros H Hmin Hmax Hab.
  destruct (@integer_leaves_numeric _ (Arr l) H) as [Hnum _].
  exact (normalize_unit_range_exact Hnum Hmin Hmax Hab).
Qed.

End IntegerArithmetic.

Lemma scalar_arithmetic_round_trips_witness :
  Forall (integer_leaf (fun z => (Z.abs z <= 2 ^ 53)%Z
                                 /\ (Z.abs (z + 3) <= 2 ^ 53)%Z
                                 /\ (Z.abs (z * 3) <= 2 ^ 53)%Z))
    (Util.flat_all (Arr [int 1; Arr [int 2; int (-5)]]))
  /\ 3%Z <> 0%Z
  /\ Util.divide (rt := constant_runtime)
       (Util.multiply (rt := constant_runtime)
          (Arr [int 1; Arr [int 2; int (-5)]]) (int 3))
       (int 3)
     = Arr [int 1; Arr [int 2; int (-5)]].
Proof.
  assert (H : Forall (integer_leaf (fun z => (Z.abs z <= 2 ^ 53)%Z
                                             /\ (Z.abs (z + 3) <= 2 ^ 53)%Z
                                             /\ (Z.abs (z * 3) <= 2 ^ 53)%Z))
                (Util.flat_all (Arr [int 1; Arr [int 2; int (-5)]]))).
  { simpl.
    apply Forall_cons; [ exists 1%Z; split; [ reflexivity | lia ] | ].
    apply Forall_cons; [ exists 2%Z; split; [ reflexivity | lia ] | ].
    apply Forall_cons; [ exists (-5)%Z; split; [ reflexivity | lia ] | ].
    apply Forall_nil. }
  assert (Hk : 3%Z <> 0%Z) by discriminate.
  split; [ exact H | split; [ exact Hk | ] ].
  exact (proj1 (proj2 (proj2 (@scalar_arithmetic_round_trips constant_runtime
                                (Arr [int 1; Arr [int 2; int (-5)]]) 3 H))) Hk).
Defined.

Lemma sum_of_integer_leaves_witness :
  Forall integer_or_missing
    (flat_map Util.flat_all [int 1; Arr [Undef; int (-4)]; Num NaN])
  /\ (finite_magnitude
        (flat_map Util.flat_all [int 1; Arr [Undef; int (-4)]; Num NaN])
      <= inject_Z (2 ^ 53))%Q
  /\ Util.sum (rt := constant_runtime)
       (Arr [int 1; Arr [Undef; int (-4)]; Num NaN])
     = Num (Fin (-3)).
Proof.
  assert (H : Forall integer_or_missing
                (flat_map Util.flat_all
                   [int 1; Arr [Undef; int (-4)]; Num NaN])).
  { simpl.
    apply Forall_cons; [ left; now exists 1%Z | ].
    apply Forall_cons; [ right; now right | ].
    apply Forall_cons; [ left; now exists (-4)%Z | ].
    apply Forall_cons; [ right; now left | apply Forall_nil ]. }
  assert (M : (finite_magnitude
                 (flat_map Util.flat_all
                    [int 1; Arr [Undef; int (-4)]; Num NaN])
               <= inject_Z (2 ^ 53))%Q) by (vm_compute; discriminate).
  split; [ exact H | split; [ exact M | ] ].
  exact (proj1 (@sum_of_integer_leaves constant_runtime _ H M)).
Defined.

Lemma normalize_unit_range_witness :
  Forall (integer_leaf (fun z => (Z.abs z <= 2 ^ 52)%Z))
    (flat_map Util.flat_all [int 5; Arr [int 12; int 4]])
  /\ Util.minimum (rt := constant_runtime) (Arr [int 5; Arr [int 12; int 4]])
     = Num (Fin 4)
  /\ Util.maximum (rt := constant_runtime) (Arr [int 5; Arr [int 12; int 4]])
     = Num (Fin 12)
  /\ (4 < 12)%Q
  /\ Forall (number_between 0 1)
       (Util.flat_all
          (Util.normalize (rt := constant_runtime)
             (Arr [int 5; Arr [int 12; int 4]]))).
Proof.
  assert (H : Forall (integer_leaf (fun z => (Z.abs z <= 2 ^ 52)%Z))
                (flat_map Util.flat_all [int 5; Arr [int 12; int 4]])).
  { simpl.
    apply Forall_cons; [ exists 5%Z; split; [ reflexivity | lia ] | ].
    apply Forall_cons; [ exists 12%Z; split; [ reflexivity | lia ] | ].
    apply Forall_cons; [ exists 4%Z; split; [ reflexivity | lia ] | ].
    apply Forall_nil. }
  assert (Hmin : Util.minimum (rt := constant_runtime)
                   (Arr [int 5; Arr [int 12; int 4]]) = Num (Fin 4))
    by reflexivity.
  assert (Hmax : Util.maximum (rt := constant_runtime)
                   (Arr [int 5; Arr [int 12; int 4]]) = Num (Fin 12))
    by reflexivity.
  assert (Hab : (4 < 12)%Q) by reflexivity.
  split; [ exact H | split; [ exact Hmin | split; [ exact Hmax | split; [ exact Hab | ] ] ] ].
  exact (proj1 (@normalize_unit_range constant_runtime _ 4 12 H Hmin Hmax Hab)).
Defined.

(* ================================================================== *)
(** ** invert *)

Section Invert.
Context {rt : Runtime}.

(** With both bounds given, [invert] applies [hi - v + lo] to every leaf of
    an array. *)
Lemma invert_from_bounded (lo hi : num) (v : value) :
  isArray v = true ->
  Transform.invert_from v (Num lo) (Num hi)
  = deep_map (fun x => js_plus (js_minus (Num hi) x) (Num lo)) v.
Proof.
  induction v as [ | n | t | l IH ] using value_ind; try discriminate.
  intros _. simpl. f_equal. apply map_ext_in. intros x Hx.
  rewrite Forall_forall in IH.
  destruct x; try reflexivity. now apply IH.
Qed.

Lemma invert_from_numeric (lo hi : num) (l : list value) :
  forallb numeric l = true ->
  Transform.invert_from (Arr l) (Num lo) (Num hi)
  = map_numbers (fun x => add (sub hi x) lo) (Arr l).
Proof.
  intros H. rewrite invert_from_bounded by reflexivity.
  now apply deep_map_numbers.
Qed.

(** X24.  With no [lo], [invert] throws a TypeError.  With integer bounds
    and on a nested array of integers, [hi - z], [hi - z + lo] and [z - lo]
    being of magnitude up to [2^53] for every integer [z] of the array,
    [invert] keeps the nesting and sends every [z] to [hi - z + lo], and
    inverting twice gives the array back; the operations give in binary64
    what they give exactly. *)
Theorem invert_mirrors_between_bounds (l : list value) :
  (forall hi, Transform.invert (Arr l) Undef hi = inl Transform.TypeError)
  /\ (forall lo hi : Z,
         Forall (integer_leaf (fun z => (Z.abs z <= 2 ^ 53)%Z
                                        /\ (Z.abs (hi - z) <= 2 ^ 53)%Z
                                        /\ (Z.abs (hi - z + lo) <= 2 ^ 53)%Z
                                        /\ (Z.abs (z - lo) <= 2 ^ 53)%Z))
           (flat_map Util.flat_all l) ->
         let mirror := fun x => add (sub (of_Z hi) x) (of_Z lo) in
         Transform.invert (Arr l) (int lo) (int hi)
         = inr (map_numbers mirror (Arr l))
         /\ Transform.invert (map_numbers mirror (Arr l)) (int lo) (int hi)
            = inr (Arr l)
         /\ forall z,
              (Z.abs z <= 2 ^ 53)%Z -> (Z.abs (hi - z) <= 2 ^ 53)%Z ->
              (Z.abs (hi - z + lo) <= 2 ^ 53)%Z -> (Z.abs (z - lo) <= 2 ^ 53)%Z ->
              mirror (of_Z z) = of_Z (hi - z + lo)
              /\ Binary64.add (Binary64.sub (of_Z hi) (of_Z z)) (of_Z lo)
                 = of_Z (hi - z + lo)
              /\ Binary64.add
                   (Binary64.sub (of_Z hi) (of_Z (hi - z + lo))) (of_Z lo)
                 = of_Z z).
Proof.
  split; [ reflexivity | ].
  intros lo hi H mirror.
  destruct (@integer_leaves_numeric _ (Arr l) H) as [Hnum Hlow].
  cbn [numeric] in Hnum.
  split; [ | split ].
  - unfold Transform.invert, int. f_equal. now apply invert_from_numeric.
  - unfold Transform.invert, int. cbn [map_numbers]. f_equal.
    rewrite invert_from_bounded by reflexivity.
    change (Arr (map (map_numbers mirror) l))
      with (map_numbers mirror (Arr l)).
    rewrite (@deep_map_on_numbers _ mirror) by auto.
    transitivity (map_numbers reduce (Arr l)); [ | exact Hlow ].
    apply map_numbers_finite_ext; [ | exact Hnum ].
    intros q. unfold mirror, add, sub, reduce, of_Z. f_equal.
    apply Qred_complete. rewrite !Qred_correct. ring.
  - intros z H1 H2 H3 H4. split; [ | split ].
    + unfold mirror. now rewrite sub_of_Z, add_of_Z.
    + rewrite (@binary64_sub_of_Z hi z) by exact H2.
      now rewrite binary64_add_of_Z by exact H3.
    + rewrite binary64_sub_of_Z
        by (replace (hi - (hi - z + lo))%Z with (z - lo)%Z by lia; exact H4).
      rewrite binary64_add_of_Z
        by (replace (hi - (hi - z + lo) + lo)%Z with z by lia; exact H1).
      f_equal. lia.
Qed.

End Invert.

Lemma invert_mirrors_between_bounds_witness :
  Forall (integer_leaf (fun z => (Z.abs z <= 2 ^ 53)%Z
                                 /\ (Z.abs (12 - z) <= 2 ^ 53)%Z
                                 /\ (Z.abs (12 - z + 0) <= 2 ^ 53)%Z
                                 /\ (Z.abs (z - 0) <= 2 ^ 53)%Z))
    (flat_map Util.flat_all [int 0; Arr [int 2; int 5]; int 10])
  /\ Transform.invert (rt := constant_runtime)
       (Arr [int 0; Arr [int 2; int 5]; int 10]) (int 0) (int 12)
     = inr (map_numbers (fun x => add (sub (of_Z 12) x) (of_Z 0))
              (Arr [int 0; Arr [int 2; int 5]; int 10])).
Proof.
  assert (H : Forall (integer_leaf (fun z => (Z.abs z <= 2 ^ 53)%Z
                                             /\ (Z.abs (12 - z) <= 2 ^ 53)%Z
                                             /\ (Z.abs (12 - z + 0) <= 2 ^ 53)%Z
                                             /\ (Z.abs (z - 0) <= 2 ^ 53)%Z))
                (flat_map Util.flat_all [int 0; Arr [int 2; int 5]; int 10])).
  { cbn [flat_map Util.flat_all app].
    repeat (constructor;
            [ eexists; split; [ reflexivity | simpl; lia ] | ]).
    constructor. }
  split; [ exact H | ].
  exact (proj1 (proj2 (@invert_mirrors_between_bounds constant_runtime
                         [int 0; Arr [int 2; int 5]; int 10]) 0%Z 12%Z H)).
Defined.
